(** * TPC direct-laser reconstruction and secondary-vertex finder

    A shallow embedding of the geometric core of
    [offline/packages/tpccalib/TpcDirectLaserReconstruction.cc] and
    [offline/packages/trackreco/SecondaryVertexFinder.cc], followed by the
    properties of that code.

    Numbers.  C++ [double] and [float] values are idealised as real numbers:
    no rounding and no overflow.  Stdlib's division is total ([x / 0 = 0]),
    IEEE division is not, so every statement whose conclusion depends on a
    quotient carries the hypothesis that the divisor is not zero.  The single
    place where the code tests a value for not-a-number that can really be one
    ([get_dca]) uses the type [float_nan] below.

    Control.  [while] loops take fuel; null dereferences and out-of-bounds
    array writes are the outcome [Undefined]. *)

From Stdlib Require Import Reals Lra Lia ZArith List Bool.
Import ListNotations.

Local Open Scope R_scope.

(** ** Outcomes of a run *)

Inductive outcome (A : Type) : Type :=
| Done (a : A)
| OutOfFuel
| Undefined.

Arguments Done {A} a.
Arguments OutOfFuel {A}.
Arguments Undefined {A}.

Definition obind {A B : Type} (m : outcome A) (k : A -> outcome B) : outcome B :=
  match m with
  | Done a => k a
  | OutOfFuel => OutOfFuel
  | Undefined => Undefined
  end.

Notation "x <- m ;; k" := (obind m (fun x => k))
  (at level 61, m at next level, right associativity).
Notation "' p <- m ;; k" := (obind m (fun p => k))
  (at level 61, p pattern, m at next level, right associativity).

(** ** Comparisons of doubles as booleans *)

Definition Rltb (a b : R) : bool := if Rlt_dec a b then true else false.
Definition Rleb (a b : R) : bool := if Rle_dec a b then true else false.
Definition Rgtb (a b : R) : bool := Rltb b a.
Definition Rgeb (a b : R) : bool := Rleb b a.
Definition Reqb (a b : R) : bool := if Req_dec_T a b then true else false.

Declare Scope dbl_scope.
Delimit Scope dbl_scope with dbl.
Notation "a <? b" := (Rltb a b) (at level 70, no associativity) : dbl_scope.
Notation "a <=? b" := (Rleb a b) (at level 70, no associativity) : dbl_scope.
Notation "a >? b" := (Rgtb a b) (at level 70, no associativity) : dbl_scope.
Notation "a >=? b" := (Rgeb a b) (at level 70, no associativity) : dbl_scope.
Notation "a =? b" := (Reqb a b) (at level 70, no associativity) : dbl_scope.
Local Open Scope dbl_scope.

(** Conversion of a double to [int]: truncation toward zero. *)
Definition trunc (v : R) : Z :=
  if 0 <=? v then Int_part v else (- Int_part (- v))%Z.

(** [std::atan2(y, x)] of the C library, on reals. *)
Definition atan2 (y x : R) : R :=
  if 0 <? x then atan (y / x)
  else if x <? 0 then (if 0 <=? y then atan (y / x) + PI else atan (y / x) - PI)
  else if 0 <? y then PI / 2
  else if y <? 0 then - (PI / 2)
  else 0.

(** ROOT's [TVector3], with the operations the laser code uses. *)
Record TVector3 : Type := mkTVector3 { vx : R; vy : R; vz : R }.

Definition Dot (a b : TVector3) : R := vx a * vx b + vy a * vy b + vz a * vz b.
Definition Mag (a : TVector3) : R := sqrt (Dot a a).
Definition vscale (a : TVector3) (t : R) : TVector3 :=
  mkTVector3 (vx a * t) (vy a * t) (vz a * t).
Definition vadd (a b : TVector3) : TVector3 :=
  mkTVector3 (vx a + vx b) (vy a + vy b) (vz a + vz b).
Definition vsub (a b : TVector3) : TVector3 :=
  mkTVector3 (vx a - vx b) (vy a - vy b) (vz a - vz b).

(** ** TpcDirectLaserReconstruction.cc *)

Module TpcDirectLaserReconstruction.

(** *** The anonymous namespace *)

Definition square (v : R) : R := v * v.

Definition get_r (x y : R) : R := sqrt (square x + square y).

Definition line_circle_intersection (p d : TVector3) (radius : R) : R * R :=
  let ret := (-1, -1) in
  let A := square (vx d) + square (vy d) in
  let B := 2 * vx p * vx d + 2 * vy p * vy d in
  let C := square (vx p) + square (vy p) - square radius in
  let delta := square B - 4 * A * C in
  if delta <? 0 then ret
  else
    let tup := (- B + sqrt delta) / (2 * A) in
    let tdn := (- B - sqrt delta) / (2 * A) in
    (tup, tdn).

Definition delta_phi (phi : R) : R :=
  if phi >=? PI then phi - 2 * PI
  else if phi <? - PI then phi + 2 * PI
  else phi.

Definition m_phimin : R := 0.
Definition m_phimax : R := 2 * PI.
Definition m_rmin : R := 20.
Definition m_rmax : R := 78.
Definition m_zmin : R := -105.5.
Definition m_zmax : R := 105.5.

(** [while( phi < m_phimin ) phi += 2.*M_PI;] *)
Fixpoint while_below (fuel : nat) (phi : R) : outcome R :=
  if phi <? m_phimin then
    match fuel with
    | O => OutOfFuel
    | S fuel' => while_below fuel' (phi + 2 * PI)
    end
  else Done phi.

(** [while( phi >= m_phimax ) phi -= 2.*M_PI;] *)
Fixpoint while_above (fuel : nat) (phi : R) : outcome R :=
  if phi >=? m_phimax then
    match fuel with
    | O => OutOfFuel
    | S fuel' => while_above fuel' (phi - 2 * PI)
    end
  else Done phi.

(** The two loops one after the other, as they stand at all three places. *)
Definition wrap_phi (fuel : nat) (phi : R) : outcome R :=
  phi1 <- while_below fuel phi ;; while_above fuel phi1.

(** *** get_cell_index

    The grid dimensions and the flattening of a bin triple belong to
    [TpcSpaceChargeMatrixContainer], whose source is not part of the
    translated files: they are parameters. *)

Section CellIndex.

Variables phibins rbins zbins : Z.
Variable container_get_cell_index : Z -> Z -> Z -> Z.

(** The body of [get_cell_index] up to the call of the container: [None]
    is one of the two [return -1]. *)
Definition cell_bins (fuel : nat) (global : TVector3) : outcome (option (Z * Z * Z)) :=
  phi <- wrap_phi fuel (atan2 (vy global) (vx global)) ;;
  let iphi := trunc (IZR phibins * (phi - m_phimin) / (m_phimax - m_phimin)) in
  let r := get_r (vx global) (vy global) in
  if (r <? m_rmin) || (r >=? m_rmax) then Done None
  else
    let ir := trunc (IZR rbins * (r - m_rmin) / (m_rmax - m_rmin)) in
    let z := vz global in
    if (z <? m_zmin) || (z >=? m_zmax) then Done None
    else
      let iz := trunc (IZR zbins * (z - m_zmin) / (m_zmax - m_zmin)) in
      Done (Some (iphi, ir, iz)).

Definition get_cell_index (fuel : nat) (global : TVector3) : outcome Z :=
  b <- cell_bins fuel global ;;
  match b with
  | None => Done (-1)%Z
  | Some (iphi, ir, iz) => Done (container_get_cell_index iphi ir iz)
  end.

End CellIndex.

(** *** Locate *)

Definition Angle_Bins : list R :=
  [23 * PI / 12; 1 * PI / 12; 3 * PI / 12; 5 * PI / 12; 7 * PI / 12;
   9 * PI / 12; 11 * PI / 12; 13 * PI / 12; 15 * PI / 12; 17 * PI / 12;
   19 * PI / 12; 21 * PI / 12; 23 * PI / 12].

Definition r_bins : list R := [30; 46; 62; 78].

(** A [for] loop over [iters] that assigns and breaks at the first index
    where [test] holds, and leaves the default otherwise. *)
Fixpoint first_match (test : nat -> bool) (found : nat -> Z) (iters : list nat)
    (default : Z) : Z :=
  match iters with
  | [] => default
  | i :: rest => if test i then found i else first_match test found rest default
  end.

Definition Locate (r phi z : R) : Z :=
  let r_id :=
    first_match
      (fun r_iter => (r >? nth r_iter r_bins 0) && (r <? nth (r_iter + 1) r_bins 0))
      (fun r_iter => (Z.of_nat r_iter + 1)%Z) (seq 0 3) 0%Z in
  let angle_id :=
    first_match
      (fun ang_iter =>
         (phi >? nth ang_iter Angle_Bins 0) && (phi <? nth (ang_iter + 1) Angle_Bins 0))
      (fun ang_iter => Z.of_nat ang_iter) (seq 0 12) 0%Z in
  let side_id := if z <? 0 then 1%Z else 0%Z in
  (36 * side_id + 3 * angle_id + r_id)%Z.

(** *** process_track

    The collaborators of the laser reconstruction: the layer geometry of
    [PHG4TpcCylinderGeomContainer], the hits of [TrkrHitSetContainer], the
    track of [SvtxTrackMap].  Only what [process_track] reads is kept.
    Histogram and ntuple fills are left out. *)

Record PHG4TpcCylinderGeom : Type := mkLayerGeom {
  get_radius : R;
  get_thickness : R;
  get_zbins : Z;
  get_phicenter : Z -> R;
  get_zcenter : Z -> R
}.

(** One hit of a hit set: pad and time bin of its key, and its ADC value. *)
Record TrkrHit : Type := mkTrkrHit { getPad : Z; getTBin : Z; getAdc : Z }.

(** One hit set: side and layer of its key, and its hits in key order. *)
Record TrkrHitSet : Type := mkTrkrHitSet {
  getSide : Z;
  getLayer : nat;
  getHits : list TrkrHit
}.

(** Position and direction of a laser track. *)
Record LaserTrack : Type := mkLaserTrack {
  get_x : R; get_y : R; get_z : R;
  get_px : R; get_py : R; get_pz : R
}.

(** [SvtxTrackState_v1]: path length, position, momentum. *)
Record SvtxTrackState : Type := mkTrackState {
  state_pathlength : R;
  state_pos : TVector3;
  state_mom : TVector3
}.

(** What one accepted cluster adds to [TpcSpaceChargeMatrixContainer]: the
    cell, the nine [add_to_lhs] values row by row, the three [add_to_rhs]
    values; [add_to_entries] adds one to the cell. *)
Record MatrixEntry : Type := mkMatrixEntry {
  entry_cell : Z;
  entry_lhs : list R;
  entry_rhs : list R
}.

(** The members of the module that [process_track] changes, and the states
    inserted into tracks. *)
Record Reco : Type := mkReco {
  m_total_hits : Z;
  m_matched_hits : Z;
  m_accepted_clusters : Z;
  m_matrix_container : list MatrixEntry;
  inserted_states : list SvtxTrackState
}.

(** [std::set<unsigned int>::insert]: a strictly increasing list. *)
Fixpoint set_insert (layer : nat) (s : list nat) : list nat :=
  match s with
  | [] => [layer]
  | l :: rest =>
      if (layer <? l)%nat then layer :: s
      else if (layer =? l)%nat then s
      else l :: set_insert layer rest
  end.

(** [std::multimap::equal_range]: the entries of one key, in the order of
    their insertion. *)
Definition equal_range {V : Type} (m : list (nat * V)) (layer : nat) : list V :=
  map snd (filter (fun kv => (fst kv =? layer)%nat) m).

(** [arr[i]++] on a C array: outside the array the behaviour is undefined. *)
Fixpoint incr_nth (arr : list Z) (i : nat) : list Z :=
  match arr, i with
  | [], _ => []
  | v :: rest, O => (v + 1)%Z :: rest
  | v :: rest, S i' => v :: incr_nth rest i'
  end.

Definition array_incr (arr : list Z) (i : Z) : outcome (list Z) :=
  if ((0 <=? i)%Z && (i <? Z.of_nat (length arr))%Z)%bool
  then Done (incr_nth arr (Z.to_nat i))
  else Undefined.

(** A [for] loop whose body may fail. *)
Fixpoint for_each {A S : Type} (body : A -> S -> outcome S) (items : list A) (s : S)
    : outcome S :=
  match items with
  | [] => Done s
  | item :: rest => s' <- body item s ;; for_each body rest s'
  end.

Section ProcessTrack.

Variable GetLayerCellGeom : nat -> PHG4TpcCylinderGeom.
Variable get_drift_velocity : R.
Variables m_max_dca m_max_zrange m_pedestal : R.
Variables phibins rbins zbins : Z.
Variable container_get_cell_index : Z -> Z -> Z -> Z.

(** [std::isnan].  No real number is not-a-number; what the test answers on
    the quotients [talpha] and [tbeta] when a divisor is zero is left open. *)
Variable isnan : R -> bool.

(** The locals of the loop over hits. *)
Record HitLoop : Type := mkHitLoop {
  hl_reco : Reco;
  GEM_Mod_Arr : list Z;
  cluspos_map : list (nat * (R * TVector3));
  layer_bin_set : list nat
}.

Definition AdcClockPeriod : R := 53.0.

(** The body of the inner loop over the hits of one hit set. *)
Definition process_hit (fuel : nat) (origin direction : TVector3) (side : Z)
    (layer : nat) (hit : TrkrHit) (s : HitLoop) : outcome HitLoop :=
  let layergeom := GetLayerCellGeom layer in
  let layer_center_radius := get_radius layergeom in
  let NTBins := (get_zbins layergeom mod 65536)%Z in
  let tdriftmax := AdcClockPeriod * IZR NTBins / 2.0 in
  let reco := hl_reco s in
  let reco := mkReco (m_total_hits reco + 1) (m_matched_hits reco)
                (m_accepted_clusters reco) (m_matrix_container reco)
                (inserted_states reco) in
  let phibin := getPad hit in
  let zbin := getTBin hit in
  let phi := get_phicenter layergeom phibin in
  let x := layer_center_radius * cos phi in
  let y := layer_center_radius * sin phi in
  let zdriftlength := get_zcenter layergeom zbin * get_drift_velocity in
  let z := tdriftmax * get_drift_velocity - zdriftlength in
  let z := if (side =? 0)%Z then z * -1 else z in
  let global := mkTVector3 x y z in
  let adc := IZR (getAdc hit) - m_pedestal in
  let oc := mkTVector3 (vx global - vx origin) (vy global - vy origin)
              (vz global - vz origin) in
  let t := Dot direction oc / square (Mag direction) in
  let om := vscale direction t in
  let dca := Mag (vsub oc om) in
  if dca >? m_max_dca
  then Done (mkHitLoop reco (GEM_Mod_Arr s) (cluspos_map s) (layer_bin_set s))
  else
    let reco := mkReco (m_total_hits reco) (m_matched_hits reco + 1)
                  (m_accepted_clusters reco) (m_matrix_container reco)
                  (inserted_states reco) in
    let r2 := sqrt (x * x + y * y) in
    let z2 := z in
    phi2 <- wrap_phi fuel phi ;;
    let locateid := Locate r2 phi2 z2 in
    arr <- (if (z2 >? m_zmin) || (z2 <? m_zmax)
            then array_incr (GEM_Mod_Arr s) (locateid - 1)
            else Done (GEM_Mod_Arr s)) ;;
    Done (mkHitLoop reco arr
            (cluspos_map s ++ [(layer, (adc, global))])
            (set_insert layer (layer_bin_set s))).

(** The loop over the hit sets of the TPC and their hits. *)
Definition hit_loop (fuel : nat) (origin direction : TVector3)
    (hitsets : list TrkrHitSet) (s : HitLoop) : outcome HitLoop :=
  for_each
    (fun hitset s =>
       for_each (process_hit fuel origin direction (getSide hitset) (getLayer hitset))
         (getHits hitset) s)
    hitsets s.

(** The locals of the loop over the associated hits of one layer. *)
Record Centroid : Type := mkCentroid {
  clus_centroid : TVector3;
  wt : R;
  zmin : R;
  zmax : R
}.

Definition centroid_step (projection : TVector3) (c : Centroid)
    (entry : R * TVector3) : Centroid :=
  let adc := fst entry in
  let cluspos := snd entry in
  if Rabs (vz cluspos - vz projection) >? m_max_zrange then c
  else
    mkCentroid (vadd (clus_centroid c) (vscale cluspos adc)) (wt c + adc)
      (if vz cluspos <? zmin c then vz cluspos else zmin c)
      (if vz cluspos >? zmax c then vz cluspos else zmax c).

(** The body of the loop over [layer_bin_set].  Each [Done reco] that does
    not come from the last line is a [continue]. *)
Definition process_layer (fuel : nat) (origin direction : TVector3)
    (cluspos_map : list (nat * (R * TVector3))) (layer : nat) (reco : Reco)
    : outcome Reco :=
  let layergeom := GetLayerCellGeom layer in
  let layer_center_radius := get_radius layergeom in
  let layer_inner_radius := layer_center_radius - get_thickness layergeom / 2.0 in
  let layer_outer_radius := layer_center_radius + get_thickness layergeom / 2.0 in
  let tupdn := line_circle_intersection origin direction layer_outer_radius in
  if (fst tupdn <=? 0) && (snd tupdn <=? 0) then Done reco
  else
  let tupdn := line_circle_intersection origin direction layer_inner_radius in
  if (fst tupdn <=? 0) && (snd tupdn <=? 0) then Done reco
  else
  let tupdn := line_circle_intersection origin direction layer_center_radius in
  let tup := fst tupdn in
  let tdn := snd tupdn in
  let t := if (tdn >? 0) && (tdn <? tup) then tdn else tup in
  if t <? 0 then Done reco
  else
  let om := vscale direction t in
  let projection := vadd origin om in
  let c := fold_left (centroid_step projection) (equal_range cluspos_map layer)
             (mkCentroid (mkTVector3 0 0 0) 0 999 (-999)) in
  let clus_centroid := mkTVector3 (vx (clus_centroid c) / wt c)
                         (vy (clus_centroid c) / wt c)
                         (vz (clus_centroid c) / wt c) in
  let zrange := zmax c - zmin c in
  if zrange >? m_max_zrange then Done reco
  else
  let pathlength := Mag om in
  let ns_per_cm := 1e9 / 3e10 in
  let dt := pathlength * ns_per_cm in
  let transit_dz := dt * get_drift_velocity in
  let clus_centroid :=
    if vz origin >? 0
    then mkTVector3 (vx clus_centroid) (vy clus_centroid) (vz clus_centroid + transit_dz)
    else mkTVector3 (vx clus_centroid) (vy clus_centroid) (vz clus_centroid - transit_dz) in
  let state := mkTrackState pathlength projection direction in
  let reco := mkReco (m_total_hits reco) (m_matched_hits reco)
                (m_accepted_clusters reco) (m_matrix_container reco)
                (inserted_states reco ++ [state]) in
  let cluster_r := get_r (vx clus_centroid) (vy clus_centroid) in
  let cluster_phi := atan2 (vy clus_centroid) (vx clus_centroid) in
  let cluster_z := vz clus_centroid in
  let cluster_rphi_error := 0.015 in
  let cluster_z_error := 0.075 in
  let track_phi := atan2 (vy projection) (vx projection) in
  let track_z := vz projection in
  let cosphi := cos track_phi in
  let sinphi := sin track_phi in
  let track_pphi := - vx (state_mom state) * sinphi + vy (state_mom state) * cosphi in
  let track_pr := vx (state_mom state) * cosphi + vy (state_mom state) * sinphi in
  let track_pz := vz (state_mom state) in
  let talpha := - track_pphi / track_pr in
  let tbeta := - track_pz / track_pr in
  if isnan talpha then Done reco
  else if isnan tbeta then Done reco
  else
  let drp := cluster_r * delta_phi (cluster_phi - track_phi) in
  let dz := cluster_z - track_z in
  if isnan drp then Done reco
  else if isnan dz then Done reco
  else
  let erp := square cluster_rphi_error in
  let ez := square cluster_z_error in
  if isnan erp then Done reco
  else if isnan ez then Done reco
  else
  i <- get_cell_index phibins rbins zbins container_get_cell_index fuel clus_centroid ;;
  if (i <? 0)%Z then Done reco
  else
    let entry :=
      mkMatrixEntry i
        [1 / erp; 0; talpha / erp;
         0; 1 / ez; tbeta / ez;
         talpha / erp; tbeta / ez; square talpha / erp + square tbeta / ez]
        [drp / erp; dz / ez; talpha * drp / erp + tbeta * dz / ez] in
    Done (mkReco (m_total_hits reco) (m_matched_hits reco)
            (m_accepted_clusters reco + 1)
            (m_matrix_container reco ++ [entry])
            (inserted_states reco)).

Definition process_track (fuel : nat) (hitsets : list TrkrHitSet)
    (track : LaserTrack) (reco : Reco) : outcome Reco :=
  let origin := mkTVector3 (get_x track) (get_y track) (get_z track) in
  let direction := mkTVector3 (get_px track) (get_py track) (get_pz track) in
  s <- hit_loop fuel origin direction hitsets
         (mkHitLoop reco (repeat 0%Z 72) [] []) ;;
  for_each (process_layer fuel origin direction (cluspos_map s))
    (layer_bin_set s) (hl_reco s).

(** [process_tracks], over the tracks of the track map in key order. *)
Definition process_tracks (fuel : nat) (hitsets : list TrkrHitSet)
    (tracks : list LaserTrack) (reco : Reco) : outcome Reco :=
  for_each (process_track fuel hitsets) tracks reco.

(** One event: the hit sets of the TPC and the laser tracks. *)
Definition Event : Type := (list TrkrHitSet * list LaserTrack)%type.

Definition process_event (fuel : nat) (event : Event) (reco : Reco) : outcome Reco :=
  process_tracks fuel (fst event) (snd event) reco.

(** [Init] zeroes the three counters. *)
Definition Init (reco : Reco) : Reco :=
  mkReco 0 0 0 (m_matrix_container reco) (inserted_states reco).

(** A run: [Init], then [process_event] on every event. *)
Definition run (fuel : nat) (events : list Event) (reco : Reco) : outcome Reco :=
  for_each (process_event fuel) events (Init reco).

End ProcessTrack.

End TpcDirectLaserReconstruction.

(** ** SecondaryVertexFinder.cc *)

(** Eigen's [Vector2d] and [Vector3d]: [v2_0 v] is [v(0)]. *)
Record Vector2d : Type := mkVector2d { v2_0 : R; v2_1 : R }.
Record Vector3d : Type := mkVector3d { v3_0 : R; v3_1 : R; v3_2 : R }.

Definition norm2d (v : Vector2d) : R := sqrt (v2_0 v * v2_0 v + v2_1 v * v2_1 v).
Definition add2d (a b : Vector2d) : Vector2d := mkVector2d (v2_0 a + v2_0 b) (v2_1 a + v2_1 b).
Definition sub2d (a b : Vector2d) : Vector2d := mkVector2d (v2_0 a - v2_0 b) (v2_1 a - v2_1 b).
Definition scale2d (a : Vector2d) (t : R) : Vector2d := mkVector2d (v2_0 a * t) (v2_1 a * t).
Definition div2d (a : Vector2d) (t : R) : Vector2d := mkVector2d (v2_0 a / t) (v2_1 a / t).

Definition dot (a b : Vector3d) : R := v3_0 a * v3_0 b + v3_1 a * v3_1 b + v3_2 a * v3_2 b.
Definition norm (a : Vector3d) : R := sqrt (dot a a).
Definition cross (a b : Vector3d) : Vector3d :=
  mkVector3d (v3_1 a * v3_2 b - v3_2 a * v3_1 b)
             (v3_2 a * v3_0 b - v3_0 a * v3_2 b)
             (v3_0 a * v3_1 b - v3_1 a * v3_0 b).
Definition add3d (a b : Vector3d) : Vector3d :=
  mkVector3d (v3_0 a + v3_0 b) (v3_1 a + v3_1 b) (v3_2 a + v3_2 b).
Definition sub3d (a b : Vector3d) : Vector3d :=
  mkVector3d (v3_0 a - v3_0 b) (v3_1 a - v3_1 b) (v3_2 a - v3_2 b).
Definition scale3d (t : R) (a : Vector3d) : Vector3d :=
  mkVector3d (t * v3_0 a) (t * v3_1 a) (t * v3_2 a).
Definition div3d (a : Vector3d) (t : R) : Vector3d :=
  mkVector3d (v3_0 a / t) (v3_1 a / t) (v3_2 a / t).

(** A [float] that may be not-a-number. *)
Inductive float_nan : Type :=
| NaN
| Num (v : R).

(** [!x]: true for zero only; not-a-number converts to [true]. *)
Definition float_not (f : float_nan) : bool :=
  match f with
  | NaN => false
  | Num v => v =? 0
  end.

(** [fabs(x) < cut]: every comparison with not-a-number is false. *)
Definition fabs_lt (f : float_nan) (cut : R) : bool :=
  match f with
  | NaN => false
  | Num v => Rabs v <? cut
  end.

(** *** Computations that record their divisors

    The two closest-approach routines are written with a division that
    records its divisor, so that a statement can say which divisions a path
    of the code performs.  The value is the first component, the divisors in
    the order of the statements the second. *)

Definition Div (A : Type) : Type := (A * list R)%type.

Definition dret {A : Type} (a : A) : Div A := (a, []).

Definition dbind {A B : Type} (m : Div A) (k : A -> Div B) : Div B :=
  (fst (k (fst m)), snd m ++ snd (k (fst m))).

Definition ddiv (a b : R) : Div R := (a / b, [b]).

Definition value {A : Type} (m : Div A) : A := fst m.
Definition divisors {A : Type} (m : Div A) : list R := snd m.

Notation "x <~ m ;; k" := (dbind m (fun x => k))
  (at level 61, m at next level, right associativity).

Module SecondaryVertexFinder.

(** *** findPcaTwoLines and dcaTwoLines

    [PCA1] and [PCA2] are reference parameters: their values at the call
    come in, their values at the return go out with [dca]. *)

Definition findPcaTwoLines (pos1 mom1 pos2 mom2 : Vector3d) (PCA1 PCA2 : Vector3d)
    : Div (R * Vector3d * Vector3d) :=
  let a1 := mkVector3d (v3_0 pos1) (v3_1 pos1) (v3_2 pos1) in
  b1x <~ ddiv (v3_0 mom1) (norm mom1) ;;
  b1y <~ ddiv (v3_1 mom1) (norm mom1) ;;
  b1z <~ ddiv (v3_2 mom1) (norm mom1) ;;
  let b1 := mkVector3d b1x b1y b1z in
  let a2 := mkVector3d (v3_0 pos2) (v3_1 pos2) (v3_2 pos2) in
  b2x <~ ddiv (v3_0 mom2) (norm mom2) ;;
  b2y <~ ddiv (v3_1 mom2) (norm mom2) ;;
  b2z <~ ddiv (v3_2 mom2) (norm mom2) ;;
  let b2 := mkVector3d b2x b2y b2z in
  let bcrossb := cross b1 b2 in
  let mag_bcrossb := norm bcrossb in
  let aminusa := sub3d a2 a1 in
  let dca := 999 in
  if negb (mag_bcrossb =? 0) then
    dca <~ ddiv (dot bcrossb aminusa) mag_bcrossb ;;
    q <~ ddiv (dot b1 b1 * dot b2 b2) (dot b2 b1) ;;
    let X := dot b1 b2 - q in
    q <~ ddiv ((dot a2 b1 - dot a1 b1) * dot b2 b2) (dot b2 b1) ;;
    let Y := (dot a2 b2 - dot a1 b2) - q in
    c <~ ddiv Y X ;;
    F <~ ddiv (dot b1 b1) (dot b2 b1) ;;
    G <~ ddiv (- (dot a2 b1 - dot a1 b1)) (dot b2 b1) ;;
    let d := c * F + G in
    dret (dca, add3d a1 (scale3d c b1), add3d a2 (scale3d d b2))
  else
    dret (dca, PCA1, PCA2).

Definition dcaTwoLines (a1 b1 a2 b2 : Vector3d) (PCA1 PCA2 : Vector3d)
    : Div (R * Vector3d * Vector3d) :=
  let bcrossb := cross b1 b2 in
  let mag_bcrossb := norm bcrossb in
  let aminusa := sub3d a2 a1 in
  let dca := 999 in
  if negb (mag_bcrossb =? 0) then
    dca <~ ddiv (dot bcrossb aminusa) mag_bcrossb ;;
    q <~ ddiv (dot b1 b1 * dot b2 b2) (dot b2 b1) ;;
    let X := dot b1 b2 - q in
    q <~ ddiv ((dot a2 b1 - dot a1 b1) * dot b2 b2) (dot b2 b1) ;;
    let Y := (dot a2 b2 - dot a1 b2) - q in
    c <~ ddiv Y X ;;
    F <~ ddiv (dot b1 b1) (dot b2 b1) ;;
    G <~ ddiv (- (dot a2 b1 - dot a1 b1)) (dot b2 b1) ;;
    let d := c * F + G in
    dret (dca, add3d a1 (scale3d c b1), add3d a2 (scale3d d b2))
  else
    dret (dca, PCA1, PCA2).

(** *** circle_circle_intersection

    [intersectionXY] is the vector the coordinates are pushed onto. *)

Definition circle_circle_intersection (r0 x0 y0 r1 x1 y1 : R) (intersectionXY : list R)
    : bool * list R :=
  let ret := true in
  let p0 := mkVector2d x0 y0 in
  let p1 := mkVector2d x1 y1 in
  let d := norm2d (sub2d p0 p1) in
  if d <? Rabs (r1 - r0) then (false, intersectionXY)
  else if d >? r0 + r1 then
    let dr := 0.2 in
    if Rabs (d - (r0 + r1)) <? dr then
      let u0 := sub2d p1 p0 in
      let u0 := div2d u0 (norm2d u0) in
      let PCA0 := add2d p0 (scale2d u0 r0) in
      let u1 := sub2d p0 p1 in
      let u1 := div2d u1 (norm2d u1) in
      let PCA1 := add2d p1 (scale2d u1 r1) in
      let PCA := div2d (add2d PCA0 PCA1) 2.0 in
      (ret, intersectionXY ++ [v2_0 PCA; v2_1 PCA])
    else (false, intersectionXY)
  else
    let a := (r0 * r0 - r1 * r1 + d * d) / (2 * d) in
    let h := sqrt (r0 * r0 - a * a) in
    let x2 := x0 + a * (x1 - x0) / d in
    let y2 := y0 + a * (y1 - y0) / d in
    let x3a := x2 + h * (y1 - y0) / d in
    let y3a := y2 - h * (x1 - x0) / d in
    let x3b := x2 - h * (y1 - y0) / d in
    let y3b := y2 + h * (x1 - x0) / d in
    (ret, intersectionXY ++ [x3a; y3a; x3b; y3b]).

(** *** The collaborators of the vertex finder *)

(** A [TrackSeed]: a name for the collaborators and the number of its
    cluster keys. *)
Record TrackSeed : Type := mkTrackSeed { seed_id : nat; size_cluster_keys : Z }.

Record SvtxTrack : Type := mkSvtxTrack {
  get_id : nat;
  get_x : R; get_y : R; get_z : R;
  get_px : R; get_py : R; get_pz : R;
  get_charge : Z;
  get_quality : R;
  get_vertex_id : nat;
  get_silicon_seed : option TrackSeed;
  get_tpc_seed : TrackSeed
}.

Record SvtxVertex : Type := mkSvtxVertex {
  vertex_x : R; vertex_y : R; vertex_z : R;
  size_tracks : nat
}.

(** What [fillNtp] writes: its arguments and the vertex of the first track. *)
Record NtpRow : Type := mkNtpRow {
  row_track1 : SvtxTrack;
  row_track2 : SvtxTrack;
  row_dca3dxy1 : float_nan;
  row_dca3dz1 : float_nan;
  row_dca3dxy2 : float_nan;
  row_dca3dz2 : float_nan;
  row_pca_rel1 : Vector3d;
  row_pca_rel2 : Vector3d;
  row_pair_dca : R;
  row_invariantMass : R;
  row_invariantPt : R;
  row_path : R;
  row_has_silicon_1 : Z;
  row_has_silicon_2 : Z;
  row_vertex : SvtxVertex
}.

(** The two sinks of a track-pair candidate. *)
Inductive Output : Type :=
| recomass_Fill (pt mass : R)
| ntp_Fill (row : NtpRow).

(** [TLorentzVector]: [SetPxPyPzE], [operator+], [M] and [Pt] of ROOT. *)
Record TLorentzVector : Type := mkTLorentzVector { Px : R; Py : R; Pz : R; E : R }.

Definition lv_add (a b : TLorentzVector) : TLorentzVector :=
  mkTLorentzVector (Px a + Px b) (Py a + Py b) (Pz a + Pz b) (E a + E b).

Definition lv_M (v : TLorentzVector) : R :=
  let mm := E v * E v - (Px v * Px v + Py v * Py v + Pz v * Pz v) in
  if mm <? 0 then - sqrt (- mm) else sqrt mm.

Definition lv_Pt (v : TLorentzVector) : R := sqrt (Px v * Px v + Py v * Py v).

(** [pow(x, 2)]. *)
Definition pow2 (v : R) : R := v * v.

(** [TrkrDefs::inttId]. *)
Definition inttId : nat := 1.

Section Finder.

(** [_svtx_vertex_map->get]: [None] is the null pointer. *)
Variable svtx_vertex_map_get : nat -> option SvtxVertex.

(** [getTrackletClusters]: the corrected global positions of the clusters of
    a seed, each with the detector of its cluster key. *)
Variable getTrackletClusters : TrackSeed -> list (Vector3d * nat).

(** [TrackFitUtils::circle_fit_by_taubin], giving [(R, X0, Y0)], and
    [TrackFitUtils::line_fit]. *)
Variable circle_fit_by_taubin : list Vector3d -> R * R * R.
Variable line_fit : list Vector3d -> R * R.

(** The propagation of a track to a cylinder by Acts, in [cm]: [None] when
    [propagateTrack] fails. *)
Variable projectTrackToCylinder : SvtxTrack -> R -> option (Vector3d * Vector3d).

Variable Verbosity : Z.

(** The settings of the module. *)
Variable _require_mvtx : bool.
Variables _qual_cut _track_dcaxy_cut _track_dcaz_cut : R.
Variables _max_intersection_radius _projected_track_z_cut : R.
Variables _two_track_dcacut _min_path_cut decaymass : R.

Definition hasSiliconSeed (tr : SvtxTrack) : bool :=
  match get_silicon_seed tr with
  | Some _ => true
  | None => false
  end.

(** A [return fitpars] of the two first tests stands under
    [if(Verbosity() > 0)]. *)
Definition fitClusters (tracklet : TrackSeed) : list R :=
  let clusters := getTrackletClusters tracklet in
  let global_vec := map fst clusters in
  if ((length global_vec <? 3)%nat && (Verbosity >? 0)%Z)%bool then []
  else
    let circle_fit_pars := circle_fit_by_taubin global_vec in
    let global_vec_noINTT :=
      map fst (filter (fun c => negb (snd c =? inttId)%nat) clusters) in
    if ((length global_vec_noINTT <? 3)%nat && (Verbosity >? 0)%Z)%bool then []
    else
      let line_fit_pars := line_fit global_vec_noINTT in
      [fst (fst circle_fit_pars); snd (fst circle_fit_pars); snd circle_fit_pars;
       fst line_fit_pars; snd line_fit_pars].

(** [intersect1] and [intersect2] are reference parameters. *)
Definition findTwoTrackIntersection (track1 track2 : SvtxTrack)
    (intersect1 intersect2 : Vector2d) : bool * Vector2d * Vector2d :=
  let ret := true in
  let tr1 := get_tpc_seed track1 in
  let tr2 := get_tpc_seed track2 in
  let circle_fitpars1 := fitClusters tr1 in
  if (length circle_fitpars1 =? 0)%nat then (false, intersect1, intersect2)
  else
    let circle_fitpars2 := fitClusters tr2 in
    if (length circle_fitpars2 =? 0)%nat then (false, intersect1, intersect2)
    else
      let '(found, intersections) :=
        circle_circle_intersection
          (nth 0 circle_fitpars1 0) (nth 1 circle_fitpars1 0) (nth 2 circle_fitpars1 0)
          (nth 0 circle_fitpars2 0) (nth 1 circle_fitpars2 0) (nth 2 circle_fitpars2 0)
          [] in
      if negb found then (false, intersect1, intersect2)
      else
        let intersect1 := mkVector2d (nth 0 intersections 0) (nth 1 intersections 0) in
        let intersect2 :=
          if (length intersections =? 4)%nat
          then mkVector2d (nth 2 intersections 0) (nth 3 intersections 0)
          else intersect2 in
        (ret, intersect1, intersect2).

(** [dca3dxy] and [dca3dz] are reference parameters, here with the values
    they have at the call.  The two sigma outputs, which no caller reads,
    are left out. *)
Definition get_dca (track : SvtxTrack) (dca3dxy dca3dz : float_nan)
    : float_nan * float_nan :=
  let dca3dxy := NaN in
  let pos := mkVector3d (get_x track) (get_y track) (get_z track) in
  let mom := mkVector3d (get_px track) (get_py track) (get_pz track) in
  let vtxid := get_vertex_id track in
  match svtx_vertex_map_get vtxid with
  | None => (dca3dxy, dca3dz)
  | Some svtxVertex =>
      let vertex := mkVector3d (vertex_x svtxVertex) (vertex_y svtxVertex)
                      (vertex_z svtxVertex) in
      let pos := sub3d pos vertex in
      let r := cross mom (mkVector3d 0 0 1) in
      let phi := atan2 (v3_1 r) (v3_0 r) in
      let pos_R := mkVector3d (cos phi * v3_0 pos + - sin phi * v3_1 pos + 0 * v3_2 pos)
                     (sin phi * v3_0 pos + cos phi * v3_1 pos + 0 * v3_2 pos)
                     (0 * v3_0 pos + 0 * v3_1 pos + 1 * v3_2 pos) in
      (Num (v3_0 pos_R), Num (v3_2 pos_R))
  end.

(** The body of the loop over the two intersections. *)
Definition process_intersection (tr1 tr2 : SvtxTrack)
    (dca3dxy1 dca3dz1 dca3dxy2 dca3dz2 : float_nan) (has_silicon_1 has_silicon_2 : Z)
    (intersection_i : Vector2d) : outcome (list Output) :=
  if norm2d intersection_i =? 0 then Done []
  else
    let vradius := sqrt (v2_0 intersection_i * v2_0 intersection_i
                         + v2_1 intersection_i * v2_1 intersection_i) in
    if vradius >? _max_intersection_radius then Done []
    else
      match projectTrackToCylinder tr1 vradius with
      | None => Done []
      | Some (vpos1, vmom1) =>
          match projectTrackToCylinder tr2 vradius with
          | None => Done []
          | Some (vpos2, vmom2) =>
              if Rabs (v3_2 vpos1 - v3_2 vpos2) >? _projected_track_z_cut then Done []
              else
                let '(pair_dca, PCA1, PCA2) :=
                  value (findPcaTwoLines vpos1 vmom1 vpos2 vmom2
                           (mkVector3d 0 0 0) (mkVector3d 0 0 0)) in
                if Rabs pair_dca >? _two_track_dcacut then Done []
                else
                  let E1 := sqrt (pow2 (v3_0 vmom1) + pow2 (v3_1 vmom1) + pow2 (v3_2 vmom1)
                                  + pow2 decaymass) in
                  let t1 := mkTLorentzVector (v3_0 vmom1) (v3_1 vmom1) (v3_2 vmom1) E1 in
                  let E2 := sqrt (pow2 (v3_0 vmom2) + pow2 (v3_1 vmom2) + pow2 (v3_2 vmom2)
                                  + pow2 decaymass) in
                  let t2 := mkTLorentzVector (v3_0 vmom2) (v3_1 vmom2) (v3_2 vmom2) E2 in
                  let tsum := lv_add t1 t2 in
                  let PCA := div3d (add3d PCA1 PCA2) 2.0 in
                  let vtxid := get_vertex_id tr1 in
                  match svtx_vertex_map_get vtxid with
                  | None => Undefined
                  | Some vertex1 =>
                      let VTX := mkVector3d (vertex_x vertex1) (vertex_y vertex1)
                                   (vertex_z vertex1) in
                      let path := sub3d PCA VTX in
                      if norm path >? _min_path_cut then
                        Done [recomass_Fill (lv_Pt tsum) (lv_M tsum);
                              ntp_Fill (mkNtpRow tr1 tr2 dca3dxy1 dca3dz1 dca3dxy2 dca3dz2
                                          PCA1 PCA2 pair_dca (lv_M tsum) (lv_Pt tsum)
                                          (norm path) has_silicon_1 has_silicon_2 vertex1)]
                      else Done []
                  end
          end
      end.

(** The part of the outer loop body before the inner loop: [Done None] is
    a [continue], [Done (Some (dca3dxy1, dca3dz1, has_silicon_1))] goes on.
    [uninit_xy] and [uninit_z] are the indeterminate values of the
    uninitialised locals [dca3dxy1] and [dca3dz1]. *)
Definition track1_cuts (tr1 : SvtxTrack) (uninit_xy uninit_z : float_nan)
    : outcome (option (float_nan * float_nan * Z)) :=
  let vertexId := get_vertex_id tr1 in
  match svtx_vertex_map_get vertexId with
  | None => Undefined
  | Some svtxVertex =>
      if (size_tracks svtxVertex =? 0)%nat then Done None
      else if (_require_mvtx && negb (hasSiliconSeed tr1))%bool then Done None
      else
        let has_silicon_1 := if hasSiliconSeed tr1 then 1%Z else 0%Z in
        if get_quality tr1 >? _qual_cut then Done None
        else
          let tpc_seed1 := get_tpc_seed tr1 in
          let ntpc1 := size_cluster_keys tpc_seed1 in
          if (ntpc1 <? 20)%Z then Done None
          else
            let '(dca3dxy1, dca3dz1) := get_dca tr1 uninit_xy uninit_z in
            if float_not dca3dxy1 then Done None
            else if fabs_lt dca3dxy1 _track_dcaxy_cut then Done None
            else if fabs_lt dca3dz1 _track_dcaz_cut then Done None
            else Done (Some (dca3dxy1, dca3dz1, has_silicon_1))
  end.

(** The body of the inner loop, for a first track that passed its cuts.
    [uninit_xy], [uninit_z], [uninit_1] and [uninit_2] are the indeterminate
    values of the uninitialised locals [dca3dxy2], [dca3dz2],
    [intersection[0]] and [intersection[1]]. *)
Definition process_pair (tr1 : SvtxTrack) (dca3dxy1 dca3dz1 : float_nan)
    (has_silicon_1 : Z) (tr2 : SvtxTrack) (uninit_xy uninit_z : float_nan)
    (uninit_1 uninit_2 : Vector2d) : outcome (list Output) :=
  if (_require_mvtx && negb (hasSiliconSeed tr2))%bool then Done []
  else
    let has_silicon_2 := if hasSiliconSeed tr2 then 1%Z else 0%Z in
    if (get_charge tr2 =? get_charge tr1)%Z then Done []
    else if get_quality tr2 >? _qual_cut then Done []
    else
      let tpc2_seed := get_tpc_seed tr2 in
      let ntpc2 := size_cluster_keys tpc2_seed in
      if (ntpc2 <? 20)%Z then Done []
      else
        let '(dca3dxy2, dca3dz2) := get_dca tr2 uninit_xy uninit_z in
        if float_not dca3dxy2 then Done []
        else if fabs_lt dca3dxy2 _track_dcaxy_cut then Done []
        else if fabs_lt dca3dz2 _track_dcaz_cut then Done []
        else
          let '(found, intersection_0, intersection_1) :=
            findTwoTrackIntersection tr1 tr2 uninit_1 uninit_2 in
          if negb found then Done []
          else
            out0 <- process_intersection tr1 tr2 dca3dxy1 dca3dz1 dca3dxy2 dca3dz2
                      has_silicon_1 has_silicon_2 intersection_0 ;;
            out1 <- process_intersection tr1 tr2 dca3dxy1 dca3dz1 dca3dxy2 dca3dz2
                      has_silicon_1 has_silicon_2 intersection_1 ;;
            Done (out0 ++ out1).

(** What [process_event] emits for the pair of a first track and a later
    track of the map. *)
Definition pair_outputs (tr1 tr2 : SvtxTrack) (uninit_xy uninit_z : float_nan)
    (uninit_1 uninit_2 : Vector2d) : outcome (list Output) :=
  cuts <- track1_cuts tr1 uninit_xy uninit_z ;;
  match cuts with
  | None => Done []
  | Some (dca3dxy1, dca3dz1, has_silicon_1) =>
      process_pair tr1 dca3dxy1 dca3dz1 has_silicon_1 tr2 uninit_xy uninit_z
        uninit_1 uninit_2
  end.

(** [process_event]: the tracks of the map in key order, each with the
    tracks after it. *)
Fixpoint process_event (tracks : list SvtxTrack) (uninit_xy uninit_z : float_nan)
    (uninit_1 uninit_2 : Vector2d) : outcome (list Output) :=
  match tracks with
  | [] => Done []
  | tr1 :: rest =>
      cuts <- track1_cuts tr1 uninit_xy uninit_z ;;
      out1 <- match cuts with
              | None => Done []
              | Some (dca3dxy1, dca3dz1, has_silicon_1) =>
                  fold_left
                    (fun acc tr2 =>
                       outs <- acc ;;
                       o <- process_pair tr1 dca3dxy1 dca3dz1 has_silicon_1 tr2
                              uninit_xy uninit_z uninit_1 uninit_2 ;;
                       Done (outs ++ o))
                    rest (Done [])
              end ;;
      out_rest <- process_event rest uninit_xy uninit_z uninit_1 uninit_2 ;;
      Done (out1 ++ out_rest)
  end.

End Finder.

(** *** findPcaRZ

    [PCA] is a reference parameter. *)

Definition findPcaRZ (tr1 tr2 : SvtxTrack) (PCA : Vector2d) : bool * Vector2d :=
  let pT1 := sqrt (get_px tr1 * get_px tr1 + get_py tr1 * get_py tr1) in
  let dzdr1 := get_pz tr1 / pT1 in
  let pT2 := sqrt (get_px tr2 * get_px tr2 + get_py tr2 * get_py tr2) in
  let dzdr2 := get_pz tr2 / pT2 in
  let z01 := get_z tr1 in
  let z02 := get_z tr2 in
  let r01 := sqrt (get_x tr1 * get_x tr1 + get_y tr1 * get_y tr1) in
  let r02 := sqrt (get_x tr2 * get_x tr2 + get_y tr2 * get_y tr2) in
  if dzdr1 =? dzdr2 then (false, PCA)
  else
    let rint := (r01 * dzdr1 - r02 * dzdr2 + z02 - z01) / (dzdr1 - dzdr2) in
    let zint := z01 + (rint - r01) * dzdr1 in
    if rint <? 0 then (false, PCA)
    else (true, mkVector2d rint zint).

(** *** findTwoTrackPCA

    [PCA1] and [PCA2] are reference parameters, and the two tracks are
    updated in place: all four go out with [dca]. *)

Section TwoTrackPCA.

Variable getTrackletClusters : TrackSeed -> list (Vector3d * nat).
Variable circle_fit_by_taubin : list Vector3d -> R * R * R.
Variable line_fit : list Vector3d -> R * R.
Variable Verbosity : Z.

(** [SvtxTrack::get_p]. *)
Variable get_p : SvtxTrack -> R.

(** [makeTrackParams] and the propagation of the track to the perigee
    surface at a point by Acts, giving the position in [cm]: [None] when
    the propagation fails. *)
Variable propagateTrack : SvtxTrack -> Vector3d -> option Vector3d.

(** [v[i]] on a [std::vector]: outside the vector the behaviour is
    undefined. *)
Definition vector_at (v : list R) (i : nat) : outcome R :=
  match nth_error v i with
  | Some x => Done x
  | None => Undefined
  end.

(** [updateSvtxTrack]: the position; the covariance is not kept. *)
Definition updateSvtxTrack (track : SvtxTrack) (position : Vector3d) : SvtxTrack :=
  mkSvtxTrack (get_id track) (v3_0 position) (v3_1 position) (v3_2 position)
    (get_px track) (get_py track) (get_pz track) (get_charge track) (get_quality track)
    (get_vertex_id track) (get_silicon_seed track) (get_tpc_seed track).

Definition findTwoTrackPCA (track1 track2 : SvtxTrack) (PCA1 PCA2 : Vector3d)
    : outcome (R * Vector3d * Vector3d * SvtxTrack * SvtxTrack) :=
  let dca := 999.0 in
  let tr1 := get_tpc_seed track1 in
  let tr2 := get_tpc_seed track2 in
  let circle_fitpars1 :=
    fitClusters getTrackletClusters circle_fit_by_taubin line_fit Verbosity tr1 in
  if (length circle_fitpars1 =? 0)%nat then Done (dca, PCA1, PCA2, track1, track2)
  else
    let circle_fitpars2 :=
      fitClusters getTrackletClusters circle_fit_by_taubin line_fit Verbosity tr2 in
    if (length circle_fitpars2 =? 0)%nat then Done (dca, PCA1, PCA2, track1, track2)
    else
      let '(found, intersections) :=
        circle_circle_intersection
          (nth 0 circle_fitpars1 0) (nth 1 circle_fitpars1 0) (nth 2 circle_fitpars1 0)
          (nth 0 circle_fitpars2 0) (nth 1 circle_fitpars2 0) (nth 2 circle_fitpars2 0)
          [] in
      if negb found then Done (dca, PCA1, PCA2, track1, track2)
      else
        x0 <- vector_at intersections 0 ;;
        y0 <- vector_at intersections 1 ;;
        x1 <- vector_at intersections 2 ;;
        y1 <- vector_at intersections 3 ;;
        let intersect :=
          if ((x0 - get_x track1) / get_px track1 >? 0)
             && ((y0 - get_y track1) / get_py track1 >? 0)
          then mkVector2d x0 y0
          else mkVector2d x1 y1 in
        let PCA1 := mkVector3d (v2_0 intersect) (v2_1 intersect) (v3_2 PCA1) in
        let track1 :=
          match propagateTrack track1 PCA1 with
          | Some position => updateSvtxTrack track1 position
          | None => track1
          end in
        let track2 :=
          match propagateTrack track2 PCA1 with
          | Some position => updateSvtxTrack track2 position
          | None => track2
          end in
        let a1 := mkVector3d (get_x track1) (get_y track1) (get_z track1) in
        let b1 := mkVector3d (get_px track1 / get_p track1) (get_py track1 / get_p track1)
                    (get_pz track1 / get_p track1) in
        let a2 := mkVector3d (get_x track2) (get_y track2) (get_z track2) in
        let b2 := mkVector3d (get_px track2 / get_p track2) (get_py track2 / get_p track2)
                    (get_pz track2 / get_p track2) in
        let '(dca, PCA1, PCA2) := value (dcaTwoLines a1 b1 a2 b2 PCA1 PCA2) in
        Done (dca, PCA1, PCA2, track1, track2).

End TwoTrackPCA.

End SecondaryVertexFinder.

(** * Statements of the specification

    The properties the specification states, as predicates over the
    definitions above. *)

Section LaserStatements.

Import TpcDirectLaserReconstruction.

(** [delta_phi] wraps one angle. *)
Definition delta_phi_wraps (phi : R) : Prop :=
  - PI <= delta_phi phi < PI /\ exists k : Z, delta_phi phi = phi + IZR k * (2 * PI).

(** The coefficients of the quadratic of [line_circle_intersection], as the
    code computes them. *)
Definition lci_A (d : TVector3) : R := square (vx d) + square (vy d).
Definition lci_B (p d : TVector3) : R := 2 * vx p * vx d + 2 * vy p * vy d.
Definition lci_C (p : TVector3) (radius : R) : R :=
  square (vx p) + square (vy p) - square radius.
Definition lci_delta (p d : TVector3) (radius : R) : R :=
  square (lci_B p d) - 4 * lci_A d * lci_C p radius.

Definition quadratic_root (p d : TVector3) (radius t : R) : Prop :=
  lci_A d * (t * t) + lci_B p d * t + lci_C p radius = 0.

(** The transverse point of parameter [t] is on the circle. *)
Definition on_circle (p d : TVector3) (radius t : R) : Prop :=
  square (vx p + t * vx d) + square (vy p + t * vy d) = square radius.

(** [line_circle_intersection] gives the sentinel pair or the two roots. *)
Definition lci_spec (p d : TVector3) (radius : R) : Prop :=
  (lci_delta p d radius < 0 -> line_circle_intersection p d radius = (-1, -1)) /\
  (0 <= lci_delta p d radius ->
   let (tup, tdn) := line_circle_intersection p d radius in
   quadratic_root p d radius tup /\ quadratic_root p d radius tdn /\
   (forall t, on_circle p d radius t <-> t = tup \/ t = tdn) /\
   (0 <= radius ->
    get_r (vx p + tup * vx d) (vy p + tup * vy d) = radius /\
    get_r (vx p + tdn * vx d) (vy p + tdn * vy d) = radius)).

End LaserStatements.

Section GridStatements.

Import TpcDirectLaserReconstruction.

Variables phibins rbins zbins : Z.
Variable container_get_cell_index : Z -> Z -> Z -> Z.

(** [get_cell_index]: the sentinel outside the radial and longitudinal
    ranges; inside them a bin triple handed to the container, whose
    azimuth was wrapped into [[0, 2 PI)], with bin 0 at each lower bound. *)
Definition cell_index_spec (fuel : nat) (global : TVector3) : Prop :=
  let r := get_r (vx global) (vy global) in
  let z := vz global in
  (r < 20 \/ 78 <= r \/ z < -105.5 \/ 105.5 <= z ->
   get_cell_index phibins rbins zbins container_get_cell_index fuel global
   = Done (-1)%Z) /\
  (20 <= r < 78 -> -105.5 <= z < 105.5 ->
   exists phi iphi ir iz,
     wrap_phi fuel (atan2 (vy global) (vx global)) = Done phi /\
     0 <= phi < 2 * PI /\
     cell_bins phibins rbins zbins fuel global = Done (Some (iphi, ir, iz)) /\
     get_cell_index phibins rbins zbins container_get_cell_index fuel global
     = Done (container_get_cell_index iphi ir iz) /\
     ((0 < phibins)%Z -> (0 <= iphi < phibins)%Z) /\
     ((0 < rbins)%Z -> (0 <= ir < rbins)%Z) /\
     ((0 < zbins)%Z -> (0 <= iz < zbins)%Z) /\
     (phi = 0 -> iphi = 0%Z) /\
     (r = 20 -> ir = 0%Z) /\
     (z = -105.5 -> iz = 0%Z)).

End GridStatements.

Section LocateStatements.

Import TpcDirectLaserReconstruction.

(** [Locate] names one of the 72 modules, so that [GEM_Mod_Arr[locateid-1]]
    is an element of the array. *)
Definition Locate_in_array (r phi z : R) : Prop :=
  (1 <= Locate r phi z <= 72)%Z /\ (0 <= Locate r phi z - 1 <= 71)%Z.

Definition Locate_spec (r phi z : R) : Prop :=
  20 <= r < 78 -> 0 <= phi < 2 * PI -> Locate_in_array r phi z.

End LocateStatements.

(** Strictly increasing lists, the shape of a [std::set]. *)
Inductive increasing : list nat -> Prop :=
| increasing_nil : increasing []
| increasing_cons (l : nat) (s : list nat) :
    (forall l', In l' s -> (l < l')%nat) -> increasing s -> increasing (l :: s).

Section CounterStatements.

Import TpcDirectLaserReconstruction.

Variable GetLayerCellGeom : nat -> PHG4TpcCylinderGeom.
Variable get_drift_velocity : R.
Variables m_max_dca m_max_zrange m_pedestal : R.
Variables phibins rbins zbins : Z.
Variable container_get_cell_index : Z -> Z -> Z -> Z.
Variable isnan : R -> bool.

(** The invariant of the three running counters. *)
Definition counters_ordered (reco : Reco) : Prop :=
  (m_accepted_clusters reco <= m_matched_hits reco <= m_total_hits reco)%Z.

(** The number of hits of the hit sets. *)
Definition count_hits (hitsets : list TrkrHitSet) : nat :=
  length (flat_map getHits hitsets).

(** What one call of [process_track] adds to the counters: every hit to
    [m_total_hits]; the hits it associated, which are the entries of
    [cluspos_map], to [m_matched_hits]; and to [m_accepted_clusters] the
    size of a duplicate-free list of layers, each with an associated hit. *)
Definition track_increments (fuel : nat) (hitsets : list TrkrHitSet)
    (track : LaserTrack) (reco reco' : Reco) : Prop :=
  exists s : HitLoop,
    hit_loop GetLayerCellGeom get_drift_velocity m_max_dca m_pedestal fuel
      (mkTVector3 (get_x track) (get_y track) (get_z track))
      (mkTVector3 (get_px track) (get_py track) (get_pz track))
      hitsets (mkHitLoop reco (repeat 0%Z 72) [] []) = Done s /\
    m_total_hits reco' = (m_total_hits reco + Z.of_nat (count_hits hitsets))%Z /\
    m_matched_hits reco' = (m_matched_hits reco + Z.of_nat (length (cluspos_map s)))%Z /\
    (length (cluspos_map s) <= count_hits hitsets)%nat /\
    NoDup (layer_bin_set s) /\
    (forall layer, In layer (layer_bin_set s) <-> equal_range (cluspos_map s) layer <> []) /\
    exists accepted : list nat,
      NoDup accepted /\ incl accepted (layer_bin_set s) /\
      m_accepted_clusters reco' =
      (m_accepted_clusters reco + Z.of_nat (length accepted))%Z /\
      length (m_matrix_container reco') =
      (length (m_matrix_container reco) + length accepted)%nat.

(** Every layer radius lies strictly inside one of the three rings of
    [Locate]. *)
Definition layers_inside_rings : Prop :=
  forall layer : nat,
    let r := get_radius (GetLayerCellGeom layer) in
    30 < r < 46 \/ 46 < r < 62 \/ 62 < r < 78.

(** C4 for a run of the module: with enough fuel the run does not stop for
    lack of it, the counters it leaves are ordered, every call of
    [process_track] on the way adds to them as [track_increments] says, and
    the run is defined when the layers are inside the rings. *)
Definition counters_spec (events : list Event) (reco : Reco) : Prop :=
  exists fuel0 : nat, forall fuel : nat, (fuel0 <= fuel)%nat ->
    run GetLayerCellGeom get_drift_velocity m_max_dca m_max_zrange m_pedestal
      phibins rbins zbins container_get_cell_index isnan fuel events reco
    <> OutOfFuel /\
    (forall reco',
       run GetLayerCellGeom get_drift_velocity m_max_dca m_max_zrange m_pedestal
         phibins rbins zbins container_get_cell_index isnan fuel events reco
       = Done reco' -> counters_ordered reco') /\
    (forall hitsets track reco1 reco2,
       process_track GetLayerCellGeom get_drift_velocity m_max_dca m_max_zrange
         m_pedestal phibins rbins zbins container_get_cell_index isnan fuel
         hitsets track reco1 = Done reco2 ->
       track_increments fuel hitsets track reco1 reco2 /\
       (counters_ordered reco1 -> counters_ordered reco2)) /\
    (layers_inside_rings ->
     exists reco',
       run GetLayerCellGeom get_drift_velocity m_max_dca m_max_zrange m_pedestal
         phibins rbins zbins container_get_cell_index isnan fuel events reco
       = Done reco').

End CounterStatements.

Section VertexStatements.

Import SecondaryVertexFinder.

(** The direction of a momentum, as [findPcaTwoLines] normalises it. *)
Definition unit_direction (mom : Vector3d) : Vector3d := div3d mom (norm mom).

(** The point of the circle of centre [c] and radius [r] that is nearest to
    [q], and the middle of two points. *)
Definition nearest_point (c : Vector2d) (r : R) (q : Vector2d) : Vector2d :=
  add2d c (scale2d (div2d (sub2d q c) (norm2d (sub2d q c))) r).

Definition midpoint (a b : Vector2d) : Vector2d := div2d (add2d a b) 2.

Definition dist2d (a b : Vector2d) : R := norm2d (sub2d a b).

(** The point [(x, y)] is on the circle of centre [(xc, yc)] and radius [r]. *)
Definition on_circle2d (r xc yc x y : R) : Prop :=
  (x - xc) * (x - xc) + (y - yc) * (y - yc) = r * r.

(** C1 as the specification states it: failure below [|r0 - r1|] and beyond
    the tolerance, one point within the tolerance of [r0 + r1], two points
    otherwise. *)
Definition cci_stated (r0 x0 y0 r1 x1 y1 : R) : Prop :=
  let d := dist2d (mkVector2d x0 y0) (mkVector2d x1 y1) in
  let result := circle_circle_intersection r0 x0 y0 r1 x1 y1 [] in
  (d < Rabs (r0 - r1) \/ d > r0 + r1 + 0.2 -> result = (false, [])) /\
  (~ (d < Rabs (r0 - r1) \/ d > r0 + r1 + 0.2) ->
   (Rabs (d - (r0 + r1)) < 0.2 ->
    fst result = true /\ length (snd result) = 2%nat) /\
   (~ Rabs (d - (r0 + r1)) < 0.2 ->
    fst result = true /\ length (snd result) = 4%nat)).

(** C1 as the code has it: the single point only when the circles are
    apart by less than the tolerance. *)
Definition cci_spec (r0 x0 y0 r1 x1 y1 : R) (intersectionXY : list R) : Prop :=
  let p0 := mkVector2d x0 y0 in
  let p1 := mkVector2d x1 y1 in
  let d := dist2d p0 p1 in
  let result := circle_circle_intersection r0 x0 y0 r1 x1 y1 intersectionXY in
  (d < Rabs (r0 - r1) \/ r0 + r1 + 0.2 <= d -> result = (false, intersectionXY)) /\
  (Rabs (r0 - r1) <= d -> r0 + r1 < d < r0 + r1 + 0.2 ->
   let PCA := midpoint (nearest_point p0 r0 p1) (nearest_point p1 r1 p0) in
   result = (true, intersectionXY ++ [v2_0 PCA; v2_1 PCA])) /\
  (Rabs (r0 - r1) <= d <= r0 + r1 ->
   exists xa ya xb yb,
     result = (true, intersectionXY ++ [xa; ya; xb; yb]) /\
     (0 < d ->
      on_circle2d r0 x0 y0 xa ya /\ on_circle2d r1 x1 y1 xa ya /\
      on_circle2d r0 x0 y0 xb yb /\ on_circle2d r1 x1 y1 xb yb)).

(** C2: on parallel directions both routines give the sentinel, leave the
    two points as they were, and have divided by nothing but the norms of
    the momenta. *)
Definition parallel_sentinel (pos1 mom1 pos2 mom2 PCA1 PCA2 : Vector3d) : Prop :=
  findPcaTwoLines pos1 mom1 pos2 mom2 PCA1 PCA2
  = ((999, PCA1, PCA2),
     [norm mom1; norm mom1; norm mom1; norm mom2; norm mom2; norm mom2]) /\
  dcaTwoLines pos1 mom1 pos2 mom2 PCA1 PCA2 = ((999, PCA1, PCA2), []).

End VertexStatements.

Section CutStatements.

Import SecondaryVertexFinder.

Variable svtx_vertex_map_get : nat -> option SvtxVertex.
Variable getTrackletClusters : TrackSeed -> list (Vector3d * nat).
Variable circle_fit_by_taubin : list Vector3d -> R * R * R.
Variable line_fit : list Vector3d -> R * R.
Variable projectTrackToCylinder : SvtxTrack -> R -> option (Vector3d * Vector3d).
Variable Verbosity : Z.
Variable _require_mvtx : bool.
Variables _qual_cut _track_dcaxy_cut _track_dcaz_cut : R.
Variables _max_intersection_radius _projected_track_z_cut : R.
Variables _two_track_dcacut _min_path_cut decaymass : R.

(** The transverse and longitudinal impact parameters of a track with
    respect to its vertex, as [get_dca] computes them; a track whose vertex
    is not in the map has none. *)
Definition impact_parameters (tr : SvtxTrack) : option (R * R) :=
  match get_dca svtx_vertex_map_get tr NaN NaN with
  | (Num dca3dxy, Num dca3dz) => Some (dca3dxy, dca3dz)
  | _ => None
  end.

Definition impact_parameters_reach (tr : SvtxTrack) : Prop :=
  exists dca3dxy dca3dz,
    impact_parameters tr = Some (dca3dxy, dca3dz) /\
    _track_dcaxy_cut <= Rabs dca3dxy /\ _track_dcaz_cut <= Rabs dca3dz.

(** The decay length of an ntuple row: from the average of its two points
    of closest approach to its vertex. *)
Definition decay_length (row : NtpRow) : R :=
  norm (sub3d (div3d (add3d (row_pca_rel1 row) (row_pca_rel2 row)) 2)
          (mkVector3d (vertex_x (row_vertex row)) (vertex_y (row_vertex row))
             (vertex_z (row_vertex row)))).

(** What C5 requires of the outputs [outs] emitted for a pair. *)
Definition candidate_cuts (tr1 tr2 : SvtxTrack) (outs : list Output) : Prop :=
  get_quality tr1 <= _qual_cut /\ get_quality tr2 <= _qual_cut /\
  (20 <= size_cluster_keys (get_tpc_seed tr1))%Z /\
  (20 <= size_cluster_keys (get_tpc_seed tr2))%Z /\
  get_charge tr2 <> get_charge tr1 /\
  (Z.abs (get_charge tr1) = 1%Z -> Z.abs (get_charge tr2) = 1%Z ->
   get_charge tr2 = (- get_charge tr1)%Z) /\
  impact_parameters_reach tr1 /\ impact_parameters_reach tr2 /\
  forall o, In o outs ->
    exists row,
      In (ntp_Fill row) outs /\
      (o = ntp_Fill row \/
       o = recomass_Fill (row_invariantPt row) (row_invariantMass row)) /\
      row_track1 row = tr1 /\ row_track2 row = tr2 /\
      Rabs (row_pair_dca row) <= _two_track_dcacut /\
      row_path row = decay_length row /\
      row_path row > _min_path_cut.

(** C5 for one pair, whatever the uninitialised locals hold. *)
Definition pair_cuts_spec (tr1 tr2 : SvtxTrack) : Prop :=
  forall (uninit_xy uninit_z : float_nan) (uninit_1 uninit_2 : Vector2d)
         (outs : list Output),
    pair_outputs svtx_vertex_map_get getTrackletClusters circle_fit_by_taubin line_fit
      projectTrackToCylinder Verbosity _require_mvtx _qual_cut _track_dcaxy_cut
      _track_dcaz_cut _max_intersection_radius _projected_track_z_cut
      _two_track_dcacut _min_path_cut decaymass
      tr1 tr2 uninit_xy uninit_z uninit_1 uninit_2 = Done outs ->
    outs <> [] -> candidate_cuts tr1 tr2 outs.

End CutStatements.

(** An event for the vertex finder: two tracks of opposite charge whose
    fitted circles, of radius 5 around [(0, 0)] and [(6, 0)], meet at
    [(3, -4)] and [(3, 4)].  The first track belongs to vertex 0; the vertex
    7 of the second track is not in the vertex map. *)
Module MissingVertex.

Import SecondaryVertexFinder.

Definition vertex_map (id : nat) : option SvtxVertex :=
  if (id =? 0)%nat then Some (mkSvtxVertex 0 0 0 2) else None.

Definition clusters (seed : TrackSeed) : list (Vector3d * nat) :=
  if (seed_id seed =? 1)%nat
  then [(mkVector3d 5 0 0, 2%nat); (mkVector3d 0 5 0, 2%nat); (mkVector3d (-5) 0 0, 2%nat)]
  else [(mkVector3d 11 0 0, 2%nat); (mkVector3d 6 5 0, 2%nat); (mkVector3d 1 0 0, 2%nat);
        (mkVector3d 6 (-5) 0, 2%nat)].

Definition circle_fit (global_vec : list Vector3d) : R * R * R :=
  if (length global_vec =? 3)%nat then (5, 0, 0) else (5, 6, 0).

Definition line (global_vec : list Vector3d) : R * R := (0, 0).

Definition project (tr : SvtxTrack) (radius : R) : option (Vector3d * Vector3d) :=
  if (get_id tr =? 1)%nat
  then Some (mkVector3d 3 (-4) 0, mkVector3d 1 0 0)
  else Some (mkVector3d 3 (-4) 0, mkVector3d 3 4 0).

Definition track1 : SvtxTrack :=
  mkSvtxTrack 1 1 0 1 0 1 0 1 1 0 None (mkTrackSeed 1 30).

Definition track2 : SvtxTrack :=
  mkSvtxTrack 2 0 0 0 1 0 0 (-1) 1 7 None (mkTrackSeed 2 30).

(** The outputs of [process_event] for the pair, with a quality cut of 10,
    impact-parameter cuts of 0.1, a two-track cut of 0.1 and a path cut
    of 0.2; the uninitialised [dca3dz2] holds 1, the value [get_dca] left
    for the first track. *)
Definition outputs : outcome (list Output) :=
  pair_outputs vertex_map clusters circle_fit line project 0 false
    10 0.1 0.1 40 1 0.1 0.2 0
    track1 track2 NaN (Num 1) (mkVector2d 0 0) (mkVector2d 0 0).

End MissingVertex.

(** Two tracks whose fitted unit circles, around [(0, 0)] and [(2.1, 0)],
    are 0.1 apart; every track has vertex 0. *)
Module NearTangency.

Import SecondaryVertexFinder.

Definition vertex_map (id : nat) : option SvtxVertex := Some (mkSvtxVertex 0 0 0 2).

Definition circle_fit (global_vec : list Vector3d) : R * R * R :=
  if (length global_vec =? 3)%nat then (1, 0, 0) else (1, 2.1, 0).

End NearTangency.

Section ClosestApproachStatements.

Import SecondaryVertexFinder.

(** The scalars [X], [Y], [c] and [d] of [dcaTwoLines], as the code
    computes them. *)
Definition pca_X (b1 b2 : Vector3d) : R :=
  dot b1 b2 - dot b1 b1 * dot b2 b2 / dot b2 b1.

Definition pca_Y (a1 b1 a2 b2 : Vector3d) : R :=
  (dot a2 b2 - dot a1 b2) - (dot a2 b1 - dot a1 b1) * dot b2 b2 / dot b2 b1.

Definition pca_c (a1 b1 a2 b2 : Vector3d) : R := pca_Y a1 b1 a2 b2 / pca_X b1 b2.

Definition pca_d (a1 b1 a2 b2 : Vector3d) : R :=
  pca_c a1 b1 a2 b2 * (dot b1 b1 / dot b2 b1) + - (dot a2 b1 - dot a1 b1) / dot b2 b1.

(** The point [p] is on the line through [a] along [b]. *)
Definition on_line (a b p : Vector3d) : Prop :=
  exists t : R, p = add3d a (scale3d t b).

(** [(dca, PCA1, PCA2)] is the closest approach of the two lines: the
    points are on their lines, the segment between them is perpendicular
    to both lines and no longer than any other segment between the lines,
    and [|dca|] is its length. *)
Definition closest_approach (a1 b1 a2 b2 : Vector3d) (result : R * Vector3d * Vector3d)
    : Prop :=
  let '(dca, PCA1, PCA2) := result in
  on_line a1 b1 PCA1 /\ on_line a2 b2 PCA2 /\
  dot (sub3d PCA2 PCA1) b1 = 0 /\ dot (sub3d PCA2 PCA1) b2 = 0 /\
  Rabs dca = norm (sub3d PCA2 PCA1) /\
  forall s t : R,
    norm (sub3d PCA2 PCA1)
    <= norm (sub3d (add3d a2 (scale3d t b2)) (add3d a1 (scale3d s b1))).

End ClosestApproachStatements.

Section RZStatements.

Import SecondaryVertexFinder.

(** The line of a track in the plane of radius and [z]: the radius and [z]
    of its position, and the slope [pz / pT]. *)
Definition track_radius (tr : SvtxTrack) : R :=
  sqrt (get_x tr * get_x tr + get_y tr * get_y tr).

Definition track_pT (tr : SvtxTrack) : R :=
  sqrt (get_px tr * get_px tr + get_py tr * get_py tr).

Definition track_dzdr (tr : SvtxTrack) : R := get_pz tr / track_pT tr.

Definition on_rz_line (tr : SvtxTrack) (r z : R) : Prop :=
  z = get_z tr + (r - track_radius tr) * track_dzdr tr.

End RZStatements.

(** Two tracks from radius 1 whose lines in the plane of radius and [z],
    of slopes 1 and -1, cross at radius 2 and [z = 1]. *)
Module CrossingTracks.

Import SecondaryVertexFinder.

Definition track1 : SvtxTrack :=
  mkSvtxTrack 1 1 0 0 1 0 1 1 1 0 None (mkTrackSeed 1 30).

Definition track2 : SvtxTrack :=
  mkSvtxTrack 2 1 0 2 1 0 (-1) (-1) 1 0 None (mkTrackSeed 2 30).

End CrossingTracks.

Section FitStatements.

Import SecondaryVertexFinder.

Variable getTrackletClusters : TrackSeed -> list (Vector3d * nat).
Variable circle_fit_by_taubin : list Vector3d -> R * R * R.
Variable line_fit : list Vector3d -> R * R.

(** The clusters of a seed outside the INTT. *)
Definition clusters_noINTT (tracklet : TrackSeed) : list Vector3d :=
  map fst (filter (fun c => negb (snd c =? inttId)%nat) (getTrackletClusters tracklet)).

(** The five parameters [fitClusters] returns when it fits. *)
Definition fitted_parameters (tracklet : TrackSeed) : list R :=
  let circle := circle_fit_by_taubin (map fst (getTrackletClusters tracklet)) in
  let line := line_fit (clusters_noINTT tracklet) in
  [fst (fst circle); snd (fst circle); snd circle; fst line; snd line].

End FitStatements.

Section DcaStatements.

Import SecondaryVertexFinder.

(** The position of a track relative to a vertex, and what [get_dca]
    returns for a track with transverse momentum: the transverse parameter
    [(py dx + px dy) / pT] and the longitudinal parameter [dz]. *)
Definition transverse_parameter (track : SvtxTrack) (vertex : SvtxVertex) : R :=
  (get_py track * (get_x track - vertex_x vertex)
   + get_px track * (get_y track - vertex_y vertex)) / track_pT track.

Definition longitudinal_parameter (track : SvtxTrack) (vertex : SvtxVertex) : R :=
  get_z track - vertex_z vertex.

Definition transverse_distance (track : SvtxTrack) (vertex : SvtxVertex) : R :=
  sqrt ((get_x track - vertex_x vertex) * (get_x track - vertex_x vertex)
        + (get_y track - vertex_y vertex) * (get_y track - vertex_y vertex)).

End DcaStatements.

Section EventStatements.

Import SecondaryVertexFinder.

Variable svtx_vertex_map_get : nat -> option SvtxVertex.
Variable _require_mvtx : bool.
Variables _qual_cut _two_track_dcacut _min_path_cut : R.

(** The pairs of a track with a later track of the list. *)
Fixpoint ordered_pairs (tracks : list SvtxTrack) : list (SvtxTrack * SvtxTrack) :=
  match tracks with
  | [] => []
  | tr1 :: rest => map (pair tr1) rest ++ ordered_pairs rest
  end.

(** What the loops of [process_event] test of a track whatever its vertex. *)
Definition track_selected (tr : SvtxTrack) : Prop :=
  get_quality tr <= _qual_cut /\
  (20 <= size_cluster_keys (get_tpc_seed tr))%Z /\
  (_require_mvtx = true -> hasSiliconSeed tr = true).

(** An ntuple row of an event: its tracks are a track of the event and a
    later one, of different charge, both selected; its vertex is the vertex
    of its first track, which has tracks; the distance of the two tracks is
    within its cut and the path is above its cut. *)
Definition event_candidate (tracks : list SvtxTrack) (row : NtpRow) : Prop :=
  In (row_track1 row, row_track2 row) (ordered_pairs tracks) /\
  get_charge (row_track2 row) <> get_charge (row_track1 row) /\
  track_selected (row_track1 row) /\ track_selected (row_track2 row) /\
  svtx_vertex_map_get (get_vertex_id (row_track1 row)) = Some (row_vertex row) /\
  size_tracks (row_vertex row) <> 0%nat /\
  Rabs (row_pair_dca row) <= _two_track_dcacut /\
  row_path row > _min_path_cut.

(** Every output is a row that satisfies [P] or the histogram entry of such
    a row. *)
Definition rows_with (P : NtpRow -> Prop) (outs : list Output) : Prop :=
  forall o, In o outs ->
    exists row,
      In (ntp_Fill row) outs /\
      (o = ntp_Fill row \/
       o = recomass_Fill (row_invariantPt row) (row_invariantMass row)) /\
      P row.

Definition has_vertex (tr : SvtxTrack) : Prop :=
  exists vertex, svtx_vertex_map_get (get_vertex_id tr) = Some vertex.

End EventStatements.

(** The event of [MissingVertex] with a second track that belongs to
    vertex 0 as the first one. *)
Module OppositePair.

Import SecondaryVertexFinder.

Definition track2 : SvtxTrack :=
  mkSvtxTrack 2 1 0 1 0 1 0 (-1) 1 0 None (mkTrackSeed 2 30).

Definition tracks : list SvtxTrack := [MissingVertex.track1; track2].

Definition outputs : outcome (list Output) :=
  process_event MissingVertex.vertex_map MissingVertex.clusters MissingVertex.circle_fit
    MissingVertex.line MissingVertex.project 0 false
    10 0.1 0.1 40 1 0.1 0.2 0
    tracks NaN NaN (mkVector2d 0 0) (mkVector2d 0 0).

End OppositePair.

Section MatrixStatements.

Import TpcDirectLaserReconstruction.

Variable GetLayerCellGeom : nat -> PHG4TpcCylinderGeom.

(** The nine values of [add_to_lhs] as a matrix: its quadratic form and its
    product with a vector. *)
Definition lhs_form (lhs : list R) (x0 x1 x2 : R) : R :=
  x0 * (nth 0 lhs 0 * x0 + nth 1 lhs 0 * x1 + nth 2 lhs 0 * x2)
  + x1 * (nth 3 lhs 0 * x0 + nth 4 lhs 0 * x1 + nth 5 lhs 0 * x2)
  + x2 * (nth 6 lhs 0 * x0 + nth 7 lhs 0 * x1 + nth 8 lhs 0 * x2).

Definition lhs_apply (lhs : list R) (x0 x1 x2 : R) : list R :=
  [nth 0 lhs 0 * x0 + nth 1 lhs 0 * x1 + nth 2 lhs 0 * x2;
   nth 3 lhs 0 * x0 + nth 4 lhs 0 * x1 + nth 5 lhs 0 * x2;
   nth 6 lhs 0 * x0 + nth 7 lhs 0 * x1 + nth 8 lhs 0 * x2].

(** An entry of the matrix container: a cell of the grid, a symmetric
    matrix whose quadratic form is never negative, and a right-hand side
    that is the matrix applied to a residual [(drp, dz, 0)]. *)
Definition entry_well_formed (e : MatrixEntry) : Prop :=
  (0 <= entry_cell e)%Z /\
  length (entry_lhs e) = 9%nat /\
  nth 1 (entry_lhs e) 0 = nth 3 (entry_lhs e) 0 /\
  nth 2 (entry_lhs e) 0 = nth 6 (entry_lhs e) 0 /\
  nth 5 (entry_lhs e) 0 = nth 7 (entry_lhs e) 0 /\
  (forall x0 x1 x2 : R, 0 <= lhs_form (entry_lhs e) x0 x1 x2) /\
  exists drp dz : R, entry_rhs e = lhs_apply (entry_lhs e) drp dz 0.

(** A track state on the line from [origin] along [direction]: at a
    parameter that is not negative, with the direction as momentum and the
    distance from the origin as path length; when the direction has a
    transverse component the position is on the cylinder of a layer. *)
Definition state_on_line (origin direction : TVector3) (state : SvtxTrackState) : Prop :=
  exists (layer : nat) (t : R),
    0 <= t /\
    state_mom state = direction /\
    state_pos state = vadd origin (vscale direction t) /\
    state_pathlength state = t * Mag direction /\
    (lci_A direction <> 0 -> 0 <= get_radius (GetLayerCellGeom layer) ->
     get_r (vx (state_pos state)) (vy (state_pos state))
     = get_radius (GetLayerCellGeom layer)).

Definition state_on_track (tracks : list LaserTrack) (state : SvtxTrackState) : Prop :=
  exists track : LaserTrack,
    In track tracks /\
    state_on_line (mkTVector3 (get_x track) (get_y track) (get_z track))
      (mkTVector3 (get_px track) (get_py track) (get_pz track)) state.

(** The laser tracks of the events of a run. *)
Definition run_tracks (events : list Event) : list LaserTrack := flat_map snd events.

End MatrixStatements.

(** A geometry whose layers all have radius 40, and an event of one hit
    and one laser track from the origin along [x]. *)
Module OneLayer.

Import TpcDirectLaserReconstruction.

Definition geometry (layer : nat) : PHG4TpcCylinderGeom :=
  mkLayerGeom 40 1 498 (fun _ => 0) (fun _ => 0).

Definition events : list Event :=
  [([mkTrkrHitSet 0 7 [mkTrkrHit 0 0 100]], [mkLaserTrack 0 0 0 1 0 0])].

Definition reco : Reco := mkReco 0 0 0 [] [].

(** A run over the events, with a drift velocity of 0.008, a distance cut
    of 1.5, a range of 2 in [z], a pedestal of 74 and a grid of 36, 16 and
    80 bins. *)
Definition run_events (fuel : nat) : outcome Reco :=
  run geometry 0.008 1.5 2 74 36 16 80
    (fun iphi ir iz => (iz + 80 * (ir + 16 * iphi))%Z) (fun _ => false)
    fuel events reco.

End OneLayer.

Section HitStatements.

Import TpcDirectLaserReconstruction.

Variable GetLayerCellGeom : nat -> PHG4TpcCylinderGeom.
Variable get_drift_velocity : R.
Variables m_max_dca m_pedestal : R.

(** The position [process_track] gives to a hit: at the radius of its
    layer and the azimuth of its pad, with [z] from the drift time of its
    time bin, negative on side 0. *)
Definition hit_position (side : Z) (layer : nat) (hit : TrkrHit) : TVector3 :=
  mkTVector3
    (get_radius (GetLayerCellGeom layer)
     * cos (get_phicenter (GetLayerCellGeom layer) (getPad hit)))
    (get_radius (GetLayerCellGeom layer)
     * sin (get_phicenter (GetLayerCellGeom layer) (getPad hit)))
    (if (side =? 0)%Z
     then (AdcClockPeriod * IZR (get_zbins (GetLayerCellGeom layer) mod 65536) / 2.0
           * get_drift_velocity
           - get_zcenter (GetLayerCellGeom layer) (getTBin hit) * get_drift_velocity) * -1
     else AdcClockPeriod * IZR (get_zbins (GetLayerCellGeom layer) mod 65536) / 2.0
          * get_drift_velocity
          - get_zcenter (GetLayerCellGeom layer) (getTBin hit) * get_drift_velocity).

(** [dist] is the distance of [point] to the line from [origin] along
    [direction]: the distance to a point of the line, and at most the
    distance to any. *)
Definition distance_to_line (origin direction point : TVector3) (dist : R) : Prop :=
  (exists t : R, Mag (vsub point (vadd origin (vscale direction t))) = dist) /\
  forall t : R, dist <= Mag (vsub point (vadd origin (vscale direction t))).

(** The association of a hit by its distance [dist] to the line of the
    track: a hit farther away than [m_max_dca] is counted in [m_total_hits]
    and leaves everything else alone; a hit within the distance is counted
    as matched as well, and its layer, its amplitude above the pedestal and
    its position are recorded. *)
Definition associates_by_distance (fuel : nat) (origin direction : TVector3)
    (side : Z) (layer : nat) (hit : TrkrHit) (s : HitLoop) : Prop :=
  exists dist : R,
    distance_to_line origin direction (hit_position side layer hit) dist /\
    (dist > m_max_dca ->
     process_hit GetLayerCellGeom get_drift_velocity m_max_dca m_pedestal
       fuel origin direction side layer hit s
     = Done (mkHitLoop
               (mkReco (m_total_hits (hl_reco s) + 1) (m_matched_hits (hl_reco s))
                  (m_accepted_clusters (hl_reco s)) (m_matrix_container (hl_reco s))
                  (inserted_states (hl_reco s)))
               (GEM_Mod_Arr s) (cluspos_map s) (layer_bin_set s))) /\
    (dist <= m_max_dca ->
     forall s' : HitLoop,
       process_hit GetLayerCellGeom get_drift_velocity m_max_dca m_pedestal
         fuel origin direction side layer hit s = Done s' ->
       m_total_hits (hl_reco s') = (m_total_hits (hl_reco s) + 1)%Z /\
       m_matched_hits (hl_reco s') = (m_matched_hits (hl_reco s) + 1)%Z /\
       cluspos_map s'
       = cluspos_map s
         ++ [(layer, (IZR (getAdc hit) - m_pedestal, hit_position side layer hit))] /\
       layer_bin_set s' = set_insert layer (layer_bin_set s)).

End HitStatements.

Section LocateStatements.

(** Ring [j] of a side, between the radii [30 + 16 j] and [46 + 16 j], and
    sector [k], one twelfth of a turn around the azimuth [k PI / 6], both
    without their borders. *)
Definition in_ring (j : nat) (r : R) : Prop := 30 + 16 * INR j < r < 46 + 16 * INR j.

Definition in_sector (k : nat) (phi : R) : Prop :=
  match k with
  | O => 0 <= phi < PI / 12 \/ 23 * PI / 12 < phi < 2 * PI
  | S _ => (2 * INR k - 1) * PI / 12 < phi < (2 * INR k + 1) * PI / 12
  end.

End LocateStatements.

(** * Properties *)

(** ** Reflection of the boolean comparisons *)

Lemma Rltb_true (a b : R) : (a <? b) = true <-> a < b.
Proof. unfold Rltb. destruct (Rlt_dec a b); split; intros; try easy; lra. Qed.

Lemma Rltb_false (a b : R) : (a <? b) = false <-> b <= a.
Proof. unfold Rltb. destruct (Rlt_dec a b); split; intros; try easy; lra. Qed.

Lemma Rleb_true (a b : R) : (a <=? b) = true <-> a <= b.
Proof. unfold Rleb. destruct (Rle_dec a b); split; intros; try easy; lra. Qed.

Lemma Rleb_false (a b : R) : (a <=? b) = false <-> b < a.
Proof. unfold Rleb. destruct (Rle_dec a b); split; intros; try easy; lra. Qed.

Lemma Reqb_true (a b : R) : (a =? b) = true <-> a = b.
Proof. unfold Reqb. destruct (Req_dec_T a b); split; intros; easy. Qed.

Lemma Reqb_false (a b : R) : (a =? b) = false <-> a <> b.
Proof. unfold Reqb. destruct (Req_dec_T a b); split; intros; easy. Qed.

(** Decide one comparison of the goal, keeping the fact. *)
Ltac dbl_case a b :=
  let H := fresh "Hcmp" in
  first
    [ destruct (Rltb a b) eqn:H; [apply Rltb_true in H | apply Rltb_false in H]
    | destruct (Rleb a b) eqn:H; [apply Rleb_true in H | apply Rleb_false in H] ].

Ltac dbl_step :=
  match goal with
  | |- context [Rltb ?a ?b] => unfold Rgtb, Rgeb in *;
      let H := fresh "Hcmp" in
      destruct (Rltb a b) eqn:H; [apply Rltb_true in H | apply Rltb_false in H]
  | |- context [Rleb ?a ?b] => unfold Rgtb, Rgeb in *;
      let H := fresh "Hcmp" in
      destruct (Rleb a b) eqn:H; [apply Rleb_true in H | apply Rleb_false in H]
  | |- context [Reqb ?a ?b] =>
      let H := fresh "Hcmp" in
      destruct (Reqb a b) eqn:H; [apply Reqb_true in H | apply Reqb_false in H]
  end.

Ltac dbl_cases := unfold Rgtb, Rgeb in *; repeat (dbl_step; try lra; simpl).

(** Rewrite a comparison whose outcome the context settles. *)
Ltac dbl_true a b :=
  first [ replace (Rltb a b) with true by (symmetry; apply Rltb_true; lra)
        | replace (Rleb a b) with true by (symmetry; apply Rleb_true; lra) ].
Ltac dbl_false a b :=
  first [ replace (Rltb a b) with false by (symmetry; apply Rltb_false; lra)
        | replace (Rleb a b) with false by (symmetry; apply Rleb_false; lra) ].

Lemma PI_gt_3 : 3 < PI.
Proof. pose proof PI2_3_2. lra. Qed.

(** ** Laser reconstruction *)

Section LaserGeometry.

Import TpcDirectLaserReconstruction.

(** *** delta_phi *)

Lemma delta_phi_cases (phi : R) :
  delta_phi phi = phi - 2 * PI /\ PI <= phi \/
  delta_phi phi = phi + 2 * PI /\ phi < - PI \/
  delta_phi phi = phi /\ - PI <= phi < PI.
Proof.
  unfold delta_phi, Rgeb.
  destruct (PI <=? phi) eqn:H1; [apply Rleb_true in H1 | apply Rleb_false in H1].
  - left. split; [reflexivity | lra].
  - destruct (phi <? - PI) eqn:H2; [apply Rltb_true in H2 | apply Rltb_false in H2].
    + right; left. split; [reflexivity | lra].
    + right; right. split; [reflexivity | lra].
Qed.

(** C7, as stated, fails: [delta_phi] subtracts one turn only, so the angle
    [3 * PI] is sent to [PI], outside the half-open interval. *)
Lemma delta_phi_wraps_fails_at_3pi : ~ delta_phi_wraps (3 * PI).
Proof.
  intros [[_ Hlt] _].
  pose proof PI_RGT_0.
  destruct (delta_phi_cases (3 * PI)) as [[E _] | [[_ Hc] | [_ Hc]]]; lra.
Qed.

(** C7, amended: for every angle in [[-3 PI, 3 PI)], which holds every
    difference of two values of [atan2], [delta_phi] lies in [[-PI, PI)] and
    differs from its argument by an integer multiple of [2 PI]. *)
Theorem delta_phi_wraps_within_one_turn (phi : R) :
  - 3 * PI <= phi < 3 * PI -> delta_phi_wraps phi.
Proof.
  intros Hphi. pose proof PI_RGT_0.
  unfold delta_phi_wraps.
  destruct (delta_phi_cases phi) as [[E H1] | [[E H1] | [E H1]]]; rewrite E; split;
    try lra.
  - exists (-1)%Z. lra.
  - exists 1%Z. lra.
  - exists 0%Z. lra.
Qed.

Lemma delta_phi_wraps_within_one_turn_witness :
  - 3 * PI <= 4 < 3 * PI /\ delta_phi_wraps 4.
Proof.
  assert (H : - 3 * PI <= 4 < 3 * PI) by (pose proof PI_gt_3; lra).
  split; [exact H | exact (delta_phi_wraps_within_one_turn 4 H)].
Defined.

End LaserGeometry.

Section LineCircle.

Import TpcDirectLaserReconstruction.

(** *** line_circle_intersection *)

Variables p d : TVector3.
Variable radius : R.

Local Abbreviation A := (lci_A d).
Local Abbreviation B := (lci_B p d).
Local Abbreviation C := (lci_C p radius).
Local Abbreviation delta := (lci_delta p d radius).
Local Abbreviation root := (quadratic_root p d radius).

Lemma on_circle_iff_root (t : R) : on_circle p d radius t <-> root t.
Proof.
  unfold on_circle, quadratic_root, lci_A, lci_B, lci_C, square.
  split; intros H; nra.
Qed.

Lemma lci_unfold :
  line_circle_intersection p d radius =
  if delta <? 0 then (-1, -1)
  else ((- B + sqrt delta) / (2 * A), (- B - sqrt delta) / (2 * A)).
Proof. reflexivity. Qed.

Lemma lci_negative_discriminant :
  delta < 0 -> line_circle_intersection p d radius = (-1, -1).
Proof.
  intros H. rewrite lci_unfold.
  apply Rltb_true in H. rewrite H. reflexivity.
Qed.

(** Both signs of the square root at once: [e] is [1] or [-1]. *)
Lemma quadratic_root_signed (e : R) :
  e * e = 1 -> A <> 0 -> 0 <= delta ->
  root ((- B + e * sqrt delta) / (2 * A)).
Proof.
  intros He HA Hd. unfold quadratic_root.
  pose proof (sqrt_sqrt delta Hd) as Hs.
  set (s := sqrt delta) in *.
  assert (E : delta = B * B - 4 * A * C) by reflexivity.
  set (t := (- B + e * s) / (2 * A)).
  assert (Ht : 2 * A * t = - B + e * s) by (unfold t; field; exact HA).
  assert (H4 : 4 * A * (A * (t * t) + B * t + C) = 0).
  { replace (4 * A * (A * (t * t) + B * t + C))
      with ((2 * A * t) * (2 * A * t) + 2 * B * (2 * A * t) + 4 * A * C) by ring.
    rewrite Ht.
    replace ((- B + e * s) * (- B + e * s) + 2 * B * (- B + e * s) + 4 * A * C)
      with ((e * e) * (s * s) - (B * B - 4 * A * C)) by ring.
    rewrite He, Hs, E. ring. }
  apply Rmult_integral in H4. destruct H4 as [H4 | H4]; [lra | exact H4].
Qed.

Lemma quadratic_root_plus :
  A <> 0 -> 0 <= delta -> root ((- B + sqrt delta) / (2 * A)).
Proof.
  intros HA Hd.
  replace (- B + sqrt delta) with (- B + 1 * sqrt delta) by ring.
  apply quadratic_root_signed; [ring | exact HA | exact Hd].
Qed.

Lemma quadratic_root_minus :
  A <> 0 -> 0 <= delta -> root ((- B - sqrt delta) / (2 * A)).
Proof.
  intros HA Hd.
  replace (- B - sqrt delta) with (- B + (-1) * sqrt delta) by ring.
  apply quadratic_root_signed; [ring | exact HA | exact Hd].
Qed.

Lemma quadratic_roots_complete (t : R) :
  A <> 0 -> 0 <= delta -> root t ->
  t = (- B + sqrt delta) / (2 * A) \/ t = (- B - sqrt delta) / (2 * A).
Proof.
  intros HA Hd Ht. unfold quadratic_root in Ht.
  pose proof (sqrt_sqrt delta Hd) as Hs.
  set (s := sqrt delta) in *.
  assert (E : delta = B * B - 4 * A * C) by reflexivity.
  assert (Hprod : (2 * A * t + B - s) * (2 * A * t + B + s) = 0).
  { replace ((2 * A * t + B - s) * (2 * A * t + B + s))
      with (4 * A * (A * (t * t) + B * t + C) + (B * B - 4 * A * C) - s * s) by ring.
    rewrite Ht, Hs, E. ring. }
  apply Rmult_integral in Hprod. destruct Hprod as [H | H]; [left | right].
  - apply Rmult_eq_reg_l with (2 * A); [ | lra].
    replace (2 * A * ((- B + s) / (2 * A))) with (- B + s) by (field; exact HA). lra.
  - apply Rmult_eq_reg_l with (2 * A); [ | lra].
    replace (2 * A * ((- B - s) / (2 * A))) with (- B - s) by (field; exact HA). lra.
Qed.

Lemma get_r_on_circle (t : R) :
  on_circle p d radius t -> 0 <= radius ->
  get_r (vx p + t * vx d) (vy p + t * vy d) = radius.
Proof.
  unfold on_circle, get_r. intros H Hr. rewrite H. unfold square.
  apply sqrt_square. exact Hr.
Qed.


End LineCircle.



(** *** Truncation and the angle loops *)

Lemma Int_part_bounds (v : R) : IZR (Int_part v) <= v < IZR (Int_part v) + 1.
Proof. destruct (base_Int_part v). lra. Qed.

Lemma Int_part_0 : Int_part 0 = 0%Z.
Proof.
  pose proof (Int_part_bounds 0) as [H1 H2].
  assert (H3 : (Int_part 0 <= 0)%Z) by (apply le_IZR; exact H1).
  assert (H4 : (0 < Int_part 0 + 1)%Z) by (apply lt_IZR; rewrite plus_IZR; exact H2).
  lia.
Qed.

Lemma trunc_0 : trunc 0 = 0%Z.
Proof.
  unfold trunc. replace (0 <=? 0) with true by (symmetry; apply Rleb_true; lra).
  apply Int_part_0.
Qed.

Lemma trunc_range (v : R) (n : Z) : 0 <= v < IZR n -> (0 <= trunc v < n)%Z.
Proof.
  intros [H0 Hn]. unfold trunc.
  replace (0 <=? v) with true by (symmetry; apply Rleb_true; exact H0).
  pose proof (Int_part_bounds v) as [H1 H2]. split.
  - assert (H : (0 < Int_part v + 1)%Z) by (apply lt_IZR; rewrite plus_IZR; lra). lia.
  - apply lt_IZR. lra.
Qed.

Section AngleLoops.

Import TpcDirectLaserReconstruction.

Lemma while_below_done (n : nat) :
  forall phi : R, - (INR n * (2 * PI)) <= phi ->
  forall fuel : nat, (n <= fuel)%nat ->
  exists (phi' : R) (k : nat),
    while_below fuel phi = Done phi' /\
    phi' = phi + INR k * (2 * PI) /\
    0 <= phi' /\
    (phi < 0 -> phi' < 2 * PI) /\
    (0 <= phi -> phi' = phi).
Proof.
  pose proof PI_RGT_0 as Hpi.
  induction n as [| n IH]; intros phi Hphi fuel Hfuel.
  - simpl in Hphi. exists phi, O.
    destruct fuel; simpl; unfold m_phimin;
      replace (phi <? 0) with false by (symmetry; apply Rltb_false; lra);
      repeat split; try lra.
  - destruct fuel as [| fuel]; [lia | ].
    simpl. unfold m_phimin.
    destruct (phi <? 0) eqn:Hc; [apply Rltb_true in Hc | apply Rltb_false in Hc].
    + destruct (IH (phi + 2 * PI)) with (fuel := fuel) as (phi' & k & Hk & E & H0 & H1 & H2).
      * rewrite S_INR in Hphi. lra.
      * lia.
      * exists phi', (S k). rewrite S_INR.
        split; [exact Hk | ]. split; [lra | ]. split; [exact H0 | ].
        split; [ | intros; lra].
        intros _. destruct (Rlt_dec (phi + 2 * PI) 0) as [Hlt | Hge].
        -- apply H1. exact Hlt.
        -- rewrite H2; lra.
    + exists phi, O. simpl. repeat split; try lra.
Qed.

Lemma while_above_done (n : nat) :
  forall phi : R, phi < INR n * (2 * PI) + 2 * PI ->
  forall fuel : nat, (n <= fuel)%nat ->
  exists (phi' : R) (k : nat),
    while_above fuel phi = Done phi' /\
    phi' = phi - INR k * (2 * PI) /\
    phi' < 2 * PI /\
    (0 <= phi -> 0 <= phi') /\
    (phi < 2 * PI -> phi' = phi).
Proof.
  pose proof PI_RGT_0 as Hpi.
  induction n as [| n IH]; intros phi Hphi fuel Hfuel.
  - simpl in Hphi. exists phi, O.
    destruct fuel; simpl; unfold m_phimax, Rgeb;
      replace (2 * PI <=? phi) with false by (symmetry; apply Rleb_false; lra);
      repeat split; try lra.
  - destruct fuel as [| fuel]; [lia | ].
    simpl. unfold m_phimax, Rgeb.
    destruct (2 * PI <=? phi) eqn:Hc; [apply Rleb_true in Hc | apply Rleb_false in Hc].
    + destruct (IH (phi - 2 * PI)) with (fuel := fuel) as (phi' & k & Hk & E & H0 & H1 & H2).
      * rewrite S_INR in Hphi. lra.
      * lia.
      * exists phi', (S k). rewrite S_INR.
        split; [exact Hk | ]. split; [lra | ]. split; [exact H0 | ].
        split; [ | intros; lra].
        intros Hp. apply H1. lra.
    + exists phi, O. simpl. repeat split; try lra.
Qed.

(** Every real is within a natural number of turns. *)
Lemma turns_bound (phi : R) : exists n : nat, Rabs phi < INR n * (2 * PI).
Proof.
  pose proof PI_RGT_0 as Hpi.
  destruct (archimed (Rabs phi / (2 * PI))) as [Hup _].
  exists (Z.to_nat (up (Rabs phi / (2 * PI)))).
  assert (Hq : 0 <= Rabs phi / (2 * PI)).
  { apply Rmult_le_pos; [apply Rabs_pos | ].
    apply Rlt_le, Rinv_0_lt_compat. lra. }
  assert (Hz : (0 <= up (Rabs phi / (2 * PI)))%Z).
  { apply le_IZR. lra. }
  rewrite INR_IZR_INZ, Z2Nat.id by exact Hz.
  apply Rmult_lt_reg_r with (/ (2 * PI)); [apply Rinv_0_lt_compat; lra | ].
  replace (IZR (up (Rabs phi / (2 * PI))) * (2 * PI) * / (2 * PI))
    with (IZR (up (Rabs phi / (2 * PI)))) by (field; lra).
  exact Hup.
Qed.

(** The two loops end, whatever the angle, and leave an angle of
    [[0, 2 PI)] that differs from the input by whole turns. *)
Lemma wrap_phi_terminates (phi : R) :
  exists fuel0 : nat, forall fuel : nat, (fuel0 <= fuel)%nat ->
  exists (phi' : R) (k : Z),
    wrap_phi fuel phi = Done phi' /\ 0 <= phi' < 2 * PI /\
    phi' = phi + IZR k * (2 * PI).
Proof.
  pose proof PI_RGT_0 as Hpi.
  destruct (turns_bound phi) as [n Hn].
  exists n. intros fuel Hfuel.
  assert (Habs : - Rabs phi <= phi <= Rabs phi).
  { split; [ | apply Rle_abs].
    pose proof (Rle_abs (- phi)) as H. rewrite Rabs_Ropp in H. lra. }
  destruct (while_below_done n phi ltac:(lra) fuel Hfuel)
    as (phi1 & k1 & E1 & Ek1 & H0 & Hlt & Hk0).
  unfold wrap_phi. rewrite E1. simpl.
  destruct (Rlt_dec phi 0) as [Hneg | Hpos].
  - specialize (Hlt Hneg).
    destruct (while_above_done O phi1 ltac:(simpl; lra) fuel ltac:(lia))
      as (phi2 & k2 & E2 & Ek2 & H1 & H2 & H3).
    rewrite E2. exists phi2, (Z.of_nat k1).
    rewrite <- INR_IZR_INZ.
    assert (E : phi2 = phi1) by (apply H3; exact Hlt).
    split; [reflexivity | split; lra].
  - assert (E : phi1 = phi) by (apply Hk0; lra).
    destruct (while_above_done n phi1 ltac:(lra) fuel Hfuel)
      as (phi2 & k2 & E2 & Ek2 & H1 & H2 & H3).
    rewrite E2. exists phi2, (- Z.of_nat k2)%Z.
    rewrite opp_IZR, <- INR_IZR_INZ.
    split; [reflexivity | ]. split; [ | lra].
    split; [apply H2; lra | lra].
Qed.

(** With one unit of fuel the loops end on every angle of [(-PI, PI]],
    the range of [atan2]. *)
Lemma wrap_phi_one_turn (phi : R) (fuel : nat) :
  - PI < phi <= PI -> (1 <= fuel)%nat ->
  exists phi' : R,
    wrap_phi fuel phi = Done phi' /\ 0 <= phi' < 2 * PI /\
    (0 <= phi -> phi' = phi) /\ (phi < 0 -> phi' = phi + 2 * PI).
Proof.
  intros [Hlo Hhi] Hfuel. pose proof PI_RGT_0 as Hpi.
  destruct fuel as [| fuel]; [lia | ].
  unfold wrap_phi. simpl. unfold m_phimin.
  destruct (phi <? 0) eqn:Hc; [apply Rltb_true in Hc | apply Rltb_false in Hc].
  - exists (phi + 2 * PI).
    destruct fuel; simpl; unfold m_phimin, m_phimax, Rgeb;
      replace (phi + 2 * PI <? 0) with false by (symmetry; apply Rltb_false; lra);
      simpl;
      replace (2 * PI <=? phi + 2 * PI) with false by (symmetry; apply Rleb_false; lra);
      repeat split; try lra.
  - exists phi. simpl. unfold m_phimax, Rgeb.
    replace (2 * PI <=? phi) with false by (symmetry; apply Rleb_false; lra).
    repeat split; try lra.
Qed.

Lemma atan2_range (y x : R) : - PI < atan2 y x <= PI.
Proof.
  pose proof PI_RGT_0 as Hpi. unfold atan2.
  pose proof (atan_bound (y / x)) as [Hlo Hhi].
  destruct (0 <? x) eqn:H1; [lra | apply Rltb_false in H1].
  destruct (x <? 0) eqn:H2; [apply Rltb_true in H2 | ].
  - destruct (0 <=? y) eqn:H3; [apply Rleb_true in H3 | apply Rleb_false in H3].
    + assert (Hq : y / x <= 0).
      { unfold Rdiv. assert (Hi : / x < 0) by (apply Rinv_lt_0_compat; exact H2). nra. }
      assert (Ha : atan (y / x) <= 0).
      { destruct Hq as [Hq | Hq].
        - left. rewrite <- atan_0. apply atan_increasing. exact Hq.
        - rewrite Hq, atan_0. lra. }
      lra.
    + assert (Hq : 0 < y / x).
      { unfold Rdiv. assert (Hi : / x < 0) by (apply Rinv_lt_0_compat; exact H2). nra. }
      assert (Ha : 0 < atan (y / x)).
      { rewrite <- atan_0. apply atan_increasing. exact Hq. }
      lra.
  - destruct (0 <? y); [lra | ]. destruct (y <? 0); lra.
Qed.

End AngleLoops.

(** *** get_cell_index *)

Lemma bin_fraction (n : Z) (v lo hi : R) :
  lo <= v < hi -> (0 < n)%Z -> 0 <= IZR n * (v - lo) / (hi - lo) < IZR n.
Proof.
  intros [Hlo Hhi] Hn.
  assert (Hw : 0 < hi - lo) by lra.
  assert (Hi : 0 < / (hi - lo)) by (apply Rinv_0_lt_compat; exact Hw).
  assert (HN : 0 < IZR n) by (apply IZR_lt; exact Hn).
  assert (Hq : 0 <= (v - lo) / (hi - lo) < 1).
  { split.
    - apply Rmult_le_pos; lra.
    - apply Rmult_lt_reg_r with (hi - lo); [exact Hw | ].
      replace ((v - lo) / (hi - lo) * (hi - lo)) with (v - lo) by (field; lra). lra. }
  replace (IZR n * (v - lo) / (hi - lo)) with (IZR n * ((v - lo) / (hi - lo)))
    by (unfold Rdiv; ring).
  split; [apply Rmult_le_pos; lra | ].
  rewrite <- (Rmult_1_r (IZR n)) at 2.
  apply Rmult_lt_compat_l; lra.
Qed.

Lemma bin_at_lower_bound (n : Z) (lo hi : R) :
  trunc (IZR n * (lo - lo) / (hi - lo)) = 0%Z.
Proof.
  replace (IZR n * (lo - lo) / (hi - lo)) with 0 by (unfold Rdiv; ring).
  apply trunc_0.
Qed.

Section CellIndexProperties.

Import TpcDirectLaserReconstruction.

Variables phibins rbins zbins : Z.
Variable container_get_cell_index : Z -> Z -> Z -> Z.

Lemma get_cell_index_out_of_range (fuel : nat) (global : TVector3) :
  (1 <= fuel)%nat ->
  get_r (vx global) (vy global) < 20 \/ 78 <= get_r (vx global) (vy global) \/
  vz global < -105.5 \/ 105.5 <= vz global ->
  get_cell_index phibins rbins zbins container_get_cell_index fuel global
  = Done (-1)%Z.
Proof.
  intros Hfuel Hout.
  destruct (wrap_phi_one_turn _ fuel (atan2_range (vy global) (vx global)) Hfuel)
    as (phi & Ephi & _).
  unfold get_cell_index, cell_bins. rewrite Ephi. simpl.
  unfold m_rmin, m_rmax, m_zmin, m_zmax, Rgeb.
  destruct (get_r (vx global) (vy global) <? 20) eqn:H1; simpl; [reflexivity | ].
  destruct (78 <=? get_r (vx global) (vy global)) eqn:H2; simpl; [reflexivity | ].
  destruct (vz global <? -105.5) eqn:H3; simpl; [reflexivity | ].
  destruct (105.5 <=? vz global) eqn:H4; simpl; [reflexivity | ].
  apply Rltb_false in H1, H3. apply Rleb_false in H2, H4. lra.
Qed.


End CellIndexProperties.


(** *** Locate *)

Section LocateProperties.

Import TpcDirectLaserReconstruction.

Lemma first_match_range (test : nat -> bool) (found : nat -> Z) (iters : list nat)
    (default lo hi : Z) :
  (lo <= default <= hi)%Z ->
  (forall i, In i iters -> (lo <= found i <= hi)%Z) ->
  (lo <= first_match test found iters default <= hi)%Z.
Proof.
  intros Hd. induction iters as [| i rest IH]; intros Hin; simpl.
  - exact Hd.
  - destruct (test i).
    + apply Hin. left. reflexivity.
    + apply IH. intros j Hj. apply Hin. right. exact Hj.
Qed.

(** Whatever the position, the identifier is between 0 and 72. *)
Lemma Locate_range (r phi z : R) : (0 <= Locate r phi z <= 72)%Z.
Proof.
  unfold Locate.
  match goal with
  | |- context [(36 * ?s + 3 * first_match ?t1 ?f1 ?l1 ?d1 + first_match ?t2 ?f2 ?l2 ?d2)%Z] =>
      assert (Ha : (0 <= first_match t1 f1 l1 d1 <= 11)%Z);
      [ | assert (Hr : (0 <= first_match t2 f2 l2 d2 <= 3)%Z);
          [ | assert (Hs : (0 <= s <= 1)%Z) by (destruct (z <? 0); lia); lia ] ]
  end.
  - apply first_match_range; [lia | ].
    intros i Hi. apply in_seq in Hi. lia.
  - apply first_match_range; [lia | ].
    intros i Hi. apply in_seq in Hi. lia.
Qed.

(** C9 fails on the code: at radius 25, azimuth 0 and [z = 0], inside the
    ranges of the claim, no radial bin is found, [r_id], [angle_id] and
    [side_id] keep their defaults and [Locate] returns 0, so that
    [GEM_Mod_Arr[locateid-1]] is element -1 of the array. *)
Theorem Locate_below_first_ring :
  20 <= 25 < 78 /\ 0 <= 0 < 2 * PI /\
  Locate 25 0 0 = 0%Z /\ (Locate 25 0 0 - 1 = -1)%Z /\ ~ Locate_spec 25 0 0.
Proof.
  pose proof PI_RGT_0 as Hpi.
  assert (E : Locate 25 0 0 = 0%Z).
  { unfold Locate, Angle_Bins, r_bins. simpl.
    unfold Rgtb.
    repeat match goal with
    | |- context [?a <? ?b] =>
        first [ replace (a <? b) with false by (symmetry; apply Rltb_false; lra)
              | replace (a <? b) with true by (symmetry; apply Rltb_true; lra) ];
        simpl
    end.
    reflexivity. }
  split; [lra | ]. split; [lra | ]. split; [exact E | ].
  split; [rewrite E; reflexivity | ].
  intros H. destruct (H ltac:(lra) ltac:(lra)) as [[H1 _] _].
  rewrite E in H1. lia.
Qed.

End LocateProperties.

(** *** process_track: the containers of the hit loop *)

Section HitContainers.

Import TpcDirectLaserReconstruction.

Lemma set_insert_In (layer l' : nat) (s : list nat) :
  In l' (set_insert layer s) <-> l' = layer \/ In l' s.
Proof.
  induction s as [| l rest IH]; simpl.
  - intuition.
  - destruct (layer <? l)%nat eqn:Hlt; simpl.
    + intuition.
    + destruct (layer =? l)%nat eqn:Heq; simpl.
      * apply Nat.eqb_eq in Heq. subst l. intuition.
      * rewrite IH. intuition.
Qed.

Lemma set_insert_increasing (layer : nat) (s : list nat) :
  increasing s -> increasing (set_insert layer s).
Proof.
  induction 1 as [| l rest Hall Hinc IH]; simpl.
  - constructor; [intros l' [] | constructor].
  - destruct (layer <? l)%nat eqn:Hlt.
    + apply Nat.ltb_lt in Hlt. constructor.
      * intros l' [<- | Hin]; [exact Hlt | ]. specialize (Hall l' Hin). lia.
      * constructor; assumption.
    + destruct (layer =? l)%nat eqn:Heq.
      * constructor; assumption.
      * apply Nat.ltb_ge in Hlt. apply Nat.eqb_neq in Heq. constructor; [ | exact IH].
        intros l' Hin. apply set_insert_In in Hin.
        destruct Hin as [-> | Hin]; [lia | apply Hall; exact Hin].
Qed.

Lemma increasing_NoDup (s : list nat) : increasing s -> NoDup s.
Proof.
  induction 1 as [| l rest Hall Hinc IH]; constructor.
  - intros Hin. specialize (Hall l Hin). lia.
  - exact IH.
Qed.

Lemma set_insert_length (layer : nat) (s : list nat) :
  (length (set_insert layer s) <= S (length s))%nat.
Proof.
  induction s as [| l rest IH]; simpl; [lia | ].
  destruct (layer <? l)%nat; simpl; [lia | ].
  destruct (layer =? l)%nat; simpl; lia.
Qed.

Lemma equal_range_app {V : Type} (m1 m2 : list (nat * V)) (layer : nat) :
  equal_range (m1 ++ m2) layer = equal_range m1 layer ++ equal_range m2 layer.
Proof. unfold equal_range. rewrite filter_app, map_app. reflexivity. Qed.

Lemma equal_range_nonempty {V : Type} (m : list (nat * V)) (layer : nat) :
  equal_range m layer <> [] <-> exists v, In (layer, v) m.
Proof.
  unfold equal_range. split.
  - intros Hne.
    destruct (filter (fun kv => (fst kv =? layer)%nat) m) as [| [k v] rest] eqn:E.
    + exfalso. apply Hne. reflexivity.
    + assert (Hin : In (k, v) (filter (fun kv => (fst kv =? layer)%nat) m))
        by (rewrite E; left; reflexivity).
      apply filter_In in Hin. destruct Hin as [Hin Hk]. simpl in Hk.
      apply Nat.eqb_eq in Hk. subst k. exists v. exact Hin.
  - intros [v Hin] Hnil.
    assert (Hf : In (layer, v) (filter (fun kv => (fst kv =? layer)%nat) m)).
    { apply filter_In. split; [exact Hin | ]. simpl. apply Nat.eqb_refl. }
    apply (in_map snd) in Hf. rewrite Hnil in Hf. exact Hf.
Qed.

Lemma incr_nth_length (arr : list Z) (i : nat) : length (incr_nth arr i) = length arr.
Proof.
  revert i. induction arr as [| v rest IH]; intros i; simpl; [reflexivity | ].
  destruct i; simpl; [reflexivity | ]. rewrite IH. reflexivity.
Qed.

Lemma array_incr_length (arr arr' : list Z) (i : Z) :
  array_incr arr i = Done arr' -> length arr' = length arr.
Proof.
  unfold array_incr.
  destruct ((0 <=? i)%Z && (i <? Z.of_nat (length arr))%Z)%bool; intros H; [ | discriminate].
  injection H as <-. apply incr_nth_length.
Qed.

Lemma array_incr_in_bounds (arr : list Z) (i : Z) :
  (0 <= i < Z.of_nat (length arr))%Z -> array_incr arr i = Done (incr_nth arr (Z.to_nat i)).
Proof.
  intros [H0 H1]. unfold array_incr.
  replace (0 <=? i)%Z with true by (symmetry; apply Z.leb_le; exact H0).
  replace (i <? Z.of_nat (length arr))%Z with true by (symmetry; apply Z.ltb_lt; exact H1).
  reflexivity.
Qed.

Lemma array_incr_not_out_of_fuel (arr : list Z) (i : Z) : array_incr arr i <> OutOfFuel.
Proof.
  unfold array_incr.
  destruct ((0 <=? i)%Z && (i <? Z.of_nat (length arr))%Z)%bool; discriminate.
Qed.

End HitContainers.

(** *** Loops with fuel *)

Section ForEach.

Import TpcDirectLaserReconstruction.

Context {A S : Type}.

(** A relation between the state before and after, reflexive and
    transitive, that every iteration respects, is respected by the loop. *)
Lemma for_each_preserves (body : A -> S -> outcome S) (P : S -> S -> Prop) :
  (forall s, P s s) ->
  (forall s1 s2 s3, P s1 s2 -> P s2 s3 -> P s1 s3) ->
  forall items : list A,
  (forall item s s', In item items -> body item s = Done s' -> P s s') ->
  forall s s', for_each body items s = Done s' -> P s s'.
Proof.
  intros Hrefl Htrans items. induction items as [| item rest IH]; intros Hbody s s' H.
  - simpl in H. injection H as <-. apply Hrefl.
  - simpl in H. destruct (body item s) as [s1 | | ] eqn:E; simpl in H; try discriminate.
    apply Htrans with s1.
    + apply Hbody with item; [left; reflexivity | exact E].
    + apply IH; [ | exact H]. intros i t t' Hi. apply Hbody. right. exact Hi.
Qed.

(** If no iteration runs out of fuel, neither does the loop. *)
Lemma for_each_fuel (body : A -> S -> outcome S) (items : list A) :
  (forall item s, In item items -> body item s <> OutOfFuel) ->
  forall s, for_each body items s <> OutOfFuel.
Proof.
  induction items as [| item rest IH]; intros Hbody s; simpl; [discriminate | ].
  destruct (body item s) as [s1 | | ] eqn:E; simpl.
  - apply IH. intros i t Hi. apply Hbody. right. exact Hi.
  - exfalso. apply (Hbody item s); [left; reflexivity | exact E].
  - discriminate.
Qed.

(** If every iteration is defined and keeps an invariant, the loop is
    defined. *)
Lemma for_each_defined (body : A -> S -> outcome S) (I : S -> Prop) (items : list A) :
  (forall item s, In item items -> I s -> exists s', body item s = Done s' /\ I s') ->
  forall s, I s -> exists s', for_each body items s = Done s' /\ I s'.
Proof.
  induction items as [| item rest IH]; intros Hbody s Hs; simpl.
  - exists s. split; [reflexivity | exact Hs].
  - destruct (Hbody item s (or_introl eq_refl) Hs) as (s1 & E & Hs1).
    rewrite E. simpl. apply IH; [ | exact Hs1].
    intros i t Hi. apply Hbody. right. exact Hi.
Qed.

End ForEach.

Section CountedLoops.

Import TpcDirectLaserReconstruction.

Context {A S : Type}.

(** A loop whose iterations each account for a known number of steps
    accounts for their sum. *)
Lemma for_each_counted (body : A -> S -> outcome S) (w : A -> nat)
    (P : nat -> S -> S -> Prop) :
  (forall s, P O s s) ->
  (forall n m s1 s2 s3, P n s1 s2 -> P m s2 s3 -> P (n + m)%nat s1 s3) ->
  (forall item s s', body item s = Done s' -> P (w item) s s') ->
  forall (items : list A) (s s' : S),
    for_each body items s = Done s' -> P (list_sum (map w items)) s s'.
Proof.
  intros Hzero Hadd Hbody items.
  induction items as [| item rest IH]; intros s s' H; simpl in *.
  - injection H as <-. apply Hzero.
  - destruct (body item s) as [s1 | | ] eqn:E; simpl in H; try discriminate.
    apply Hadd with s1; [apply Hbody; exact E | apply IH; exact H].
Qed.

End CountedLoops.

Lemma list_sum_ones {A : Type} (l : list A) : list_sum (map (fun _ => 1%nat) l) = length l.
Proof. induction l as [| a l IH]; simpl; [reflexivity | rewrite IH; reflexivity]. Qed.

Lemma list_sum_lengths {A B : Type} (f : A -> list B) (l : list A) :
  list_sum (map (fun a => length (f a)) l) = length (flat_map f l).
Proof.
  induction l as [| a l IH]; simpl; [reflexivity | ].
  rewrite length_app, IH. reflexivity.
Qed.

(** *** process_track: the counters *)

Section CounterProperties.

Import TpcDirectLaserReconstruction.

Variable GetLayerCellGeom : nat -> PHG4TpcCylinderGeom.
Variable get_drift_velocity : R.
Variables m_max_dca m_max_zrange m_pedestal : R.
Variables phibins rbins zbins : Z.
Variable container_get_cell_index : Z -> Z -> Z -> Z.
Variable isnan : R -> bool.

Local Abbreviation process_hit_ :=
  (process_hit GetLayerCellGeom get_drift_velocity m_max_dca m_pedestal).
Local Abbreviation hit_loop_ :=
  (hit_loop GetLayerCellGeom get_drift_velocity m_max_dca m_pedestal).
Local Abbreviation process_layer_ :=
  (process_layer GetLayerCellGeom get_drift_velocity m_max_zrange phibins rbins zbins
     container_get_cell_index isnan).
Local Abbreviation process_track_ :=
  (process_track GetLayerCellGeom get_drift_velocity m_max_dca m_max_zrange m_pedestal
     phibins rbins zbins container_get_cell_index isnan).
Local Abbreviation process_event_ :=
  (process_event GetLayerCellGeom get_drift_velocity m_max_dca m_max_zrange m_pedestal
     phibins rbins zbins container_get_cell_index isnan).
Local Abbreviation run_ :=
  (run GetLayerCellGeom get_drift_velocity m_max_dca m_max_zrange m_pedestal
     phibins rbins zbins container_get_cell_index isnan).

(** What [n] iterations of the hit loop do to its locals. *)
Definition hits_counted (n : nat) (s s' : HitLoop) : Prop :=
  m_total_hits (hl_reco s') = (m_total_hits (hl_reco s) + Z.of_nat n)%Z /\
  m_accepted_clusters (hl_reco s') = m_accepted_clusters (hl_reco s) /\
  m_matrix_container (hl_reco s') = m_matrix_container (hl_reco s) /\
  inserted_states (hl_reco s') = inserted_states (hl_reco s) /\
  length (GEM_Mod_Arr s') = length (GEM_Mod_Arr s) /\
  exists added : list (nat * (R * TVector3)),
    cluspos_map s' = cluspos_map s ++ added /\
    (length added <= n)%nat /\
    m_matched_hits (hl_reco s') = (m_matched_hits (hl_reco s) + Z.of_nat (length added))%Z /\
    (increasing (layer_bin_set s) -> increasing (layer_bin_set s')) /\
    (forall l, In l (layer_bin_set s') <->
               In l (layer_bin_set s) \/ exists v, In (l, v) added).

Lemma hits_counted_zero (s : HitLoop) : hits_counted O s s.
Proof.
  unfold hits_counted. repeat split; try lia; try reflexivity.
  exists []. rewrite app_nil_r. simpl. repeat split; try lia; try reflexivity.
  - intros H; exact H.
  - intros H; left; exact H.
  - intros [H | [v []]]; exact H.
Qed.

Lemma hits_counted_add (n m : nat) (s1 s2 s3 : HitLoop) :
  hits_counted n s1 s2 -> hits_counted m s2 s3 -> hits_counted (n + m) s1 s3.
Proof.
  intros (T1 & A1 & C1 & I1 & G1 & add1 & M1 & L1 & N1 & S1 & B1)
         (T2 & A2 & C2 & I2 & G2 & add2 & M2 & L2 & N2 & S2 & B2).
  unfold hits_counted.
  split; [lia | ]. split; [congruence | ]. split; [congruence | ].
  split; [congruence | ]. split; [congruence | ].
  exists (add1 ++ add2).
  split; [rewrite M2, M1, app_assoc; reflexivity | ].
  rewrite length_app. split; [lia | ]. split; [lia | ].
  split; [intros H; apply S2, S1, H | ].
  intros l. rewrite B2, B1. split.
  - intros [[H | [v H]] | [v H]].
    + left; exact H.
    + right; exists v; apply in_or_app; left; exact H.
    + right; exists v; apply in_or_app; right; exact H.
  - intros [H | [v H]].
    + left; left; exact H.
    + apply in_app_or in H. destruct H as [H | H].
      * left; right; exists v; exact H.
      * right; exists v; exact H.
Qed.

Lemma process_hit_counted (fuel : nat) (origin direction : TVector3) (side : Z)
    (layer : nat) (hit : TrkrHit) (s s' : HitLoop) :
  process_hit_ fuel origin direction side layer hit s = Done s' ->
  hits_counted 1 s s'.
Proof.
  unfold process_hit. lazy zeta.
  match goal with |- context [if ?c then _ else _] => destruct c end.
  - intros H. injection H as <-. unfold hits_counted. simpl.
    repeat split; try reflexivity.
    exists []. rewrite app_nil_r. simpl.
    split; [reflexivity | ]. split; [lia | ]. split; [lia | ].
    split; [intros H; exact H | ].
    intros l. split; [intros H; left; exact H | intros [H | [v []]]; exact H].
  - match goal with |- context [wrap_phi ?f ?p] => destruct (wrap_phi f p) as [phi2 | | ] end;
      simpl; try discriminate.
    match goal with
    | |- context [obind ?m _] => destruct m as [arr | | ] eqn:Earr
    end; simpl; try discriminate.
    intros H. injection H as <-. unfold hits_counted. simpl.
    split; [reflexivity | ]. split; [reflexivity | ]. split; [reflexivity | ].
    split; [reflexivity | ]. split.
    { match type of Earr with
      | (if ?c then _ else _) = _ => destruct c
      end.
      - apply array_incr_length in Earr. exact Earr.
      - injection Earr as <-. reflexivity. }
    eexists [(layer, _)]. split; [reflexivity | ]. simpl.
    split; [lia | ]. split; [lia | ].
    split; [apply set_insert_increasing | ].
    intros l. rewrite set_insert_In. split.
    + intros [-> | H]; [right; eexists; left; reflexivity | left; exact H].
    + intros [H | [v [H | []]]]; [right; exact H | left].
      injection H as <- _. reflexivity.
Qed.

Lemma hit_loop_counted (fuel : nat) (origin direction : TVector3)
    (hitsets : list TrkrHitSet) (s s' : HitLoop) :
  hit_loop_ fuel origin direction hitsets s = Done s' ->
  hits_counted (count_hits hitsets) s s'.
Proof.
  unfold hit_loop, count_hits. intros H.
  rewrite <- list_sum_lengths.
  revert s s' H.
  apply (for_each_counted _ (fun hitset => length (getHits hitset)) hits_counted
           hits_counted_zero hits_counted_add).
  intros hitset s s' H.
  rewrite <- list_sum_ones.
  revert s s' H.
  apply (for_each_counted _ (fun _ => 1%nat) hits_counted
           hits_counted_zero hits_counted_add).
  intros hit s s'. apply process_hit_counted.
Qed.

(** One iteration of the layer loop leaves the first two counters alone and
    adds at most one accepted cluster, together with its matrix entry. *)
Lemma process_layer_step (fuel : nat) (origin direction : TVector3)
    (cluspos : list (nat * (R * TVector3))) (layer : nat) (reco reco' : Reco) :
  process_layer_ fuel origin direction cluspos layer reco = Done reco' ->
  m_total_hits reco' = m_total_hits reco /\
  m_matched_hits reco' = m_matched_hits reco /\
  (m_accepted_clusters reco' = m_accepted_clusters reco /\
   length (m_matrix_container reco') = length (m_matrix_container reco) \/
   m_accepted_clusters reco' = (m_accepted_clusters reco + 1)%Z /\
   length (m_matrix_container reco') = S (length (m_matrix_container reco))).
Proof.
  unfold process_layer. lazy zeta.
  do 10 (match goal with
         | |- (if ?c then _ else _) = _ -> _ =>
             destruct c;
             [ intros H; injection H as <-; simpl;
               split; [reflexivity | split; [reflexivity | left; split; reflexivity]] | ]
         end).
  match goal with
  | |- context [get_cell_index ?a ?b ?c ?d ?e ?f] =>
      destruct (get_cell_index a b c d e f) as [i | | ]
  end; simpl; try discriminate.
  destruct (i <? 0)%Z; intros H; injection H as <-; simpl.
  - split; [reflexivity | split; [reflexivity | left; split; reflexivity]].
  - split; [reflexivity | split; [reflexivity | right; split; [reflexivity | ]]].
    rewrite length_app. simpl. lia.
Qed.

Lemma layer_loop_accepted (fuel : nat) (origin direction : TVector3)
    (cluspos : list (nat * (R * TVector3))) (layers : list nat) :
  NoDup layers ->
  forall reco reco' : Reco,
  for_each (process_layer_ fuel origin direction cluspos) layers reco = Done reco' ->
  m_total_hits reco' = m_total_hits reco /\
  m_matched_hits reco' = m_matched_hits reco /\
  exists accepted : list nat,
    NoDup accepted /\ incl accepted layers /\
    m_accepted_clusters reco' = (m_accepted_clusters reco + Z.of_nat (length accepted))%Z /\
    length (m_matrix_container reco') =
    (length (m_matrix_container reco) + length accepted)%nat.
Proof.
  induction 1 as [| layer rest Hnotin Hnodup IH]; intros reco reco' H; simpl in H.
  - injection H as <-. split; [reflexivity | split; [reflexivity | ]].
    exists []. simpl. repeat split; try lia.
    + constructor.
    + intros l [].
  - destruct (process_layer_ fuel origin direction cluspos layer reco) as [reco1 | | ] eqn:E;
      simpl in H; try discriminate.
    apply process_layer_step in E. destruct E as (T1 & M1 & Hacc).
    destruct (IH reco1 reco' H) as (T2 & M2 & acc & Nacc & Iacc & A2 & C2).
    split; [congruence | ]. split; [congruence | ].
    destruct Hacc as [[A1 C1] | [A1 C1]].
    + exists acc. split; [exact Nacc | ].
      split; [intros l Hl; right; apply Iacc; exact Hl | ].
      split; [lia | lia].
    + exists (layer :: acc). split.
      * constructor; [ | exact Nacc]. intros Hin. apply Hnotin, Iacc, Hin.
      * split.
        -- intros l [<- | Hl]; [left; reflexivity | right; apply Iacc; exact Hl].
        -- simpl length. split; lia.
Qed.

Lemma process_track_increments (fuel : nat) (hitsets : list TrkrHitSet)
    (track : LaserTrack) (reco reco' : Reco) :
  process_track_ fuel hitsets track reco = Done reco' ->
  track_increments GetLayerCellGeom get_drift_velocity m_max_dca m_pedestal
    fuel hitsets track reco reco'.
Proof.
  unfold process_track, track_increments. lazy zeta.
  match goal with
  | |- context [hit_loop_ ?f ?o ?d ?h ?s0] =>
      destruct (hit_loop_ f o d h s0) as [s | | ] eqn:Ehits
  end; simpl; try discriminate.
  intros Hlayers. exists s. split; [reflexivity | ].
  apply hit_loop_counted in Ehits.
  destruct Ehits as (T & Acc & Cont & Ins & _ & added & Emap & Hlen & M & Hinc & Hin).
  simpl in *. subst added.
  assert (Hnodup : NoDup (layer_bin_set s)).
  { apply increasing_NoDup, Hinc. constructor. }
  destruct (layer_loop_accepted fuel _ _ _ _ Hnodup _ _ Hlayers)
    as (T2 & M2 & acc & Nacc & Iacc & A2 & C2).
  split; [lia | ]. split; [lia | ]. split; [exact Hlen | ]. split; [exact Hnodup | ].
  split.
  { intros layer. rewrite equal_range_nonempty, Hin. split.
    - intros [[] | H]; exact H.
    - intros H; right; exact H. }
  exists acc. split; [exact Nacc | ]. split; [exact Iacc | ].
  split; [lia | ]. rewrite C2, Cont. reflexivity.
Qed.

(** The layers of [layer_bin_set] are at most as many as the hits
    associated to the track. *)
Lemma layers_at_most_matched (layers : list nat) (cluspos : list (nat * (R * TVector3))) :
  NoDup layers ->
  (forall layer, In layer layers <-> equal_range cluspos layer <> []) ->
  (length layers <= length cluspos)%nat.
Proof.
  intros Hnodup Hin.
  rewrite <- (length_map fst cluspos).
  apply NoDup_incl_length; [exact Hnodup | ].
  intros layer Hl. apply Hin, equal_range_nonempty in Hl. destruct Hl as [v Hv].
  apply (in_map fst) in Hv. exact Hv.
Qed.

Lemma track_increments_ordered (fuel : nat) (hitsets : list TrkrHitSet)
    (track : LaserTrack) (reco reco' : Reco) :
  track_increments GetLayerCellGeom get_drift_velocity m_max_dca m_pedestal
    fuel hitsets track reco reco' ->
  counters_ordered reco -> counters_ordered reco'.
Proof.
  intros (s & _ & T & M & Hlen & Hnodup & Hin & acc & Nacc & Iacc & A & _) [H1 H2].
  pose proof (layers_at_most_matched _ _ Hnodup Hin) as Hlayers.
  pose proof (NoDup_incl_length Nacc Iacc) as Hacc.
  unfold counters_ordered. lia.
Qed.

Lemma process_track_ordered (fuel : nat) (hitsets : list TrkrHitSet)
    (track : LaserTrack) (reco reco' : Reco) :
  process_track_ fuel hitsets track reco = Done reco' ->
  counters_ordered reco -> counters_ordered reco'.
Proof.
  intros H. apply track_increments_ordered with fuel hitsets track.
  apply process_track_increments. exact H.
Qed.

Lemma process_event_ordered (fuel : nat) (event : Event) (reco reco' : Reco) :
  process_event_ fuel event reco = Done reco' ->
  counters_ordered reco -> counters_ordered reco'.
Proof.
  unfold process_event, process_tracks. revert reco reco'.
  apply (for_each_preserves (process_track_ fuel (fst event))
           (fun r r' => counters_ordered r -> counters_ordered r')).
  - intros r H; exact H.
  - intros r1 r2 r3 H12 H23 H1. apply H23, H12, H1.
  - intros track r r' _. apply process_track_ordered.
Qed.

Lemma run_ordered (fuel : nat) (events : list Event) (reco reco' : Reco) :
  run_ fuel events reco = Done reco' -> counters_ordered reco'.
Proof.
  unfold run. intros H.
  assert (Hinit : counters_ordered (Init reco))
    by (unfold counters_ordered, Init; simpl; lia).
  revert Hinit. revert H. generalize (Init reco) as reco0. revert reco'.
  intros reco' reco0. revert reco0 reco'.
  apply (for_each_preserves (process_event_ fuel)
           (fun r r' => counters_ordered r -> counters_ordered r')).
  - intros r H; exact H.
  - intros r1 r2 r3 H12 H23 H1. apply H23, H12, H1.
  - intros event r r' _. apply process_event_ordered.
Qed.

(** *** process_track: fuel and definedness *)

Lemma while_below_defined (fuel : nat) (phi : R) : while_below fuel phi <> Undefined.
Proof.
  revert phi. induction fuel as [| fuel IH]; intros phi; simpl;
    destruct (phi <? m_phimin); try discriminate. apply IH.
Qed.

Lemma while_above_defined (fuel : nat) (phi : R) : while_above fuel phi <> Undefined.
Proof.
  revert phi. induction fuel as [| fuel IH]; intros phi; simpl;
    destruct (phi >=? m_phimax); try discriminate. apply IH.
Qed.

Lemma wrap_phi_defined (fuel : nat) (phi : R) : wrap_phi fuel phi <> Undefined.
Proof.
  unfold wrap_phi. destruct (while_below fuel phi) as [phi1 | | ] eqn:E; simpl.
  - apply while_above_defined.
  - discriminate.
  - exfalso. exact (while_below_defined _ _ E).
Qed.

Lemma get_cell_index_done (fuel : nat) (global : TVector3) :
  (1 <= fuel)%nat ->
  exists i : Z,
    get_cell_index phibins rbins zbins container_get_cell_index fuel global = Done i.
Proof.
  intros Hfuel.
  destruct (wrap_phi_one_turn _ fuel (atan2_range (vy global) (vx global)) Hfuel)
    as (phi & Ephi & _).
  unfold get_cell_index, cell_bins. rewrite Ephi. simpl.
  repeat match goal with
  | |- context [if ?c then _ else _] => destruct c; simpl
  end; eexists; reflexivity.
Qed.

(** The layer loop needs one unit of fuel and has no undefined step. *)
Lemma process_layer_done (fuel : nat) (origin direction : TVector3)
    (cluspos : list (nat * (R * TVector3))) (layer : nat) (reco : Reco) :
  (1 <= fuel)%nat ->
  exists reco', process_layer_ fuel origin direction cluspos layer reco = Done reco'.
Proof.
  intros Hfuel. unfold process_layer. lazy zeta.
  do 10 (match goal with
         | |- exists _, (if ?c then _ else _) = _ =>
             destruct c; [eexists; reflexivity | ]
         end).
  match goal with
  | |- context [get_cell_index ?a ?b ?c ?d ?e ?f] =>
      destruct (get_cell_index_done e f Hfuel) as [i Ei]; rewrite Ei
  end.
  simpl. destruct (i <? 0)%Z; eexists; reflexivity.
Qed.

(** The fuel one hit needs is the number of turns of its pad angle. *)
Lemma process_hit_fuel (layer : nat) (hit : TrkrHit) :
  exists fuel0 : nat, forall fuel : nat, (fuel0 <= fuel)%nat ->
  forall origin direction side s,
    process_hit_ fuel origin direction side layer hit s <> OutOfFuel.
Proof.
  destruct (wrap_phi_terminates
              (get_phicenter (GetLayerCellGeom layer) (getPad hit))) as [fuel0 Hf].
  exists fuel0. intros fuel Hfuel origin direction side s.
  destruct (Hf fuel Hfuel) as (phi2 & k & Ephi & _).
  unfold process_hit. lazy zeta.
  match goal with |- context [if ?c then _ else _] => destruct c end; [discriminate | ].
  rewrite Ephi. simpl.
  match goal with
  | |- context [obind ?m _] => destruct m as [arr | | ] eqn:Earr
  end; simpl; try discriminate.
  exfalso.
  match type of Earr with
  | (if ?c then _ else _) = _ => destruct c
  end; [exact (array_incr_not_out_of_fuel _ _ Earr) | discriminate].
Qed.

End CounterProperties.

Section EnoughFuel.

Import TpcDirectLaserReconstruction.

Context {A S : Type}.

(** If each item has a fuel that suffices for its iteration, whatever the
    other arguments [p] of the body, one fuel suffices for the loop. *)
Lemma for_each_enough_fuel {P : Type} (body : P -> nat -> A -> S -> outcome S)
    (items : list A) :
  (forall item, In item items ->
     exists fuel0 : nat, forall fuel, (fuel0 <= fuel)%nat ->
       forall p s, body p fuel item s <> OutOfFuel) ->
  exists fuel0 : nat, forall fuel, (fuel0 <= fuel)%nat ->
    forall p s, for_each (body p fuel) items s <> OutOfFuel.
Proof.
  induction items as [| item rest IH]; intros Hbody.
  - exists O. intros fuel _ p s. simpl. discriminate.
  - destruct (Hbody item (or_introl eq_refl)) as [f1 H1].
    destruct IH as [f2 H2].
    { intros i Hi. apply Hbody. right. exact Hi. }
    exists (Nat.max f1 f2). intros fuel Hfuel p s. simpl.
    destruct (body p fuel item s) as [s1 | | ] eqn:E; simpl.
    + apply H2. lia.
    + exfalso. apply (H1 fuel ltac:(lia) p s). exact E.
    + discriminate.
Qed.

(** A loop whose iterations are defined under an invariant they keep has no
    undefined step. *)
Lemma for_each_no_undefined (body : A -> S -> outcome S) (I : S -> Prop)
    (items : list A) :
  (forall item s, I s -> body item s <> Undefined) ->
  (forall item s s', I s -> body item s = Done s' -> I s') ->
  forall s, I s -> for_each body items s <> Undefined.
Proof.
  intros Hdef Hkeep. induction items as [| item rest IH]; intros s Hs; simpl.
  - discriminate.
  - destruct (body item s) as [s1 | | ] eqn:E; simpl.
    + apply IH. apply Hkeep with item s; assumption.
    + discriminate.
    + exfalso. exact (Hdef item s Hs E).
Qed.

End EnoughFuel.

Section LocateOnRings.

Import TpcDirectLaserReconstruction.

(** Strictly inside one of the three rings, [Locate] names a module. *)
Lemma Locate_on_rings (r phi z : R) :
  30 < r < 46 \/ 46 < r < 62 \/ 62 < r < 78 -> (1 <= Locate r phi z <= 72)%Z.
Proof.
  intros Hr. split; [ | apply Locate_range].
  unfold Locate.
  match goal with
  | |- context [(3 * first_match ?t ?f ?l ?d)%Z] =>
      assert (Ha : (0 <= first_match t f l d <= 11)%Z)
        by (apply first_match_range; [lia | intros i Hi; apply in_seq in Hi; lia]);
      generalize dependent (first_match t f l d); intros angle_id Ha
  end.
  assert (Hs : (0 <= (if Rltb z 0 then 1 else 0) <= 1)%Z) by (destruct (Rltb z 0); lia).
  generalize dependent (if Rltb z 0 then 1%Z else 0%Z). intros side_id Hs.
  match goal with
  | |- (1 <= _ + _ + ?rid)%Z => assert (Hrid : (1 <= rid)%Z); [ | lia]
  end.
  unfold r_bins, Rgtb. simpl.
  destruct Hr as [Hr | [Hr | Hr]];
    repeat match goal with
    | |- context [?a <? ?b] =>
        first [ replace (a <? b) with true by (symmetry; apply Rltb_true; lra)
              | replace (a <? b) with false by (symmetry; apply Rltb_false; lra) ];
        simpl
    end; lia.
Qed.

Lemma sqrt_polar (radius phi : R) :
  0 <= radius ->
  sqrt (radius * cos phi * (radius * cos phi) + radius * sin phi * (radius * sin phi))
  = radius.
Proof.
  intros Hr.
  replace (radius * cos phi * (radius * cos phi) + radius * sin phi * (radius * sin phi))
    with (radius * radius * (Rsqr (sin phi) + Rsqr (cos phi))) by (unfold Rsqr; ring).
  rewrite sin2_cos2, Rmult_1_r. apply sqrt_square. exact Hr.
Qed.

End LocateOnRings.

Section CounterTheorem.

Import TpcDirectLaserReconstruction.

Variable GetLayerCellGeom : nat -> PHG4TpcCylinderGeom.
Variable get_drift_velocity : R.
Variables m_max_dca m_max_zrange m_pedestal : R.
Variables phibins rbins zbins : Z.
Variable container_get_cell_index : Z -> Z -> Z -> Z.
Variable isnan : R -> bool.

Local Abbreviation process_hit_ :=
  (process_hit GetLayerCellGeom get_drift_velocity m_max_dca m_pedestal).
Local Abbreviation hit_loop_ :=
  (hit_loop GetLayerCellGeom get_drift_velocity m_max_dca m_pedestal).
Local Abbreviation process_layer_ :=
  (process_layer GetLayerCellGeom get_drift_velocity m_max_zrange phibins rbins zbins
     container_get_cell_index isnan).
Local Abbreviation process_track_ :=
  (process_track GetLayerCellGeom get_drift_velocity m_max_dca m_max_zrange m_pedestal
     phibins rbins zbins container_get_cell_index isnan).
Local Abbreviation process_event_ :=
  (process_event GetLayerCellGeom get_drift_velocity m_max_dca m_max_zrange m_pedestal
     phibins rbins zbins container_get_cell_index isnan).
Local Abbreviation run_ :=
  (run GetLayerCellGeom get_drift_velocity m_max_dca m_max_zrange m_pedestal
     phibins rbins zbins container_get_cell_index isnan).

Lemma hit_loop_fuel (hitsets : list TrkrHitSet) :
  exists fuel0 : nat, forall fuel : nat, (fuel0 <= fuel)%nat ->
  forall origin direction s, hit_loop_ fuel origin direction hitsets s <> OutOfFuel.
Proof.
  unfold hit_loop.
  destruct (for_each_enough_fuel
              (fun (p : TVector3 * TVector3) fuel hitset s =>
                 for_each (process_hit_ fuel (fst p) (snd p) (getSide hitset)
                             (getLayer hitset)) (getHits hitset) s)
              hitsets) as [fuel0 H0].
  - intros hitset _.
    destruct (for_each_enough_fuel
                (fun (p : TVector3 * TVector3) fuel hit s =>
                   process_hit_ fuel (fst p) (snd p) (getSide hitset) (getLayer hitset) hit s)
                (getHits hitset)) as [fuel1 H1].
    + intros hit _.
      destruct (process_hit_fuel GetLayerCellGeom get_drift_velocity m_max_dca m_pedestal
                  (getLayer hitset) hit) as [fuel2 H2].
      exists fuel2. intros fuel Hfuel p s. apply H2. exact Hfuel.
    + exists fuel1. exact H1.
  - exists fuel0. intros fuel Hfuel origin direction s.
    exact (H0 fuel Hfuel (origin, direction) s).
Qed.

Lemma process_track_fuel (hitsets : list TrkrHitSet) :
  exists fuel0 : nat, forall fuel : nat, (fuel0 <= fuel)%nat ->
  forall track reco, process_track_ fuel hitsets track reco <> OutOfFuel.
Proof.
  destruct (hit_loop_fuel hitsets) as [fuel0 H0].
  exists (Nat.max fuel0 1). intros fuel Hfuel track reco.
  unfold process_track. lazy zeta.
  match goal with
  | |- context [hit_loop_ ?f ?o ?d ?h ?s0] =>
      destruct (hit_loop_ f o d h s0) as [s | | ] eqn:Ehits
  end; simpl.
  - apply for_each_fuel. intros layer r _.
    match goal with
    | |- process_layer_ ?f ?o ?d ?c ?l ?x <> _ =>
        destruct (process_layer_done GetLayerCellGeom get_drift_velocity m_max_zrange
                    phibins rbins zbins container_get_cell_index isnan
                    f o d c l x ltac:(lia)) as [r' Er]
    end.
    rewrite Er. discriminate.
  - exfalso. revert Ehits. apply H0. lia.
  - discriminate.
Qed.

Lemma run_fuel (events : list Event) :
  exists fuel0 : nat, forall fuel : nat, (fuel0 <= fuel)%nat ->
  forall reco, run_ fuel events reco <> OutOfFuel.
Proof.
  unfold run.
  destruct (for_each_enough_fuel
              (fun (_ : unit) fuel event reco => process_event_ fuel event reco)
              events) as [fuel0 H0].
  - intros event _.
    destruct (process_track_fuel (fst event)) as [fuel1 H1].
    exists fuel1. intros fuel Hfuel _ reco.
    unfold process_event, process_tracks.
    apply for_each_fuel. intros track r _. apply H1. exact Hfuel.
  - exists fuel0. intros fuel Hfuel reco. exact (H0 fuel Hfuel tt (Init reco)).
Qed.

Hypothesis rings : layers_inside_rings GetLayerCellGeom.

Lemma process_hit_defined (fuel : nat) (origin direction : TVector3) (side : Z)
    (layer : nat) (hit : TrkrHit) (s : HitLoop) :
  length (GEM_Mod_Arr s) = 72%nat ->
  process_hit_ fuel origin direction side layer hit s <> Undefined.
Proof.
  intros Hlen. unfold process_hit. lazy zeta.
  match goal with |- context [if ?c then _ else _] => destruct c end; [discriminate | ].
  match goal with
  | |- context [wrap_phi ?f ?p] =>
      pose proof (wrap_phi_defined f p) as Hw;
      destruct (wrap_phi f p) as [phi2 | | ]
  end; simpl; [ | discriminate | contradiction].
  pose proof (rings layer) as Hr. simpl in Hr.
  rewrite sqrt_polar by lra.
  match goal with
  | |- context [Locate ?r ?p ?z] => pose proof (Locate_on_rings r p z Hr) as Hloc
  end.
  match goal with
  | |- context [if ?c then _ else _] => destruct c
  end; simpl; [ | discriminate].
  rewrite array_incr_in_bounds by (rewrite Hlen; lia).
  simpl. discriminate.
Qed.

Lemma hit_loop_defined (fuel : nat) (origin direction : TVector3)
    (hitsets : list TrkrHitSet) (s : HitLoop) :
  length (GEM_Mod_Arr s) = 72%nat ->
  hit_loop_ fuel origin direction hitsets s <> Undefined.
Proof.
  unfold hit_loop.
  assert (Hkeep : forall side layer hits s s',
            length (GEM_Mod_Arr s) = 72%nat ->
            for_each (process_hit_ fuel origin direction side layer) hits s = Done s' ->
            length (GEM_Mod_Arr s') = 72%nat).
  { intros side layer hits. induction hits as [| hit rest IH]; intros t t' Ht H; simpl in H.
    - injection H as <-. exact Ht.
    - destruct (process_hit_ fuel origin direction side layer hit t) as [t1 | | ] eqn:E;
        simpl in H; try discriminate.
      apply IH with t1; [ | exact H].
      apply process_hit_counted in E. destruct E as (_ & _ & _ & _ & G & _). congruence. }
  apply for_each_no_undefined with (I := fun s => length (GEM_Mod_Arr s) = 72%nat).
  - intros hitset t Ht.
    apply for_each_no_undefined with (I := fun s => length (GEM_Mod_Arr s) = 72%nat).
    + intros hit u Hu. apply process_hit_defined. exact Hu.
    + intros hit u u' Hu E.
      apply process_hit_counted in E. destruct E as (_ & _ & _ & _ & G & _). congruence.
    + exact Ht.
  - intros hitset t t' Ht. apply Hkeep. exact Ht.
Qed.

Lemma process_track_defined (fuel : nat) (hitsets : list TrkrHitSet)
    (track : LaserTrack) (reco : Reco) :
  (1 <= fuel)%nat -> process_track_ fuel hitsets track reco <> Undefined.
Proof.
  intros Hfuel. unfold process_track. lazy zeta.
  match goal with
  | |- context [hit_loop_ ?f ?o ?d ?h ?s0] =>
      pose proof (hit_loop_defined f o d h s0 (repeat_length 0%Z 72)) as Hd;
      destruct (hit_loop_ f o d h s0) as [s | | ]
  end; simpl; [ | discriminate | contradiction].
  apply for_each_no_undefined with (I := fun _ => True); auto.
  intros layer r _.
  match goal with
  | |- process_layer_ ?f ?o ?d ?c ?l ?x <> _ =>
      destruct (process_layer_done GetLayerCellGeom get_drift_velocity m_max_zrange
                  phibins rbins zbins container_get_cell_index isnan
                  f o d c l x Hfuel) as [r' Er]
  end.
  rewrite Er. discriminate.
Qed.

Lemma run_defined (fuel : nat) (events : list Event) (reco : Reco) :
  (1 <= fuel)%nat -> run_ fuel events reco <> Undefined.
Proof.
  intros Hfuel. unfold run.
  apply for_each_no_undefined with (I := fun _ => True); auto.
  intros event r _. unfold process_event, process_tracks.
  apply for_each_no_undefined with (I := fun _ => True); auto.
  intros track r' _. apply process_track_defined. exact Hfuel.
Qed.

End CounterTheorem.


(** ** Secondary-vertex finder *)

(** *** findPcaTwoLines and dcaTwoLines *)

Section ClosestApproach.

Import SecondaryVertexFinder.

Lemma vector3d_eta (v : Vector3d) : mkVector3d (v3_0 v) (v3_1 v) (v3_2 v) = v.
Proof. destruct v. reflexivity. Qed.

Lemma norm_zero_components (v : Vector3d) :
  norm v = 0 -> v3_0 v = 0 /\ v3_1 v = 0 /\ v3_2 v = 0.
Proof.
  unfold norm, dot. intros H.
  apply sqrt_eq_0 in H; [ | nra].
  repeat split; nra.
Qed.

Lemma norm_of_zero : norm (mkVector3d 0 0 0) = 0.
Proof.
  unfold norm, dot. simpl.
  replace (0 * 0 + 0 * 0 + 0 * 0) with 0 by ring. apply sqrt_0.
Qed.

(** The normalised directions of parallel momenta are parallel. *)
Lemma cross_unit_directions (mom1 mom2 : Vector3d) :
  norm (cross mom1 mom2) = 0 ->
  norm (cross (unit_direction mom1) (unit_direction mom2)) = 0.
Proof.
  intros H. apply norm_zero_components in H. destruct H as (H0 & H1 & H2).
  unfold cross in H0, H1, H2. simpl in H0, H1, H2.
  replace (cross (unit_direction mom1) (unit_direction mom2)) with (mkVector3d 0 0 0);
    [apply norm_of_zero | ].
  unfold cross, unit_direction, div3d. simpl. unfold Rdiv. f_equal.
  - replace (v3_1 mom1 * / norm mom1 * (v3_2 mom2 * / norm mom2)
             - v3_2 mom1 * / norm mom1 * (v3_1 mom2 * / norm mom2))
      with ((v3_1 mom1 * v3_2 mom2 - v3_2 mom1 * v3_1 mom2) * / norm mom1 * / norm mom2)
      by ring.
    rewrite H0. ring.
  - replace (v3_2 mom1 * / norm mom1 * (v3_0 mom2 * / norm mom2)
             - v3_0 mom1 * / norm mom1 * (v3_2 mom2 * / norm mom2))
      with ((v3_2 mom1 * v3_0 mom2 - v3_0 mom1 * v3_2 mom2) * / norm mom1 * / norm mom2)
      by ring.
    rewrite H1. ring.
  - replace (v3_0 mom1 * / norm mom1 * (v3_1 mom2 * / norm mom2)
             - v3_1 mom1 * / norm mom1 * (v3_0 mom2 * / norm mom2))
      with ((v3_0 mom1 * v3_1 mom2 - v3_1 mom1 * v3_0 mom2) * / norm mom1 * / norm mom2)
      by ring.
    rewrite H2. ring.
Qed.

(** [findPcaTwoLines] is the six normalising divisions followed by
    [dcaTwoLines] on the unit directions. *)
Lemma findPcaTwoLines_unfold (pos1 mom1 pos2 mom2 PCA1 PCA2 : Vector3d) :
  findPcaTwoLines pos1 mom1 pos2 mom2 PCA1 PCA2 =
  (value (dcaTwoLines pos1 (unit_direction mom1) pos2 (unit_direction mom2) PCA1 PCA2),
   [norm mom1; norm mom1; norm mom1; norm mom2; norm mom2; norm mom2]
   ++ divisors (dcaTwoLines pos1 (unit_direction mom1) pos2 (unit_direction mom2)
                  PCA1 PCA2)).
Proof.
  unfold findPcaTwoLines, dcaTwoLines, unit_direction, div3d.
  rewrite !vector3d_eta.
  unfold dbind, ddiv, dret, value, divisors. simpl.
  destruct (negb _); reflexivity.
Qed.

Lemma dcaTwoLines_parallel (a1 b1 a2 b2 PCA1 PCA2 : Vector3d) :
  norm (cross b1 b2) = 0 ->
  dcaTwoLines a1 b1 a2 b2 PCA1 PCA2 = ((999, PCA1, PCA2), []).
Proof.
  intros H. unfold dcaTwoLines.
  replace (norm (cross b1 b2) =? 0) with true by (symmetry; apply Reqb_true; exact H).
  reflexivity.
Qed.

(** C8: for non-zero momenta [findPcaTwoLines] computes the [dca], [PCA1]
    and [PCA2] of [dcaTwoLines] applied to the positions and the momenta
    divided by their norms. *)
Theorem findPcaTwoLines_is_dcaTwoLines (pos1 mom1 pos2 mom2 PCA1 PCA2 : Vector3d) :
  mom1 <> mkVector3d 0 0 0 -> mom2 <> mkVector3d 0 0 0 ->
  value (findPcaTwoLines pos1 mom1 pos2 mom2 PCA1 PCA2) =
  value (dcaTwoLines pos1 (div3d mom1 (norm mom1)) pos2 (div3d mom2 (norm mom2))
           PCA1 PCA2).
Proof.
  intros _ _. rewrite findPcaTwoLines_unfold. reflexivity.
Qed.

End ClosestApproach.

Lemma sqrt_of_square (v s : R) : 0 <= s -> v = s * s -> sqrt v = s.
Proof. intros Hs ->. apply sqrt_square. exact Hs. Qed.

Lemma findPcaTwoLines_is_dcaTwoLines_witness :
  mkVector3d 1 0 0 <> mkVector3d 0 0 0 /\ mkVector3d 3 4 0 <> mkVector3d 0 0 0 /\
  value (SecondaryVertexFinder.findPcaTwoLines (mkVector3d 0 0 0) (mkVector3d 1 0 0)
           (mkVector3d 0 0 1) (mkVector3d 3 4 0) (mkVector3d 0 0 0) (mkVector3d 0 0 0)) =
  value (SecondaryVertexFinder.dcaTwoLines (mkVector3d 0 0 0)
           (div3d (mkVector3d 1 0 0) (norm (mkVector3d 1 0 0)))
           (mkVector3d 0 0 1)
           (div3d (mkVector3d 3 4 0) (norm (mkVector3d 3 4 0)))
           (mkVector3d 0 0 0) (mkVector3d 0 0 0)).
Proof.
  assert (H1 : mkVector3d 1 0 0 <> mkVector3d 0 0 0).
  { intros H. injection H as H. lra. }
  assert (H2 : mkVector3d 3 4 0 <> mkVector3d 0 0 0).
  { intros H. injection H as H _. lra. }
  split; [exact H1 | ]. split; [exact H2 | ].
  exact (findPcaTwoLines_is_dcaTwoLines (mkVector3d 0 0 0) (mkVector3d 1 0 0)
           (mkVector3d 0 0 1) (mkVector3d 3 4 0) (mkVector3d 0 0 0) (mkVector3d 0 0 0)
           H1 H2).
Defined.

(** *** findTwoTrackIntersection *)

Section TwoTrackIntersection.

Import SecondaryVertexFinder.

Variable getTrackletClusters : TrackSeed -> list (Vector3d * nat).
Variable circle_fit_by_taubin : list Vector3d -> R * R * R.
Variable line_fit : list Vector3d -> R * R.
Variable Verbosity : Z.

Local Abbreviation fitClusters_ :=
  (fitClusters getTrackletClusters circle_fit_by_taubin line_fit Verbosity).
Local Abbreviation findTwoTrackIntersection_ :=
  (findTwoTrackIntersection getTrackletClusters circle_fit_by_taubin line_fit Verbosity).

(** [fitClusters] returns no parameter or five. *)
Lemma fitClusters_size (tracklet : TrackSeed) :
  length (fitClusters_ tracklet) = 0%nat \/ length (fitClusters_ tracklet) = 5%nat.
Proof.
  unfold fitClusters. lazy zeta.
  repeat match goal with
  | |- context [if ?c then _ else _] => destruct c; [left; reflexivity | ]
  end.
  right. reflexivity.
Qed.

(** C10: when both fits succeed and [circle_circle_intersection] succeeds
    with a single point, that is two coordinates, as it does in the
    near-tangency case, [findTwoTrackIntersection] returns [true], writes
    the point into [intersect1] and leaves [intersect2] as the caller
    passed it. *)
Theorem single_intersection_leaves_intersect2
    (track1 track2 : SvtxTrack) (intersect1 intersect2 : Vector2d) (x y : R) :
  fitClusters_ (get_tpc_seed track1) <> [] ->
  fitClusters_ (get_tpc_seed track2) <> [] ->
  circle_circle_intersection
    (nth 0 (fitClusters_ (get_tpc_seed track1)) 0)
    (nth 1 (fitClusters_ (get_tpc_seed track1)) 0)
    (nth 2 (fitClusters_ (get_tpc_seed track1)) 0)
    (nth 0 (fitClusters_ (get_tpc_seed track2)) 0)
    (nth 1 (fitClusters_ (get_tpc_seed track2)) 0)
    (nth 2 (fitClusters_ (get_tpc_seed track2)) 0) [] = (true, [x; y]) ->
  findTwoTrackIntersection_ track1 track2 intersect1 intersect2
  = (true, mkVector2d x y, intersect2).
Proof.
  intros H1 H2 Hcci. unfold findTwoTrackIntersection. lazy zeta.
  destruct (fitClusters_ (get_tpc_seed track1)) as [| f1 l1] eqn:E1; [contradiction | ].
  destruct (fitClusters_ (get_tpc_seed track2)) as [| f2 l2] eqn:E2; [contradiction | ].
  cbn [length Nat.eqb]. rewrite Hcci. reflexivity.
Qed.

End TwoTrackIntersection.

(** *** circle_circle_intersection *)

Lemma sum_squares_nonneg (a b : R) : 0 <= a * a + b * b.
Proof. pose proof (Rle_0_sqr a). pose proof (Rle_0_sqr b). unfold Rsqr in *. lra. Qed.

(** The point the code calls the closest point of a circle to the other
    centre is on that circle, and no point of the circle is nearer. *)
Lemma nearest_point_is_nearest (c q s : Vector2d) (r : R) :
  0 <= r -> 0 < dist2d q c -> dist2d s c = r ->
  dist2d (nearest_point c r q) c = r /\
  dist2d (nearest_point c r q) q <= dist2d s q.
Proof.
  intros Hr Hd Hs.
  destruct c as [cx cy], q as [qx qy], s as [sx sy].
  unfold dist2d, nearest_point, norm2d, sub2d, add2d, scale2d, div2d in *. simpl in *.
  set (vx := qx - cx) in *. set (vy := qy - cy) in *.
  set (dv := sqrt (vx * vx + vy * vy)) in *.
  assert (Hdv : dv * dv = vx * vx + vy * vy).
  { unfold dv. apply sqrt_sqrt. apply sum_squares_nonneg. }
  set (ux := vx / dv). set (uy := vy / dv).
  assert (Ex : vx = dv * ux) by (unfold ux; field; lra).
  assert (Ey : vy = dv * uy) by (unfold uy; field; lra).
  assert (Eu : ux * ux + uy * uy = 1).
  { assert (H : dv * dv * (ux * ux + uy * uy) = dv * dv * 1).
    { replace (dv * dv * (ux * ux + uy * uy))
        with (dv * ux * (dv * ux) + dv * uy * (dv * uy)) by ring.
      rewrite <- Ex, <- Ey, <- Hdv. ring. }
    apply Rmult_eq_reg_l in H; [exact H | ].
    apply Rgt_not_eq. apply Rmult_lt_0_compat; exact Hd. }
  set (wx := sx - cx) in *. set (wy := sy - cy) in *.
  assert (Hw : wx * wx + wy * wy = r * r).
  { rewrite <- Hs. rewrite sqrt_sqrt; [reflexivity | apply sum_squares_nonneg]. }
  split.
  - replace ((cx + ux * r - cx) * (cx + ux * r - cx) + (cy + uy * r - cy) * (cy + uy * r - cy))
      with (r * r * (ux * ux + uy * uy)) by ring.
    rewrite Eu, Rmult_1_r. apply sqrt_square. exact Hr.
  - apply sqrt_le_1_alt.
    replace (cx + ux * r - qx) with ((r - dv) * ux) by (unfold vx in Ex; lra).
    replace (cy + uy * r - qy) with ((r - dv) * uy) by (unfold vy in Ey; lra).
    replace (sx - qx) with (wx - dv * ux) by (unfold wx; unfold vx in Ex; lra).
    replace (sy - qy) with (wy - dv * uy) by (unfold wy; unfold vy in Ey; lra).
    replace ((r - dv) * ux * ((r - dv) * ux) + (r - dv) * uy * ((r - dv) * uy))
      with ((r - dv) * (r - dv) * (ux * ux + uy * uy)) by ring.
    replace ((wx - dv * ux) * (wx - dv * ux) + (wy - dv * uy) * (wy - dv * uy))
      with ((wx * wx + wy * wy) + dv * dv * (ux * ux + uy * uy)
            - 2 * dv * (wx * ux + wy * uy)) by ring.
    rewrite Eu, Hw, !Rmult_1_r.
    assert (Hcs : wx * ux + wy * uy <= r).
    { assert (Hsq : (wx * ux + wy * uy) * (wx * ux + wy * uy) <= r * r).
      { replace (r * r) with ((wx * wx + wy * wy) * (ux * ux + uy * uy))
          by (rewrite Eu, Hw; ring).
        pose proof (Rle_0_sqr (wx * uy - wy * ux)) as H. unfold Rsqr in H. lra. }
      destruct (Rle_dec (wx * ux + wy * uy) r) as [Hle | Hgt]; [exact Hle | ].
      exfalso. assert (Hlt : r < wx * ux + wy * uy) by lra.
      assert (r * r < (wx * ux + wy * uy) * (wx * ux + wy * uy)).
      { apply Rle_lt_trans with (r * (wx * ux + wy * uy)).
        - apply Rmult_le_compat_l; lra.
        - apply Rmult_lt_compat_r; lra. }
      lra. }
    assert (0 <= 2 * dv * (r - (wx * ux + wy * uy))).
    { apply Rmult_le_pos; lra. }
    lra.
Qed.

Section CircleCircle.

Import SecondaryVertexFinder.

Variables r0 x0 y0 r1 x1 y1 : R.
Variable intersectionXY : list R.

Local Abbreviation d := (dist2d (mkVector2d x0 y0) (mkVector2d x1 y1)).

Lemma cci_nested :
  d < Rabs (r0 - r1) ->
  circle_circle_intersection r0 x0 y0 r1 x1 y1 intersectionXY = (false, intersectionXY).
Proof.
  intros H. unfold circle_circle_intersection. lazy zeta.
  rewrite Rabs_minus_sym in H. apply Rltb_true in H.
  unfold dist2d in H. rewrite H. reflexivity.
Qed.

Lemma cci_apart :
  r0 + r1 + 0.2 <= d ->
  circle_circle_intersection r0 x0 y0 r1 x1 y1 intersectionXY = (false, intersectionXY).
Proof.
  intros H. unfold circle_circle_intersection. lazy zeta. unfold dist2d in H.
  destruct (_ <? Rabs (r1 - r0)); [reflexivity | ].
  unfold Rgtb.
  replace (r0 + r1 <? norm2d (sub2d (mkVector2d x0 y0) (mkVector2d x1 y1))) with true
    by (symmetry; apply Rltb_true; lra).
  replace (Rabs (norm2d (sub2d (mkVector2d x0 y0) (mkVector2d x1 y1)) - (r0 + r1)) <? 0.2)
    with false; [reflexivity | ].
  symmetry. apply Rltb_false. rewrite Rabs_right; lra.
Qed.

Lemma cci_near_tangency :
  Rabs (r0 - r1) <= d -> r0 + r1 < d < r0 + r1 + 0.2 ->
  circle_circle_intersection r0 x0 y0 r1 x1 y1 intersectionXY =
  (true,
   intersectionXY ++
   [v2_0 (midpoint (nearest_point (mkVector2d x0 y0) r0 (mkVector2d x1 y1))
                   (nearest_point (mkVector2d x1 y1) r1 (mkVector2d x0 y0)));
    v2_1 (midpoint (nearest_point (mkVector2d x0 y0) r0 (mkVector2d x1 y1))
                   (nearest_point (mkVector2d x1 y1) r1 (mkVector2d x0 y0)))]).
Proof.
  intros Hlo [H1 H2]. unfold circle_circle_intersection. lazy zeta.
  unfold dist2d in *. rewrite Rabs_minus_sym in Hlo.
  replace (norm2d (sub2d (mkVector2d x0 y0) (mkVector2d x1 y1)) <? Rabs (r1 - r0))
    with false by (symmetry; apply Rltb_false; lra).
  unfold Rgtb.
  replace (r0 + r1 <? norm2d (sub2d (mkVector2d x0 y0) (mkVector2d x1 y1))) with true
    by (symmetry; apply Rltb_true; lra).
  replace (Rabs (norm2d (sub2d (mkVector2d x0 y0) (mkVector2d x1 y1)) - (r0 + r1)) <? 0.2)
    with true by (symmetry; apply Rltb_true; rewrite Rabs_right; lra).
  unfold midpoint, nearest_point.
  replace 2.0 with 2 by lra. reflexivity.
Qed.

Lemma dist2d_square :
  d * d = (x1 - x0) * (x1 - x0) + (y1 - y0) * (y1 - y0).
Proof.
  unfold dist2d, norm2d, sub2d. simpl.
  rewrite sqrt_sqrt; [ring | apply sum_squares_nonneg].
Qed.

(** Inside the two-point range the radii are not negative and the square
    root of [h] is taken of a non-negative number. *)
Lemma cci_height_defined :
  0 < d -> Rabs (r0 - r1) <= d <= r0 + r1 ->
  0 <= r0 * r0 - ((r0 * r0 - r1 * r1 + d * d) / (2 * d))
                 * ((r0 * r0 - r1 * r1 + d * d) / (2 * d)).
Proof.
  intros Hd [Hlo Hhi].
  set (dd := d) in *.
  assert (Habs : r0 - r1 <= dd /\ r1 - r0 <= dd).
  { pose proof (Rle_abs (r0 - r1)). pose proof (Rle_abs (r1 - r0)) as H'.
    rewrite Rabs_minus_sym in H'. lra. }
  destruct Habs as [Ha Hb].
  set (a := (r0 * r0 - r1 * r1 + dd * dd) / (2 * dd)).
  assert (Ea : 2 * dd * a = r0 * r0 - r1 * r1 + dd * dd) by (unfold a; field; lra).
  assert (H1 : 0 <= 2 * dd * (r0 - a)) by nra.
  assert (H2 : 0 <= 2 * dd * (r0 + a)) by nra.
  assert (H3 : 0 <= r0 - a) by nra.
  assert (H4 : 0 <= r0 + a) by nra.
  nra.
Qed.

Lemma cci_two_points :
  Rabs (r0 - r1) <= d <= r0 + r1 ->
  exists xa ya xb yb,
    circle_circle_intersection r0 x0 y0 r1 x1 y1 intersectionXY
    = (true, intersectionXY ++ [xa; ya; xb; yb]) /\
    (0 < d ->
     on_circle2d r0 x0 y0 xa ya /\ on_circle2d r1 x1 y1 xa ya /\
     on_circle2d r0 x0 y0 xb yb /\ on_circle2d r1 x1 y1 xb yb).
Proof.
  intros Hrange. pose proof Hrange as [Hlo Hhi].
  unfold circle_circle_intersection. lazy zeta.
  pose proof dist2d_square as Hsq.
  unfold dist2d in *. rewrite Rabs_minus_sym in Hlo.
  set (dd := norm2d (sub2d (mkVector2d x0 y0) (mkVector2d x1 y1))) in *.
  replace (dd <? Rabs (r1 - r0)) with false by (symmetry; apply Rltb_false; lra).
  unfold Rgtb.
  replace (r0 + r1 <? dd) with false by (symmetry; apply Rltb_false; lra).
  do 4 eexists. split; [reflexivity | ].
  intros Hd.
  pose proof (cci_height_defined Hd Hrange) as Hh.
  unfold dist2d in Hh. fold dd in Hh.
  set (a := (r0 * r0 - r1 * r1 + dd * dd) / (2 * dd)) in *.
  pose proof (sqrt_sqrt _ Hh) as Hhh.
  set (h := sqrt (r0 * r0 - a * a)) in *.
  assert (Ea : 2 * dd * a = r0 * r0 - r1 * r1 + dd * dd) by (unfold a; field; lra).
  set (ux := (x1 - x0) / dd).
  set (uy := (y1 - y0) / dd).
  assert (Ex : x1 - x0 = dd * ux) by (unfold ux; field; lra).
  assert (Ey : y1 - y0 = dd * uy) by (unfold uy; field; lra).
  assert (Eu : ux * ux + uy * uy = 1).
  { assert (H : dd * dd * (ux * ux + uy * uy) = dd * dd * 1).
    { replace (dd * dd * (ux * ux + uy * uy))
        with (dd * ux * (dd * ux) + dd * uy * (dd * uy)) by ring.
      rewrite <- Ex, <- Ey, <- Hsq. ring. }
    apply Rmult_eq_reg_l in H; [exact H | ].
    apply Rgt_not_eq. apply Rmult_lt_0_compat; exact Hd. }
  replace (a * (x1 - x0) / dd) with (a * ux) by (unfold ux, Rdiv; ring).
  replace (a * (y1 - y0) / dd) with (a * uy) by (unfold uy, Rdiv; ring).
  replace (h * (x1 - x0) / dd) with (h * ux) by (unfold ux, Rdiv; ring).
  replace (h * (y1 - y0) / dd) with (h * uy) by (unfold uy, Rdiv; ring).
  assert (Ex1 : x1 = x0 + dd * ux) by lra.
  assert (Ey1 : y1 = y0 + dd * uy) by lra.
  unfold on_circle2d.
  assert (Hr0 : a * a + h * h = r0 * r0) by lra.
  assert (Hr1 : (a - dd) * (a - dd) + h * h = r1 * r1) by nra.
  repeat split.
  - replace ((x0 + a * ux + h * uy - x0) * (x0 + a * ux + h * uy - x0)
             + (y0 + a * uy - h * ux - y0) * (y0 + a * uy - h * ux - y0))
      with ((a * a + h * h) * (ux * ux + uy * uy)) by ring.
    rewrite Eu, Hr0. ring.
  - rewrite Ex1, Ey1.
    replace ((x0 + a * ux + h * uy - (x0 + dd * ux)) * (x0 + a * ux + h * uy - (x0 + dd * ux))
             + (y0 + a * uy - h * ux - (y0 + dd * uy))
               * (y0 + a * uy - h * ux - (y0 + dd * uy)))
      with (((a - dd) * (a - dd) + h * h) * (ux * ux + uy * uy)) by ring.
    rewrite Eu, Hr1. ring.
  - replace ((x0 + a * ux - h * uy - x0) * (x0 + a * ux - h * uy - x0)
             + (y0 + a * uy + h * ux - y0) * (y0 + a * uy + h * ux - y0))
      with ((a * a + h * h) * (ux * ux + uy * uy)) by ring.
    rewrite Eu, Hr0. ring.
  - rewrite Ex1, Ey1.
    replace ((x0 + a * ux - h * uy - (x0 + dd * ux)) * (x0 + a * ux - h * uy - (x0 + dd * ux))
             + (y0 + a * uy + h * ux - (y0 + dd * uy))
               * (y0 + a * uy + h * ux - (y0 + dd * uy)))
      with (((a - dd) * (a - dd) + h * h) * (ux * ux + uy * uy)) by ring.
    rewrite Eu, Hr1. ring.
Qed.

End CircleCircle.

(** C1, as stated, fails within the tolerance below [r0 + r1]: two unit
    circles with centres 1.9 apart are within 0.2 of tangency and the code
    produces two points, four coordinates. *)
Lemma cci_stated_fails_for_overlapping_circles : ~ cci_stated 1 0 0 1 1.9 0.
Proof.
  unfold cci_stated. lazy zeta. intros [_ H].
  assert (Ed : dist2d (mkVector2d 0 0) (mkVector2d 1.9 0) = 1.9).
  { unfold dist2d, norm2d, sub2d. simpl. apply sqrt_of_square; lra. }
  rewrite Ed in H.
  assert (Habs : Rabs (1 - 1) = 0) by (rewrite Rabs_right; lra).
  destruct H as [H _].
  { rewrite Habs. lra. }
  destruct H as [_ Hlen].
  { rewrite Rabs_left; lra. }
  destruct (cci_two_points 1 0 0 1 1.9 0 []) as (xa & ya & xb & yb & E & _).
  { rewrite Ed, Habs. lra. }
  rewrite E in Hlen. simpl in Hlen. discriminate.
Qed.

(** *** process_event: the cuts of a track pair *)

Section PairCuts.

Import SecondaryVertexFinder.

Variable svtx_vertex_map_get : nat -> option SvtxVertex.
Variable getTrackletClusters : TrackSeed -> list (Vector3d * nat).
Variable circle_fit_by_taubin : list Vector3d -> R * R * R.
Variable line_fit : list Vector3d -> R * R.
Variable projectTrackToCylinder : SvtxTrack -> R -> option (Vector3d * Vector3d).
Variable Verbosity : Z.
Variable _require_mvtx : bool.
Variables _qual_cut _track_dcaxy_cut _track_dcaz_cut : R.
Variables _max_intersection_radius _projected_track_z_cut : R.
Variables _two_track_dcacut _min_path_cut decaymass : R.

Local Abbreviation get_dca_ := (get_dca svtx_vertex_map_get).
Local Abbreviation process_intersection_ :=
  (process_intersection svtx_vertex_map_get projectTrackToCylinder
     _max_intersection_radius _projected_track_z_cut _two_track_dcacut _min_path_cut
     decaymass).
Local Abbreviation track1_cuts_ :=
  (track1_cuts svtx_vertex_map_get _require_mvtx _qual_cut _track_dcaxy_cut
     _track_dcaz_cut).
Local Abbreviation process_pair_ :=
  (process_pair svtx_vertex_map_get getTrackletClusters circle_fit_by_taubin line_fit
     projectTrackToCylinder Verbosity _require_mvtx _qual_cut _track_dcaxy_cut
     _track_dcaz_cut _max_intersection_radius _projected_track_z_cut
     _two_track_dcacut _min_path_cut decaymass).
Local Abbreviation reach :=
  (impact_parameters_reach svtx_vertex_map_get _track_dcaxy_cut _track_dcaz_cut).

(** The outputs of one candidate, and what holds of it. *)
Definition candidate_of (tr1 tr2 : SvtxTrack) (row : NtpRow) : Prop :=
  row_track1 row = tr1 /\ row_track2 row = tr2 /\
  Rabs (row_pair_dca row) <= _two_track_dcacut /\
  row_path row = decay_length row /\
  row_path row > _min_path_cut.

Lemma process_intersection_outputs (tr1 tr2 : SvtxTrack)
    (dca3dxy1 dca3dz1 dca3dxy2 dca3dz2 : float_nan) (has_silicon_1 has_silicon_2 : Z)
    (intersection_i : Vector2d) (outs : list Output) :
  process_intersection_ tr1 tr2 dca3dxy1 dca3dz1 dca3dxy2 dca3dz2 has_silicon_1
    has_silicon_2 intersection_i = Done outs ->
  outs = [] \/
  exists row,
    outs = [recomass_Fill (row_invariantPt row) (row_invariantMass row); ntp_Fill row] /\
    candidate_of tr1 tr2 row.
Proof.
  unfold process_intersection. lazy zeta.
  destruct (norm2d intersection_i =? 0);
    [intros H; injection H as <-; left; reflexivity | ].
  match goal with |- context [if ?c then _ else _] => destruct c end;
    [intros H; injection H as <-; left; reflexivity | ].
  destruct (projectTrackToCylinder tr1 _) as [[vpos1 vmom1] | ];
    [ | intros H; injection H as <-; left; reflexivity].
  destruct (projectTrackToCylinder tr2 _) as [[vpos2 vmom2] | ];
    [ | intros H; injection H as <-; left; reflexivity].
  match goal with |- context [if ?c then _ else _] => destruct c end;
    [intros H; injection H as <-; left; reflexivity | ].
  destruct (value (findPcaTwoLines vpos1 vmom1 vpos2 vmom2 _ _)) as [[pair_dca PCA1] PCA2].
  destruct (Rabs pair_dca >? _two_track_dcacut) eqn:Hdca;
    [intros H; injection H as <-; left; reflexivity | ].
  destruct (svtx_vertex_map_get (get_vertex_id tr1)) as [vertex1 | ]; [ | discriminate].
  match goal with
  | |- context [if ?a >? ?b then _ else _] => destruct (a >? b) eqn:Hpath
  end; [ | intros H; injection H as <-; left; reflexivity].
  intros H. injection H as <-. right.
  match goal with |- context [ntp_Fill ?r] => exists r end.
  split; [reflexivity | ].
  unfold candidate_of, decay_length. simpl.
  unfold Rgtb in Hdca, Hpath. apply Rltb_false in Hdca. apply Rltb_true in Hpath.
  split; [reflexivity | ]. split; [reflexivity | ]. split; [exact Hdca | ].
  split; [ | exact Hpath].
  replace 2.0 with 2 by lra. reflexivity.
Qed.

Lemma get_dca_with_vertex (tr : SvtxTrack) (uninit_xy uninit_z : float_nan) :
  svtx_vertex_map_get (get_vertex_id tr) <> None ->
  exists dca3dxy dca3dz,
    get_dca_ tr uninit_xy uninit_z = (Num dca3dxy, Num dca3dz) /\
    impact_parameters svtx_vertex_map_get tr = Some (dca3dxy, dca3dz).
Proof.
  intros Hv. unfold impact_parameters, get_dca. lazy zeta.
  destruct (svtx_vertex_map_get (get_vertex_id tr)) as [v | ]; [ | contradiction].
  do 2 eexists. split; reflexivity.
Qed.

Lemma get_dca_without_vertex (tr : SvtxTrack) (uninit_xy uninit_z : float_nan) :
  svtx_vertex_map_get (get_vertex_id tr) = None ->
  get_dca_ tr uninit_xy uninit_z = (NaN, uninit_z) /\
  impact_parameters svtx_vertex_map_get tr = None.
Proof.
  intros Hv. unfold impact_parameters, get_dca. lazy zeta. rewrite Hv.
  split; reflexivity.
Qed.

Lemma fabs_not_below (v cut : R) : fabs_lt (Num v) cut = false -> cut <= Rabs v.
Proof. simpl. intros H. apply Rltb_false in H. exact H. Qed.

(** A first track that the outer loop goes on with passed its cuts. *)
Lemma track1_cuts_passed (tr1 : SvtxTrack) (uninit_xy uninit_z : float_nan)
    (dca3dxy1 dca3dz1 : float_nan) (has_silicon_1 : Z) :
  track1_cuts_ tr1 uninit_xy uninit_z = Done (Some (dca3dxy1, dca3dz1, has_silicon_1)) ->
  get_quality tr1 <= _qual_cut /\
  (20 <= size_cluster_keys (get_tpc_seed tr1))%Z /\
  reach tr1.
Proof.
  unfold track1_cuts. lazy zeta.
  destruct (svtx_vertex_map_get (get_vertex_id tr1)) as [v | ] eqn:Ev; [ | discriminate].
  destruct (size_tracks v =? 0)%nat; [discriminate | ].
  destruct (_require_mvtx && negb (hasSiliconSeed tr1))%bool; [discriminate | ].
  destruct (get_quality tr1 >? _qual_cut) eqn:Hq; [discriminate | ].
  destruct (size_cluster_keys (get_tpc_seed tr1) <? 20)%Z eqn:Hn; [discriminate | ].
  destruct (get_dca_with_vertex tr1 uninit_xy uninit_z) as (xy & z & Edca & Eip).
  { rewrite Ev. discriminate. }
  rewrite Edca.
  destruct (float_not (Num xy)); [discriminate | ].
  destruct (fabs_lt (Num xy) _track_dcaxy_cut) eqn:Hxy; [discriminate | ].
  destruct (fabs_lt (Num z) _track_dcaz_cut) eqn:Hz; [discriminate | ].
  intros _.
  unfold Rgtb in Hq. apply Rltb_false in Hq. apply Z.ltb_ge in Hn.
  split; [exact Hq | ]. split; [exact Hn | ].
  exists xy, z. split; [exact Eip | ].
  split; apply fabs_not_below; assumption.
Qed.

(** The inner loop body emits for a second track with a vertex only if the
    second track and the pair passed their cuts. *)
Lemma process_pair_passed (tr1 tr2 : SvtxTrack) (dca3dxy1 dca3dz1 : float_nan)
    (has_silicon_1 : Z) (uninit_xy uninit_z : float_nan) (uninit_1 uninit_2 : Vector2d)
    (outs : list Output) :
  svtx_vertex_map_get (get_vertex_id tr2) <> None ->
  process_pair_ tr1 dca3dxy1 dca3dz1 has_silicon_1 tr2 uninit_xy uninit_z
    uninit_1 uninit_2 = Done outs ->
  outs <> [] ->
  get_quality tr2 <= _qual_cut /\
  (20 <= size_cluster_keys (get_tpc_seed tr2))%Z /\
  get_charge tr2 <> get_charge tr1 /\
  reach tr2 /\
  forall o, In o outs ->
    exists row,
      In (ntp_Fill row) outs /\
      (o = ntp_Fill row \/
       o = recomass_Fill (row_invariantPt row) (row_invariantMass row)) /\
      candidate_of tr1 tr2 row.
Proof.
  intros Hv. unfold process_pair. lazy zeta.
  destruct (_require_mvtx && negb (hasSiliconSeed tr2))%bool;
    [intros H; injection H as <-; contradiction | ].
  destruct (get_charge tr2 =? get_charge tr1)%Z eqn:Hc;
    [intros H; injection H as <-; contradiction | ].
  destruct (get_quality tr2 >? _qual_cut) eqn:Hq;
    [intros H; injection H as <-; contradiction | ].
  destruct (size_cluster_keys (get_tpc_seed tr2) <? 20)%Z eqn:Hn;
    [intros H; injection H as <-; contradiction | ].
  destruct (get_dca_with_vertex tr2 uninit_xy uninit_z Hv) as (xy & z & Edca & Eip).
  rewrite Edca.
  destruct (float_not (Num xy)); [intros H; injection H as <-; contradiction | ].
  destruct (fabs_lt (Num xy) _track_dcaxy_cut) eqn:Hxy;
    [intros H; injection H as <-; contradiction | ].
  destruct (fabs_lt (Num z) _track_dcaz_cut) eqn:Hz;
    [intros H; injection H as <-; contradiction | ].
  destruct (findTwoTrackIntersection _ _ _ _ tr1 tr2 uninit_1 uninit_2)
    as [[found intersection_0] intersection_1].
  destruct (negb found); [intros H; injection H as <-; contradiction | ].
  destruct (process_intersection_ tr1 tr2 dca3dxy1 dca3dz1 (Num xy) (Num z) has_silicon_1
              (if hasSiliconSeed tr2 then 1%Z else 0%Z) intersection_0)
    as [out0 | | ] eqn:E0; simpl; try discriminate.
  destruct (process_intersection_ tr1 tr2 dca3dxy1 dca3dz1 (Num xy) (Num z) has_silicon_1
              (if hasSiliconSeed tr2 then 1%Z else 0%Z) intersection_1)
    as [out1 | | ] eqn:E1; simpl; try discriminate.
  intros H _. injection H as <-.
  unfold Rgtb in Hq. apply Rltb_false in Hq. apply Z.ltb_ge in Hn. apply Z.eqb_neq in Hc.
  split; [exact Hq | ]. split; [exact Hn | ]. split; [exact Hc | ].
  split.
  { exists xy, z. split; [exact Eip | ]. split; apply fabs_not_below; assumption. }
  apply process_intersection_outputs in E0, E1.
  intros o Ho. apply in_app_or in Ho.
  destruct Ho as [Ho | Ho].
  - destruct E0 as [-> | (row & -> & Hrow)]; [destruct Ho | ].
    exists row. split; [apply in_or_app; left; right; left; reflexivity | ].
    split; [ | exact Hrow].
    destruct Ho as [<- | [<- | []]]; [right | left]; reflexivity.
  - destruct E1 as [-> | (row & -> & Hrow)]; [destruct Ho | ].
    exists row. split; [apply in_or_app; right; right; left; reflexivity | ].
    split; [ | exact Hrow].
    destruct Ho as [<- | [<- | []]]; [right | left]; reflexivity.
Qed.

(** The cuts of C5 hold of every pair whose second track has a vertex in
    the vertex map. *)
Lemma pair_cuts_with_vertex (tr1 tr2 : SvtxTrack) :
  svtx_vertex_map_get (get_vertex_id tr2) <> None ->
  pair_cuts_spec svtx_vertex_map_get getTrackletClusters circle_fit_by_taubin line_fit
    projectTrackToCylinder Verbosity _require_mvtx _qual_cut _track_dcaxy_cut
    _track_dcaz_cut _max_intersection_radius _projected_track_z_cut
    _two_track_dcacut _min_path_cut decaymass tr1 tr2.
Proof.
  intros Hv uninit_xy uninit_z uninit_1 uninit_2 outs. unfold pair_outputs.
  destruct (track1_cuts_ tr1 uninit_xy uninit_z) as [[[[d1 d2] s1] | ] | | ] eqn:E1;
    simpl; try discriminate.
  - intros Hpair Hne.
    apply track1_cuts_passed in E1. destruct E1 as (Q1 & N1 & R1).
    destruct (process_pair_passed _ _ _ _ _ _ _ _ _ _ Hv Hpair Hne)
      as (Q2 & N2 & C & R2 & Hrows).
    unfold candidate_cuts.
    split; [exact Q1 | ]. split; [exact Q2 | ]. split; [exact N1 | ].
    split; [exact N2 | ]. split; [exact C | ]. split; [lia | ].
    split; [exact R1 | ]. split; [exact R2 | ].
    intros o Ho. destruct (Hrows o Ho) as (row & Hin & Hor & T1 & T2 & D & P1 & P2).
    exists row. repeat split; assumption.
  - intros H Hne. injection H as <-. contradiction.
Qed.

End PairCuts.

(** *** A candidate for a track without vertex *)

Section SamePoint.

Import SecondaryVertexFinder.

(** Two lines through one point, not parallel: the distance is zero and
    both points of closest approach are that point. *)
Lemma dcaTwoLines_same_point (a b1 b2 PCA1 PCA2 : Vector3d) :
  norm (cross b1 b2) <> 0 -> dot b2 b1 <> 0 ->
  dot b1 b2 - dot b1 b1 * dot b2 b2 / dot b2 b1 <> 0 ->
  value (dcaTwoLines a b1 a b2 PCA1 PCA2) = (0, a, a).
Proof.
  intros Hn _ _. unfold dcaTwoLines. lazy zeta.
  replace (norm (cross b1 b2) =? 0) with false by (symmetry; apply Reqb_false; exact Hn).
  unfold dbind, ddiv, dret, value. simpl.
  destruct a as [ax ay az]. unfold sub3d, add3d, scale3d, dot. simpl.
  f_equal; [f_equal | ].
  - unfold Rdiv. ring.
  - f_equal; unfold Rdiv; ring.
  - f_equal; unfold Rdiv; ring.
Qed.

End SamePoint.

Section MissingVertexRun.

Import SecondaryVertexFinder.
Import MissingVertex.

Lemma example_circles :
  circle_circle_intersection 5 0 0 5 6 0 [] = (true, [3; -4; 3; 4]).
Proof.
  unfold circle_circle_intersection. lazy zeta.
  assert (Ed : norm2d (sub2d (mkVector2d 0 0) (mkVector2d 6 0)) = 6).
  { unfold norm2d, sub2d. simpl. apply sqrt_of_square; lra. }
  rewrite !Ed.
  replace (6 <? Rabs (5 - 5)) with false
    by (symmetry; apply Rltb_false; rewrite Rabs_right; lra).
  unfold Rgtb.
  replace (5 + 5 <? 6) with false by (symmetry; apply Rltb_false; lra).
  assert (Ea : (5 * 5 - 5 * 5 + 6 * 6) / (2 * 6) = 3) by lra.
  rewrite !Ea.
  assert (Eh : sqrt (5 * 5 - 3 * 3) = 4) by (apply sqrt_of_square; lra).
  rewrite !Eh. simpl.
  f_equal. repeat (f_equal; try lra).
Qed.

Lemma example_fits :
  fitClusters clusters circle_fit line 0 (get_tpc_seed track1) = [5; 0; 0; 0; 0] /\
  fitClusters clusters circle_fit line 0 (get_tpc_seed track2) = [5; 6; 0; 0; 0].
Proof. split; reflexivity. Qed.

Lemma example_intersections (intersect1 intersect2 : Vector2d) :
  findTwoTrackIntersection clusters circle_fit line 0 track1 track2 intersect1 intersect2
  = (true, mkVector2d 3 (-4), mkVector2d 3 4).
Proof.
  unfold findTwoTrackIntersection. lazy zeta.
  destruct example_fits as [-> ->]. cbn [length Nat.eqb nth].
  rewrite example_circles. reflexivity.
Qed.

Lemma example_dca_track1 (uninit_xy uninit_z : float_nan) :
  get_dca vertex_map track1 uninit_xy uninit_z = (Num 1, Num 1).
Proof.
  unfold get_dca. lazy zeta. simpl.
  assert (Ephi : atan2 (0 * 0 - 0 * 1) (1 * 1 - 0 * 0) = 0).
  { unfold atan2.
    replace (0 <? 1 * 1 - 0 * 0) with true by (symmetry; apply Rltb_true; lra).
    replace ((0 * 0 - 0 * 1) / (1 * 1 - 0 * 0)) with 0 by lra.
    apply atan_0. }
  rewrite Ephi, cos_0, sin_0.
  f_equal; f_equal; lra.
Qed.

Lemma example_dca_track2 (uninit_xy uninit_z : float_nan) :
  get_dca vertex_map track2 uninit_xy uninit_z = (NaN, uninit_z).
Proof. reflexivity. Qed.

Lemma example_pca :
  value (findPcaTwoLines (mkVector3d 3 (-4) 0) (mkVector3d 1 0 0)
           (mkVector3d 3 (-4) 0) (mkVector3d 3 4 0) (mkVector3d 0 0 0) (mkVector3d 0 0 0))
  = (0, mkVector3d 3 (-4) 0, mkVector3d 3 (-4) 0).
Proof.
  rewrite findPcaTwoLines_unfold. unfold value at 1. simpl fst.
  assert (E1 : unit_direction (mkVector3d 1 0 0) = mkVector3d 1 0 0).
  { unfold unit_direction, div3d, norm, dot. simpl.
    rewrite (sqrt_of_square _ 1) by lra. f_equal; lra. }
  assert (E2 : unit_direction (mkVector3d 3 4 0) = mkVector3d (3 / 5) (4 / 5) 0).
  { unfold unit_direction, div3d, norm, dot. simpl.
    rewrite (sqrt_of_square _ 5) by lra. f_equal; lra. }
  rewrite E1, E2.
  apply dcaTwoLines_same_point.
  - unfold norm, dot, cross. simpl. rewrite (sqrt_of_square _ (4 / 5)) by lra. lra.
  - unfold dot. simpl. lra.
  - unfold dot. simpl. lra.
Qed.

Lemma example_candidate (dca3dxy1 dca3dz1 dca3dxy2 dca3dz2 : float_nan)
    (has_silicon_1 has_silicon_2 : Z) (y : R) :
  y = 4 \/ y = -4 ->
  exists row,
    process_intersection vertex_map project 40 1 0.1 0.2 0 track1 track2
      dca3dxy1 dca3dz1 dca3dxy2 dca3dz2 has_silicon_1 has_silicon_2 (mkVector2d 3 y)
    = Done [recomass_Fill (row_invariantPt row) (row_invariantMass row); ntp_Fill row] /\
    row_dca3dxy2 row = dca3dxy2.
Proof.
  intros Hy. unfold process_intersection. lazy zeta.
  assert (Er : sqrt (3 * 3 + y * y) = 5).
  { apply sqrt_of_square; [lra | ]. destruct Hy as [-> | ->]; lra. }
  unfold norm2d. simpl v2_0. simpl v2_1. rewrite !Er.
  replace (5 =? 0) with false by (symmetry; apply Reqb_false; lra).
  unfold Rgtb.
  replace (40 <? 5) with false by (symmetry; apply Rltb_false; lra).
  replace (project track1 5) with (Some (mkVector3d 3 (-4) 0, mkVector3d 1 0 0))
    by reflexivity.
  replace (project track2 5) with (Some (mkVector3d 3 (-4) 0, mkVector3d 3 4 0))
    by reflexivity.
  cbv beta iota. cbn [v3_2].
  replace (1 <? Rabs (0 - 0)) with false
    by (symmetry; apply Rltb_false; rewrite Rabs_right; lra).
  rewrite example_pca.
  replace (0.1 <? Rabs 0) with false
    by (symmetry; apply Rltb_false; rewrite Rabs_R0; lra).
  replace (vertex_map (get_vertex_id track1)) with (Some (mkSvtxVertex 0 0 0 2))
    by reflexivity.
  cbv beta iota. cbn [vertex_x vertex_y vertex_z].
  assert (Ep : norm (sub3d (div3d (add3d (mkVector3d 3 (-4) 0) (mkVector3d 3 (-4) 0)) 2.0)
                       (mkVector3d 0 0 0)) = 5).
  { unfold norm, dot, sub3d, div3d, add3d. simpl. apply sqrt_of_square; lra. }
  rewrite !Ep.
  replace (0.2 <? 5) with true by (symmetry; apply Rltb_true; lra).
  match goal with |- context [ntp_Fill ?r] => exists r end.
  split; reflexivity.
Qed.

(** C5 fails on the code: the pair of the event above yields candidates
    although the second track, whose vertex is not in the map, has no
    impact parameter.  [get_dca] leaves [dca3dxy2] not-a-number; the test
    [!dca3dxy2], under which the code prints that [get_dca] returned NAN, is
    true for zero only, and no comparison with not-a-number holds, so that
    both cuts on the impact parameter let the pair through. *)
Theorem candidate_without_impact_parameter :
  exists outs,
    outputs = Done outs /\ outs <> [] /\
    (exists row, In (ntp_Fill row) outs /\ row_dca3dxy2 row = NaN) /\
    impact_parameters vertex_map track2 = None /\
    ~ candidate_cuts vertex_map 10 0.1 0.1 0.1 0.2 track1 track2 outs.
Proof.
  unfold outputs, pair_outputs.
  assert (Habs1 : (Rabs 1 <? 0.1) = false)
    by (apply Rltb_false; rewrite Rabs_R1; lra).
  assert (Hq : (1 >? 10) = false) by (apply Rltb_false; lra).
  assert (E1 : track1_cuts vertex_map false 10 0.1 0.1 track1 NaN (Num 1)
               = Done (Some (Num 1, Num 1, 0%Z))).
  { unfold track1_cuts. lazy zeta.
    replace (vertex_map (get_vertex_id track1)) with (Some (mkSvtxVertex 0 0 0 2))
      by reflexivity.
    cbv beta iota.
    replace (size_tracks (mkSvtxVertex 0 0 0 2) =? 0)%nat with false by reflexivity.
    replace (hasSiliconSeed track1) with false by reflexivity.
    replace (get_quality track1) with 1 by reflexivity.
    replace (size_cluster_keys (get_tpc_seed track1) <? 20)%Z with false by reflexivity.
    rewrite example_dca_track1, Hq. cbn [andb negb float_not fabs_lt].
    replace (1 =? 0) with false by (symmetry; apply Reqb_false; lra).
    rewrite Habs1. reflexivity. }
  rewrite E1. cbn [obind].
  unfold process_pair. lazy zeta.
  replace (hasSiliconSeed track2) with false by reflexivity.
  replace (get_charge track2 =? get_charge track1)%Z with false by reflexivity.
  replace (get_quality track2) with 1 by reflexivity.
  replace (size_cluster_keys (get_tpc_seed track2) <? 20)%Z with false by reflexivity.
  rewrite example_dca_track2, example_intersections, Hq.
  cbn [andb negb float_not fabs_lt]. rewrite Habs1.
  destruct (example_candidate (Num 1) (Num 1) NaN (Num 1) 0 0 (-4) (or_intror eq_refl))
    as (row0 & E0 & D0).
  destruct (example_candidate (Num 1) (Num 1) NaN (Num 1) 0 0 4 (or_introl eq_refl))
    as (row1 & E4 & D4).
  rewrite E0. cbn [obind]. rewrite E4. cbn [obind].
  eexists. split; [reflexivity | ].
  assert (Hip : impact_parameters vertex_map track2 = None) by reflexivity.
  split; [discriminate | ].
  split; [exists row0; split; [right; left; reflexivity | exact D0] | ].
  split; [exact Hip | ].
  intros (_ & _ & _ & _ & _ & _ & _ & (xy & z & Habs & _) & _).
  rewrite Hip in Habs. discriminate.
Qed.

End MissingVertexRun.

(** *** Tangent and nearly tangent circles *)

Section Tangency.

Import SecondaryVertexFinder.

(** Within the tolerance the single point is on the line of the centres,
    between the two circles: its distances to the centres are the radii
    plus half the gap, so that it is less than 0.1 away from each circle. *)
Theorem near_tangency_point_between_circles (r0 x0 y0 r1 x1 y1 : R)
    (intersectionXY : list R) :
  0 <= r0 -> 0 <= r1 ->
  r0 + r1 < dist2d (mkVector2d x0 y0) (mkVector2d x1 y1) < r0 + r1 + 0.2 ->
  exists x y,
    circle_circle_intersection r0 x0 y0 r1 x1 y1 intersectionXY
    = (true, intersectionXY ++ [x; y]) /\
    let gap := dist2d (mkVector2d x0 y0) (mkVector2d x1 y1) - (r0 + r1) in
    dist2d (mkVector2d x y) (mkVector2d x0 y0) = r0 + gap / 2 /\
    dist2d (mkVector2d x y) (mkVector2d x1 y1) = r1 + gap / 2 /\
    0 < gap / 2 < 0.1.
Proof.
  intros Hr0 Hr1 Hd.
  assert (Hlo : Rabs (r0 - r1) <= dist2d (mkVector2d x0 y0) (mkVector2d x1 y1)).
  { unfold Rabs. destruct (Rcase_abs (r0 - r1)); lra. }
  do 2 eexists. split; [apply cci_near_tangency; assumption | ].
  lazy zeta.
  pose proof (dist2d_square x0 y0 x1 y1) as Hsq.
  unfold midpoint, nearest_point, dist2d, norm2d, sub2d, add2d, scale2d, div2d in *.
  simpl in *.
  assert (E01 : (x1 - x0) * (x1 - x0) + (y1 - y0) * (y1 - y0)
                = (x0 - x1) * (x0 - x1) + (y0 - y1) * (y0 - y1)) by ring.
  rewrite E01.
  set (dd := sqrt ((x0 - x1) * (x0 - x1) + (y0 - y1) * (y0 - y1))) in *.
  assert (Hdd : 0 < dd) by lra.
  set (ux := (x1 - x0) / dd). set (uy := (y1 - y0) / dd).
  assert (Ex : x1 - x0 = dd * ux) by (unfold ux; field; lra).
  assert (Ey : y1 - y0 = dd * uy) by (unfold uy; field; lra).
  assert (Eu : ux * ux + uy * uy = 1).
  { assert (H : dd * dd * (ux * ux + uy * uy) = dd * dd * 1).
    { replace (dd * dd * (ux * ux + uy * uy))
        with (dd * ux * (dd * ux) + dd * uy * (dd * uy)) by ring.
      rewrite <- Ex, <- Ey, <- Hsq. ring. }
    apply Rmult_eq_reg_l in H; [exact H | ].
    apply Rgt_not_eq. apply Rmult_lt_0_compat; exact Hdd. }
  replace ((x0 - x1) / dd) with (- ux) by (unfold ux; field; lra).
  replace ((y0 - y1) / dd) with (- uy) by (unfold uy; field; lra).
  split; [ | split; [ | lra]].
  - apply sqrt_of_square; [lra | ].
    replace ((x0 + ux * r0 + (x1 + - ux * r1)) / 2 - x0)
      with ((r0 + (dd - (r0 + r1)) / 2) * ux) by lra.
    replace ((y0 + uy * r0 + (y1 + - uy * r1)) / 2 - y0)
      with ((r0 + (dd - (r0 + r1)) / 2) * uy) by lra.
    replace ((r0 + (dd - (r0 + r1)) / 2) * ux * ((r0 + (dd - (r0 + r1)) / 2) * ux)
             + (r0 + (dd - (r0 + r1)) / 2) * uy * ((r0 + (dd - (r0 + r1)) / 2) * uy))
      with ((r0 + (dd - (r0 + r1)) / 2) * (r0 + (dd - (r0 + r1)) / 2)
            * (ux * ux + uy * uy)) by ring.
    rewrite Eu. ring.
  - apply sqrt_of_square; [lra | ].
    replace ((x0 + ux * r0 + (x1 + - ux * r1)) / 2 - x1)
      with (- (r1 + (dd - (r0 + r1)) / 2) * ux) by lra.
    replace ((y0 + uy * r0 + (y1 + - uy * r1)) / 2 - y1)
      with (- (r1 + (dd - (r0 + r1)) / 2) * uy) by lra.
    replace (- (r1 + (dd - (r0 + r1)) / 2) * ux * (- (r1 + (dd - (r0 + r1)) / 2) * ux)
             + - (r1 + (dd - (r0 + r1)) / 2) * uy * (- (r1 + (dd - (r0 + r1)) / 2) * uy))
      with ((r1 + (dd - (r0 + r1)) / 2) * (r1 + (dd - (r0 + r1)) / 2)
            * (ux * ux + uy * uy)) by ring.
    rewrite Eu. ring.
Qed.

End Tangency.

Lemma dist_example_near : dist2d (mkVector2d 0 0) (mkVector2d 2.1 0) = 2.1.
Proof. unfold dist2d, norm2d, sub2d. simpl. apply sqrt_of_square; lra. Qed.

Lemma near_tangency_point_between_circles_witness :
  0 <= 1 /\ 0 <= 1 /\
  1 + 1 < dist2d (mkVector2d 0 0) (mkVector2d 2.1 0) < 1 + 1 + 0.2 /\
  exists x y,
    SecondaryVertexFinder.circle_circle_intersection 1 0 0 1 2.1 0 []
    = (true, [] ++ [x; y]) /\
    let gap := dist2d (mkVector2d 0 0) (mkVector2d 2.1 0) - (1 + 1) in
    dist2d (mkVector2d x y) (mkVector2d 0 0) = 1 + gap / 2 /\
    dist2d (mkVector2d x y) (mkVector2d 2.1 0) = 1 + gap / 2 /\
    0 < gap / 2 < 0.1.
Proof.
  assert (H0 : 0 <= 1) by lra.
  assert (Hd : 1 + 1 < dist2d (mkVector2d 0 0) (mkVector2d 2.1 0) < 1 + 1 + 0.2)
    by (rewrite dist_example_near; lra).
  split; [exact H0 | ]. split; [exact H0 | ]. split; [exact Hd | ].
  exact (near_tangency_point_between_circles 1 0 0 1 2.1 0 [] H0 H0 Hd).
Defined.

Section NearTangencyRun.

Import SecondaryVertexFinder.

Lemma near_tangent_circles :
  circle_circle_intersection 1 0 0 1 2.1 0 [] = (true, [1.05; 0]).
Proof.
  rewrite cci_near_tangency.
  - unfold midpoint, nearest_point, norm2d, sub2d, add2d, scale2d, div2d. simpl.
    rewrite (sqrt_of_square ((2.1 - 0) * (2.1 - 0) + (0 - 0) * (0 - 0)) 2.1) by lra.
    rewrite (sqrt_of_square ((0 - 2.1) * (0 - 2.1) + (0 - 0) * (0 - 0)) 2.1) by lra.
    f_equal. repeat (f_equal; try lra).
  - rewrite dist_example_near. rewrite Rabs_right; lra.
  - rewrite dist_example_near. lra.
Qed.

End NearTangencyRun.

Lemma single_intersection_leaves_intersect2_witness :
  SecondaryVertexFinder.fitClusters MissingVertex.clusters NearTangency.circle_fit
    MissingVertex.line 0 (SecondaryVertexFinder.get_tpc_seed MissingVertex.track1) <> [] /\
  SecondaryVertexFinder.fitClusters MissingVertex.clusters NearTangency.circle_fit
    MissingVertex.line 0 (SecondaryVertexFinder.get_tpc_seed MissingVertex.track2) <> [] /\
  SecondaryVertexFinder.findTwoTrackIntersection MissingVertex.clusters
    NearTangency.circle_fit MissingVertex.line 0 MissingVertex.track1 MissingVertex.track2
    (mkVector2d 7 8) (mkVector2d 9 10)
  = (true, mkVector2d 1.05 0, mkVector2d 9 10).
Proof.
  assert (H1 : SecondaryVertexFinder.fitClusters MissingVertex.clusters
                 NearTangency.circle_fit MissingVertex.line 0
                 (SecondaryVertexFinder.get_tpc_seed MissingVertex.track1) <> [])
    by discriminate.
  assert (H2 : SecondaryVertexFinder.fitClusters MissingVertex.clusters
                 NearTangency.circle_fit MissingVertex.line 0
                 (SecondaryVertexFinder.get_tpc_seed MissingVertex.track2) <> [])
    by discriminate.
  split; [exact H1 | ]. split; [exact H2 | ].
  exact (single_intersection_leaves_intersect2 MissingVertex.clusters
           NearTangency.circle_fit MissingVertex.line 0
           MissingVertex.track1 MissingVertex.track2 (mkVector2d 7 8) (mkVector2d 9 10)
           1.05 0 H1 H2 near_tangent_circles).
Defined.

(** *** dcaTwoLines computes the closest approach *)

Section ClosestApproachCorrect.

Import SecondaryVertexFinder.

Lemma dot_comm (a b : Vector3d) : dot a b = dot b a.
Proof. unfold dot. ring. Qed.

Lemma dot_self_nonneg (a : Vector3d) : 0 <= dot a a.
Proof.
  unfold dot.
  pose proof (Rle_0_sqr (v3_0 a)). pose proof (Rle_0_sqr (v3_1 a)).
  pose proof (Rle_0_sqr (v3_2 a)). unfold Rsqr in *. lra.
Qed.

Lemma norm_square (a : Vector3d) : norm a * norm a = dot a a.
Proof. unfold norm. apply sqrt_sqrt, dot_self_nonneg. Qed.

Lemma norm_nonneg (a : Vector3d) : 0 <= norm a.
Proof. unfold norm. apply sqrt_pos. Qed.

(** Lagrange's identity. *)
Lemma cross_norm_square (a b : Vector3d) :
  dot (cross a b) (cross a b) = dot a a * dot b b - dot a b * dot a b.
Proof. unfold dot, cross. simpl. ring. Qed.

Lemma cross_orthogonal (a b : Vector3d) :
  dot (cross a b) a = 0 /\ dot (cross a b) b = 0.
Proof. unfold dot, cross. simpl. split; ring. Qed.

(** The value of [dcaTwoLines] on directions that are not parallel. *)
Lemma dcaTwoLines_value (a1 b1 a2 b2 PCA1 PCA2 : Vector3d) :
  norm (cross b1 b2) <> 0 ->
  value (dcaTwoLines a1 b1 a2 b2 PCA1 PCA2) =
  (dot (cross b1 b2) (sub3d a2 a1) / norm (cross b1 b2),
   add3d a1 (scale3d (pca_c a1 b1 a2 b2) b1),
   add3d a2 (scale3d (pca_d a1 b1 a2 b2) b2)).
Proof.
  intros Hn. unfold dcaTwoLines. lazy zeta.
  replace (norm (cross b1 b2) =? 0) with false by (symmetry; apply Reqb_false; exact Hn).
  reflexivity.
Qed.

Lemma pca_scalars_orthogonal (p q m e1 e2 : R) :
  m <> 0 -> m - p * q / m <> 0 ->
  let c := (e2 - e1 * q / m) / (m - p * q / m) in
  let d := c * (p / m) + - e1 / m in
  e1 + d * m - c * p = 0 /\ e2 + d * q - c * m = 0.
Proof.
  intros Hm HX. lazy zeta.
  assert (HX' : m * m - p * q <> 0).
  { intros H. apply HX. field_simplify; [ | exact Hm].
    replace (m ^ 2 - p * q) with (m * m - p * q) by ring. rewrite H.
    unfold Rdiv. ring. }
  split; field; split; assumption.
Qed.

Lemma pca_X_nonzero (b1 b2 : Vector3d) :
  norm (cross b1 b2) <> 0 -> dot b2 b1 <> 0 -> pca_X b1 b2 <> 0.
Proof.
  intros Hn Hm HX. apply Hn.
  unfold norm. rewrite cross_norm_square.
  unfold pca_X in HX. rewrite (dot_comm b1 b2) in *.
  assert (E : dot b2 b1 * dot b2 b1 = dot b1 b1 * dot b2 b2).
  { apply Rminus_diag_uniq.
    replace (dot b2 b1 * dot b2 b1 - dot b1 b1 * dot b2 b2)
      with (dot b2 b1 * (dot b2 b1 - dot b1 b1 * dot b2 b2 / dot b2 b1))
      by (field; exact Hm).
    rewrite HX. ring. }
  rewrite E. replace (dot b1 b1 * dot b2 b2 - dot b1 b1 * dot b2 b2) with 0 by ring.
  apply sqrt_0.
Qed.

Variables a1 b1 a2 b2 : Vector3d.

Hypothesis not_parallel : norm (cross b1 b2) <> 0.
Hypothesis not_perpendicular : dot b2 b1 <> 0.

Local Abbreviation c := (pca_c a1 b1 a2 b2).
Local Abbreviation d := (pca_d a1 b1 a2 b2).
Local Abbreviation w :=
  (sub3d (add3d a2 (scale3d d b2)) (add3d a1 (scale3d c b1))).

Lemma pca_segment_orthogonal : dot w b1 = 0 /\ dot w b2 = 0.
Proof.
  pose proof (pca_X_nonzero b1 b2 not_parallel not_perpendicular) as HX.
  unfold pca_X in HX. rewrite (dot_comm b1 b2) in HX.
  destruct (pca_scalars_orthogonal (dot b1 b1) (dot b2 b2) (dot b2 b1)
              (dot a2 b1 - dot a1 b1) (dot a2 b2 - dot a1 b2) not_perpendicular HX)
    as [H1 H2].
  assert (Ec : c = (dot a2 b2 - dot a1 b2 - (dot a2 b1 - dot a1 b1) * dot b2 b2 / dot b2 b1)
                   / (dot b2 b1 - dot b1 b1 * dot b2 b2 / dot b2 b1)).
  { unfold pca_c, pca_Y, pca_X. rewrite (dot_comm b1 b2). reflexivity. }
  assert (Ed : d = c * (dot b1 b1 / dot b2 b1) + - (dot a2 b1 - dot a1 b1) / dot b2 b1)
    by reflexivity.
  rewrite <- Ec in H1, H2. rewrite <- Ed in H1, H2.
  split.
  - rewrite <- H1. generalize c d. intros c0 d0.
    unfold dot, sub3d, add3d, scale3d. simpl. ring.
  - rewrite <- H2. generalize c d. intros c0 d0.
    unfold dot, sub3d, add3d, scale3d. simpl. ring.
Qed.

Lemma pca_segment_along_normal :
  dot w (cross b1 b2) = dot (cross b1 b2) (sub3d a2 a1) /\
  dot w w * dot (cross b1 b2) (cross b1 b2)
  = dot w (cross b1 b2) * dot w (cross b1 b2).
Proof.
  destruct pca_segment_orthogonal as [H1 H2]. split.
  - generalize c d. intros c0 d0.
    unfold dot, sub3d, add3d, scale3d, cross. simpl. ring.
  - revert H1 H2. generalize w. intros v H1 H2.
    assert (E : dot v v * dot (cross b1 b2) (cross b1 b2)
                - dot v (cross b1 b2) * dot v (cross b1 b2)
                = dot b1 b1 * (dot v b2 * dot v b2) + dot b2 b2 * (dot v b1 * dot v b1)
                  - 2 * dot b1 b2 * (dot v b1 * dot v b2)).
    { unfold dot, cross. simpl. ring. }
    rewrite H1, H2 in E. lra.
Qed.

Lemma pca_segment_shortest (s t : R) :
  norm w <= norm (sub3d (add3d a2 (scale3d t b2)) (add3d a1 (scale3d s b1))).
Proof.
  destruct pca_segment_orthogonal as [H1 H2].
  unfold norm. apply sqrt_le_1_alt.
  set (v := sub3d (scale3d (t - d) b2) (scale3d (s - c) b1)).
  assert (E : dot (sub3d (add3d a2 (scale3d t b2)) (add3d a1 (scale3d s b1)))
                  (sub3d (add3d a2 (scale3d t b2)) (add3d a1 (scale3d s b1)))
              = dot w w + dot v v + 2 * ((t - d) * dot w b2 - (s - c) * dot w b1)).
  { unfold v. generalize c d. intros c0 d0.
    unfold dot, sub3d, add3d, scale3d. simpl. ring. }
  rewrite E, H1, H2. pose proof (dot_self_nonneg v). lra.
Qed.


End ClosestApproachCorrect.


Section ClosestApproachOfMomenta.

Import SecondaryVertexFinder.

Lemma norm_zero_vector (v : Vector3d) : norm v = 0 -> v = mkVector3d 0 0 0.
Proof.
  intros H. apply norm_zero_components in H. destruct H as (H0 & H1 & H2).
  destruct v. simpl in *. subst. reflexivity.
Qed.

Lemma cross_zero_l (b : Vector3d) : norm (cross (mkVector3d 0 0 0) b) = 0.
Proof.
  unfold norm, dot, cross. simpl. apply sqrt_of_square; [lra | ring].
Qed.

Lemma cross_zero_r (a : Vector3d) : norm (cross a (mkVector3d 0 0 0)) = 0.
Proof.
  unfold norm, dot, cross. simpl. apply sqrt_of_square; [lra | ring].
Qed.

Lemma unit_direction_scaled (mom : Vector3d) :
  norm mom <> 0 -> scale3d (norm mom) (unit_direction mom) = mom.
Proof.
  intros Hn. destruct mom as [m0 m1 m2].
  unfold unit_direction, scale3d, div3d.
  set (n := norm (mkVector3d m0 m1 m2)) in *. simpl.
  f_equal; field; exact Hn.
Qed.

Lemma scale_unit (t : R) (mom : Vector3d) :
  norm mom <> 0 -> scale3d (t / norm mom) mom = scale3d t (unit_direction mom).
Proof.
  intros Hn. destruct mom as [m0 m1 m2].
  unfold unit_direction, scale3d, div3d.
  set (n := norm (mkVector3d m0 m1 m2)) in *. simpl.
  f_equal; field; exact Hn.
Qed.

Lemma scale_momentum (t : R) (mom : Vector3d) :
  norm mom <> 0 -> scale3d t mom = scale3d (t * norm mom) (unit_direction mom).
Proof.
  intros Hn. destruct mom as [m0 m1 m2].
  unfold unit_direction, scale3d, div3d.
  set (n := norm (mkVector3d m0 m1 m2)) in *. simpl.
  f_equal; field; exact Hn.
Qed.

Lemma dot_scale_r (t : R) (a b : Vector3d) : dot a (scale3d t b) = t * dot a b.
Proof. unfold dot, scale3d. simpl. ring. Qed.

Variables pos1 mom1 pos2 mom2 : Vector3d.

Hypothesis not_parallel : norm (cross mom1 mom2) <> 0.
Hypothesis not_perpendicular : dot mom2 mom1 <> 0.

Lemma momenta_nonzero : norm mom1 <> 0 /\ norm mom2 <> 0.
Proof.
  split; intros H; apply norm_zero_vector in H; apply not_parallel; rewrite H.
  - apply cross_zero_l.
  - apply cross_zero_r.
Qed.

Lemma unit_directions_not_parallel :
  norm (cross (unit_direction mom1) (unit_direction mom2)) <> 0.
Proof.
  destruct momenta_nonzero as [H1 H2]. intros H.
  apply not_parallel.
  rewrite <- (unit_direction_scaled mom1 H1), <- (unit_direction_scaled mom2 H2).
  set (u1 := unit_direction mom1) in *. set (u2 := unit_direction mom2) in *.
  clearbody u1 u2.
  apply norm_zero_components in H. destruct H as (E0 & E1 & E2).
  unfold cross in E0, E1, E2. simpl in E0, E1, E2.
  unfold norm at 1. unfold dot, cross, scale3d. simpl.
  apply sqrt_of_square; [lra | ].
  replace (norm mom1 * v3_1 u1 * (norm mom2 * v3_2 u2)
           - norm mom1 * v3_2 u1 * (norm mom2 * v3_1 u2))
    with (norm mom1 * norm mom2 * (v3_1 u1 * v3_2 u2 - v3_2 u1 * v3_1 u2)) by ring.
  replace (norm mom1 * v3_2 u1 * (norm mom2 * v3_0 u2)
           - norm mom1 * v3_0 u1 * (norm mom2 * v3_2 u2))
    with (norm mom1 * norm mom2 * (v3_2 u1 * v3_0 u2 - v3_0 u1 * v3_2 u2)) by ring.
  replace (norm mom1 * v3_0 u1 * (norm mom2 * v3_1 u2)
           - norm mom1 * v3_1 u1 * (norm mom2 * v3_0 u2))
    with (norm mom1 * norm mom2 * (v3_0 u1 * v3_1 u2 - v3_1 u1 * v3_0 u2)) by ring.
  rewrite E0, E1, E2. ring.
Qed.

Lemma unit_directions_not_perpendicular :
  dot (unit_direction mom2) (unit_direction mom1) <> 0.
Proof.
  destruct momenta_nonzero as [H1 H2]. intros H.
  apply not_perpendicular.
  rewrite <- (unit_direction_scaled mom1 H1), <- (unit_direction_scaled mom2 H2).
  set (u1 := unit_direction mom1) in *. set (u2 := unit_direction mom2) in *.
  clearbody u1 u2.
  replace (dot (scale3d (norm mom2) u2) (scale3d (norm mom1) u1))
    with (norm mom2 * norm mom1 * dot u2 u1) by (unfold dot, scale3d; simpl; ring).
  rewrite H. ring.
Qed.


End ClosestApproachOfMomenta.


(** *** findPcaRZ *)

Section PcaRZ.

Import SecondaryVertexFinder.

(** Whenever [findPcaRZ] fails it leaves [PCA] alone; for two tracks of
    different slopes, when it succeeds the point it writes has a radius
    that is not negative and lies on the lines of both tracks in the plane
    of radius and [z]. *)
Theorem findPcaRZ_meets_both_lines (tr1 tr2 : SvtxTrack) (PCA : Vector2d) :
  track_pT tr1 <> 0 -> track_pT tr2 <> 0 ->
  track_dzdr tr1 <> track_dzdr tr2 ->
  (fst (findPcaRZ tr1 tr2 PCA) = false -> snd (findPcaRZ tr1 tr2 PCA) = PCA) /\
  (fst (findPcaRZ tr1 tr2 PCA) = true ->
   let P := snd (findPcaRZ tr1 tr2 PCA) in
   0 <= v2_0 P /\
   on_rz_line tr1 (v2_0 P) (v2_1 P) /\ on_rz_line tr2 (v2_0 P) (v2_1 P)).
Proof.
  intros _ _. unfold findPcaRZ. lazy zeta.
  fold (track_pT tr1) (track_pT tr2) (track_radius tr1) (track_radius tr2).
  fold (track_dzdr tr1) (track_dzdr tr2).
  set (s1 := track_dzdr tr1). set (s2 := track_dzdr tr2).
  set (r01 := track_radius tr1). set (r02 := track_radius tr2).
  intros Hs.
  replace (s1 =? s2) with false by (symmetry; apply Reqb_false; exact Hs).
  set (rint := (r01 * s1 - r02 * s2 + get_z tr2 - get_z tr1) / (s1 - s2)).
  destruct (rint <? 0) eqn:Hr; [apply Rltb_true in Hr | apply Rltb_false in Hr]; simpl.
  - split; [reflexivity | discriminate].
  - split; [discriminate | ].
    intros _. split; [exact Hr | ].
    unfold on_rz_line. fold s1 s2 r01 r02. split; [reflexivity | ].
    assert (E : rint * (s1 - s2) = r01 * s1 - r02 * s2 + get_z tr2 - get_z tr1).
    { unfold rint. field. lra. }
    lra.
Qed.

End PcaRZ.

(** The two tracks of [CrossingTracks] meet at radius 2 and [z = 1]. *)
Lemma findPcaRZ_meets_both_lines_witness :
  track_pT CrossingTracks.track1 <> 0 /\ track_pT CrossingTracks.track2 <> 0 /\
  track_dzdr CrossingTracks.track1 <> track_dzdr CrossingTracks.track2 /\
  SecondaryVertexFinder.findPcaRZ CrossingTracks.track1 CrossingTracks.track2
    (mkVector2d 0 0) = (true, mkVector2d 2 1) /\
  0 <= 2 /\
  on_rz_line CrossingTracks.track1 2 1 /\ on_rz_line CrossingTracks.track2 2 1.
Proof.
  assert (Ep : forall tr, tr = CrossingTracks.track1 \/ tr = CrossingTracks.track2 ->
                          track_pT tr = 1).
  { intros tr [-> | ->]; unfold track_pT; simpl; apply sqrt_of_square; lra. }
  assert (Er : forall tr, tr = CrossingTracks.track1 \/ tr = CrossingTracks.track2 ->
                          track_radius tr = 1).
  { intros tr [-> | ->]; unfold track_radius; simpl; apply sqrt_of_square; lra. }
  assert (E1 : track_dzdr CrossingTracks.track1 = 1).
  { unfold track_dzdr. rewrite Ep by (left; reflexivity). simpl. lra. }
  assert (E2 : track_dzdr CrossingTracks.track2 = -1).
  { unfold track_dzdr. rewrite Ep by (right; reflexivity). simpl. lra. }
  assert (H1 : track_pT CrossingTracks.track1 <> 0)
    by (rewrite Ep by (left; reflexivity); lra).
  assert (H2 : track_pT CrossingTracks.track2 <> 0)
    by (rewrite Ep by (right; reflexivity); lra).
  assert (Hs : track_dzdr CrossingTracks.track1 <> track_dzdr CrossingTracks.track2)
    by (rewrite E1, E2; lra).
  assert (E : SecondaryVertexFinder.findPcaRZ CrossingTracks.track1 CrossingTracks.track2
                (mkVector2d 0 0) = (true, mkVector2d 2 1)).
  { unfold SecondaryVertexFinder.findPcaRZ. lazy zeta.
    fold (track_pT CrossingTracks.track1) (track_pT CrossingTracks.track2).
    fold (track_radius CrossingTracks.track1) (track_radius CrossingTracks.track2).
    fold (track_dzdr CrossingTracks.track1) (track_dzdr CrossingTracks.track2).
    rewrite E1, E2, !Er by (first [left; reflexivity | right; reflexivity]).
    replace (1 =? -1) with false by (symmetry; apply Reqb_false; lra).
    simpl.
    replace ((1 * 1 - 1 * -1 + 2 - 0) / (1 - -1)) with 2 by lra.
    replace (2 <? 0) with false by (symmetry; apply Rltb_false; lra).
    f_equal. f_equal. lra. }
  split; [exact H1 | ]. split; [exact H2 | ]. split; [exact Hs | ].
  split; [exact E | ].
  pose proof (proj2 (findPcaRZ_meets_both_lines CrossingTracks.track1
                       CrossingTracks.track2 (mkVector2d 0 0) H1 H2 Hs)) as H.
  rewrite E in H. exact (H eq_refl).
Defined.

(** *** fitClusters and findTwoTrackIntersection *)

Section Fits.

Import SecondaryVertexFinder.

Variable getTrackletClusters : TrackSeed -> list (Vector3d * nat).
Variable circle_fit_by_taubin : list Vector3d -> R * R * R.
Variable line_fit : list Vector3d -> R * R.
Variable Verbosity : Z.

Local Abbreviation fitClusters_ :=
  (fitClusters getTrackletClusters circle_fit_by_taubin line_fit Verbosity).
Local Abbreviation findTwoTrackIntersection_ :=
  (findTwoTrackIntersection getTrackletClusters circle_fit_by_taubin line_fit Verbosity).
Local Abbreviation clusters_noINTT_ := (clusters_noINTT getTrackletClusters).
Local Abbreviation fitted_parameters_ :=
  (fitted_parameters getTrackletClusters circle_fit_by_taubin line_fit).

(** The two tests on the number of clusters only reject a seed when the
    module is verbose: with [Verbosity() <= 0], [fitClusters] fits every
    seed, whatever the number of its clusters; with [Verbosity() > 0] it
    returns no parameter for a seed with fewer than three clusters, or
    fewer than three outside the INTT, and fits the others. *)
Theorem fitClusters_rejects_only_when_verbose (tracklet : TrackSeed) :
  ((Verbosity <= 0)%Z -> fitClusters_ tracklet = fitted_parameters_ tracklet) /\
  ((0 < Verbosity)%Z ->
   ((length (getTrackletClusters tracklet) < 3)%nat \/
    (length (clusters_noINTT_ tracklet) < 3)%nat -> fitClusters_ tracklet = []) /\
   ((3 <= length (getTrackletClusters tracklet))%nat ->
    (3 <= length (clusters_noINTT_ tracklet))%nat ->
    fitClusters_ tracklet = fitted_parameters_ tracklet)).
Proof.
  unfold fitClusters, fitted_parameters, clusters_noINTT. lazy zeta.
  rewrite length_map.
  split.
  - intros Hv.
    replace (Verbosity >? 0)%Z with false
      by (symmetry; rewrite Z.gtb_ltb; apply Z.ltb_ge; exact Hv).
    rewrite !andb_false_r. reflexivity.
  - intros Hv.
    replace (Verbosity >? 0)%Z with true
      by (symmetry; rewrite Z.gtb_ltb; apply Z.ltb_lt; exact Hv).
    rewrite !andb_true_r. split.
    + intros [H | H].
      * apply Nat.ltb_lt in H. rewrite H. reflexivity.
      * destruct (length (getTrackletClusters tracklet) <? 3)%nat; [reflexivity | ].
        apply Nat.ltb_lt in H. rewrite H. reflexivity.
    + intros H1 H2. apply Nat.ltb_ge in H1, H2. rewrite H1, H2. reflexivity.
Qed.

(** [findTwoTrackIntersection] fails exactly when one of the two fits gives
    no parameter or [circle_circle_intersection] fails on the two fitted
    circles, and a failure leaves both reference parameters as they were;
    a success with the two points of the general case writes both. *)
Theorem findTwoTrackIntersection_outcomes (track1 track2 : SvtxTrack)
    (intersect1 intersect2 : Vector2d) :
  let fit1 := fitClusters_ (get_tpc_seed track1) in
  let fit2 := fitClusters_ (get_tpc_seed track2) in
  let circles :=
    circle_circle_intersection (nth 0 fit1 0) (nth 1 fit1 0) (nth 2 fit1 0)
      (nth 0 fit2 0) (nth 1 fit2 0) (nth 2 fit2 0) [] in
  let result := findTwoTrackIntersection_ track1 track2 intersect1 intersect2 in
  (fst (fst result) = false <-> fit1 = [] \/ fit2 = [] \/ fst circles = false) /\
  (fst (fst result) = false -> result = (false, intersect1, intersect2)) /\
  (forall xa ya xb yb,
     fit1 <> [] -> fit2 <> [] -> circles = (true, [xa; ya; xb; yb]) ->
     result = (true, mkVector2d xa ya, mkVector2d xb yb)).
Proof.
  lazy zeta. unfold findTwoTrackIntersection. lazy zeta.
  destruct (fitClusters_ (get_tpc_seed track1)) as [| f1 l1] eqn:E1.
  { simpl. split; [split; [left; reflexivity | reflexivity] | ].
    split; [reflexivity | ]. intros xa ya xb yb H. contradiction. }
  destruct (fitClusters_ (get_tpc_seed track2)) as [| f2 l2] eqn:E2.
  { simpl. split; [split; [right; left; reflexivity | reflexivity] | ].
    split; [reflexivity | ]. intros xa ya xb yb _ H. contradiction. }
  cbn [length Nat.eqb].
  destruct (circle_circle_intersection _ _ _ _ _ _ [])
    as [found intersections] eqn:Ec.
  destruct found; cbn [negb fst snd].
  - split.
    { split; [discriminate | ].
      intros [H | [H | H]]; discriminate. }
    split; [discriminate | ].
    intros xa ya xb yb _ _ H. injection H as ->. reflexivity.
  - split.
    { split; [intros _; right; right; reflexivity | reflexivity]. }
    split; [reflexivity | ].
    intros xa ya xb yb _ _ H. discriminate.
Qed.

End Fits.

(** *** atan2 and get_dca *)

Lemma sqrt_one_plus_ratio (x y : R) :
  x <> 0 -> sqrt (1 + (y / x)²) = sqrt (x * x + y * y) / Rabs x.
Proof.
  intros Hx.
  assert (Hax : 0 < Rabs x) by (apply Rabs_pos_lt; exact Hx).
  replace (1 + (y / x)²) with ((x * x + y * y) / (Rabs x * Rabs x)).
  - rewrite sqrt_div_alt by (apply Rmult_lt_0_compat; exact Hax).
    rewrite sqrt_square by lra. reflexivity.
  - replace (Rabs x * Rabs x) with (x * x).
    + unfold Rsqr. field. exact Hx.
    + unfold Rabs. destruct (Rcase_abs x); ring.
Qed.

(** [atan2] gives the angle of the point [(x, y)]. *)
Lemma atan2_polar (y x : R) :
  0 < sqrt (x * x + y * y) ->
  cos (atan2 y x) = x / sqrt (x * x + y * y) /\
  sin (atan2 y x) = y / sqrt (x * x + y * y).
Proof.
  intros Hr. set (r := sqrt (x * x + y * y)) in *.
  assert (Hrr : r * r = x * x + y * y).
  { unfold r. apply sqrt_sqrt. apply sum_squares_nonneg. }
  unfold atan2.
  destruct (0 <? x) eqn:H1; [apply Rltb_true in H1 | apply Rltb_false in H1].
  { rewrite cos_atan, sin_atan, sqrt_one_plus_ratio by lra. fold r.
    rewrite Rabs_right by lra. split; field; lra. }
  destruct (x <? 0) eqn:H2; [apply Rltb_true in H2 | apply Rltb_false in H2].
  { assert (Hc : cos (atan (y / x)) = - x / r).
    { rewrite cos_atan, sqrt_one_plus_ratio by lra. fold r.
      rewrite Rabs_left by lra. field; lra. }
    assert (Hs : sin (atan (y / x)) = - y / r).
    { rewrite sin_atan, sqrt_one_plus_ratio by lra. fold r.
      rewrite Rabs_left by lra. field; lra. }
    destruct (0 <=? y).
    - rewrite neg_cos, neg_sin, Hc, Hs. split; field; lra.
    - rewrite cos_minus, sin_minus, cos_PI, sin_PI, Hc, Hs. split; field; lra. }
  assert (Hx : x = 0) by lra.
  assert (Hy : r * r = y * y) by (rewrite Hrr, Hx; ring).
  destruct (0 <? y) eqn:H3; [apply Rltb_true in H3 | apply Rltb_false in H3].
  { assert (Hry : r = y) by nra.
    rewrite cos_PI2, sin_PI2, Hry, Hx. split; field; lra. }
  destruct (y <? 0) eqn:H4; [apply Rltb_true in H4 | apply Rltb_false in H4].
  { assert (Hry : r = - y) by nra.
    rewrite cos_neg, sin_neg, cos_PI2, sin_PI2, Hry, Hx. split; field; lra. }
  assert (y = 0) by lra. nra.
Qed.

Section Dca.

Import SecondaryVertexFinder.

Variable svtx_vertex_map_get : nat -> option SvtxVertex.

(** [get_dca]: for a track whose vertex is not in the map the transverse
    parameter is not-a-number and the longitudinal one is left as it was;
    otherwise the longitudinal parameter is the difference of the [z] of
    the track and of its vertex, the magnitude of the transverse parameter
    is at most the transverse distance of the track position to the vertex,
    and for a track with transverse momentum the transverse parameter is
    [(py dx + px dy) / pT]. *)
Theorem get_dca_parameters (track : SvtxTrack) (dca3dxy dca3dz : float_nan) :
  (svtx_vertex_map_get (get_vertex_id track) = None ->
   get_dca svtx_vertex_map_get track dca3dxy dca3dz = (NaN, dca3dz)) /\
  (forall vertex, svtx_vertex_map_get (get_vertex_id track) = Some vertex ->
   exists xy,
     get_dca svtx_vertex_map_get track dca3dxy dca3dz
     = (Num xy, Num (longitudinal_parameter track vertex)) /\
     Rabs xy <= transverse_distance track vertex /\
     (track_pT track <> 0 -> xy = transverse_parameter track vertex)).
Proof.
  split.
  - intros H. unfold get_dca. lazy zeta. rewrite H. reflexivity.
  - intros vertex H. unfold get_dca. lazy zeta. rewrite H.
    unfold cross, sub3d. cbn [v3_0 v3_1 v3_2].
    set (phi := atan2 _ _).
    set (dx := get_x track - vertex_x vertex).
    set (dy := get_y track - vertex_y vertex).
    set (dz := get_z track - vertex_z vertex).
    exists (cos phi * dx + - sin phi * dy + 0 * dz).
    split; [f_equal; f_equal; unfold longitudinal_parameter; fold dz; ring | ].
    split.
    + unfold transverse_distance. fold dx dy.
      rewrite <- sqrt_Rsqr_abs. apply sqrt_le_1_alt. unfold Rsqr.
      pose proof (sin2_cos2 phi) as Hsc. unfold Rsqr in Hsc.
      pose proof (Rle_0_sqr (sin phi * dx + cos phi * dy)) as Hsq. unfold Rsqr in Hsq.
      replace (dx * dx + dy * dy)
        with ((sin phi * sin phi + cos phi * cos phi) * (dx * dx + dy * dy))
        by (rewrite Hsc; ring).
      nra.
    + intros HpT. unfold transverse_parameter. fold dx dy.
      assert (Hpos : 0 < track_pT track).
      { unfold track_pT in *. pose proof (sqrt_pos (get_px track * get_px track
                                                   + get_py track * get_py track)). lra. }
      assert (Er : sqrt ((get_py track * 1 - get_pz track * 0)
                         * (get_py track * 1 - get_pz track * 0)
                         + (get_pz track * 0 - get_px track * 1)
                           * (get_pz track * 0 - get_px track * 1))
                   = track_pT track).
      { unfold track_pT. f_equal. ring. }
      destruct (atan2_polar (get_pz track * 0 - get_px track * 1)
                  (get_py track * 1 - get_pz track * 0)) as [Hc Hs].
      { rewrite Er. exact Hpos. }
      fold phi in Hc, Hs. rewrite Er in Hc, Hs. rewrite Hc, Hs. field. exact HpT.
Qed.

End Dca.

(** A track at [(1, 0, 1)] with momentum along [y], seen from the vertex at
    the origin. *)
Lemma get_dca_parameters_witness :
  track_pT MissingVertex.track1 <> 0 /\
  exists xy,
    SecondaryVertexFinder.get_dca MissingVertex.vertex_map MissingVertex.track1 NaN NaN
    = (Num xy,
       Num (longitudinal_parameter MissingVertex.track1
              (SecondaryVertexFinder.mkSvtxVertex 0 0 0 2))) /\
    Rabs xy <= transverse_distance MissingVertex.track1
                 (SecondaryVertexFinder.mkSvtxVertex 0 0 0 2) /\
    (track_pT MissingVertex.track1 <> 0 ->
     xy = transverse_parameter MissingVertex.track1
            (SecondaryVertexFinder.mkSvtxVertex 0 0 0 2)).
Proof.
  split.
  - unfold track_pT. simpl.
    rewrite (sqrt_of_square _ 1) by lra. lra.
  - exact (proj2 (get_dca_parameters MissingVertex.vertex_map MissingVertex.track1 NaN NaN)
             (SecondaryVertexFinder.mkSvtxVertex 0 0 0 2) eq_refl).
Defined.

(** *** process_event: the loops over the tracks *)

Section Event.

Import SecondaryVertexFinder.

Variable svtx_vertex_map_get : nat -> option SvtxVertex.
Variable getTrackletClusters : TrackSeed -> list (Vector3d * nat).
Variable circle_fit_by_taubin : list Vector3d -> R * R * R.
Variable line_fit : list Vector3d -> R * R.
Variable projectTrackToCylinder : SvtxTrack -> R -> option (Vector3d * Vector3d).
Variable Verbosity : Z.
Variable _require_mvtx : bool.
Variables _qual_cut _track_dcaxy_cut _track_dcaz_cut : R.
Variables _max_intersection_radius _projected_track_z_cut : R.
Variables _two_track_dcacut _min_path_cut decaymass : R.

Local Abbreviation process_intersection_ :=
  (process_intersection svtx_vertex_map_get projectTrackToCylinder
     _max_intersection_radius _projected_track_z_cut _two_track_dcacut _min_path_cut
     decaymass).
Local Abbreviation track1_cuts_ :=
  (track1_cuts svtx_vertex_map_get _require_mvtx _qual_cut _track_dcaxy_cut
     _track_dcaz_cut).
Local Abbreviation process_pair_ :=
  (process_pair svtx_vertex_map_get getTrackletClusters circle_fit_by_taubin line_fit
     projectTrackToCylinder Verbosity _require_mvtx _qual_cut _track_dcaxy_cut
     _track_dcaz_cut _max_intersection_radius _projected_track_z_cut
     _two_track_dcacut _min_path_cut decaymass).
Local Abbreviation process_event_ :=
  (process_event svtx_vertex_map_get getTrackletClusters circle_fit_by_taubin line_fit
     projectTrackToCylinder Verbosity _require_mvtx _qual_cut _track_dcaxy_cut
     _track_dcaz_cut _max_intersection_radius _projected_track_z_cut
     _two_track_dcacut _min_path_cut decaymass).
Local Abbreviation selected := (track_selected _require_mvtx _qual_cut).
Local Abbreviation candidate :=
  (event_candidate svtx_vertex_map_get _require_mvtx _qual_cut _two_track_dcacut
     _min_path_cut).

(** What holds of a row of the pair [tr1], [tr2]. *)
Definition pair_row (tr1 tr2 : SvtxTrack) (row : NtpRow) : Prop :=
  row_track1 row = tr1 /\ row_track2 row = tr2 /\
  svtx_vertex_map_get (get_vertex_id tr1) = Some (row_vertex row) /\
  Rabs (row_pair_dca row) <= _two_track_dcacut /\
  row_path row > _min_path_cut.

Lemma rows_with_nil (P : NtpRow -> Prop) : rows_with P [].
Proof. intros o []. Qed.

Lemma rows_with_app (P : NtpRow -> Prop) (a b : list Output) :
  rows_with P a -> rows_with P b -> rows_with P (a ++ b).
Proof.
  intros Ha Hb o Ho. apply in_app_or in Ho. destruct Ho as [Ho | Ho].
  - destruct (Ha o Ho) as (row & Hin & Hor & HP).
    exists row. split; [apply in_or_app; left; exact Hin | ]. split; assumption.
  - destruct (Hb o Ho) as (row & Hin & Hor & HP).
    exists row. split; [apply in_or_app; right; exact Hin | ]. split; assumption.
Qed.

Lemma rows_with_weaken (P Q : NtpRow -> Prop) (outs : list Output) :
  (forall row, P row -> Q row) -> rows_with P outs -> rows_with Q outs.
Proof.
  intros HPQ H o Ho. destruct (H o Ho) as (row & Hin & Hor & HP).
  exists row. split; [exact Hin | ]. split; [exact Hor | apply HPQ; exact HP].
Qed.

Lemma process_intersection_rows (tr1 tr2 : SvtxTrack)
    (dca3dxy1 dca3dz1 dca3dxy2 dca3dz2 : float_nan) (has_silicon_1 has_silicon_2 : Z)
    (intersection_i : Vector2d) (outs : list Output) :
  process_intersection_ tr1 tr2 dca3dxy1 dca3dz1 dca3dxy2 dca3dz2 has_silicon_1
    has_silicon_2 intersection_i = Done outs ->
  rows_with (pair_row tr1 tr2) outs.
Proof.
  unfold process_intersection. lazy zeta.
  destruct (norm2d intersection_i =? 0);
    [intros H; injection H as <-; apply rows_with_nil | ].
  match goal with |- context [if ?c then _ else _] => destruct c end;
    [intros H; injection H as <-; apply rows_with_nil | ].
  destruct (projectTrackToCylinder tr1 _) as [[vpos1 vmom1] | ];
    [ | intros H; injection H as <-; apply rows_with_nil].
  destruct (projectTrackToCylinder tr2 _) as [[vpos2 vmom2] | ];
    [ | intros H; injection H as <-; apply rows_with_nil].
  match goal with |- context [if ?c then _ else _] => destruct c end;
    [intros H; injection H as <-; apply rows_with_nil | ].
  destruct (value (findPcaTwoLines vpos1 vmom1 vpos2 vmom2 _ _)) as [[pair_dca PCA1] PCA2].
  destruct (Rabs pair_dca >? _two_track_dcacut) eqn:Hdca;
    [intros H; injection H as <-; apply rows_with_nil | ].
  destruct (svtx_vertex_map_get (get_vertex_id tr1)) as [vertex1 | ] eqn:Ev;
    [ | discriminate].
  match goal with
  | |- context [if ?a >? ?b then _ else _] => destruct (a >? b) eqn:Hpath
  end; [ | intros H; injection H as <-; apply rows_with_nil].
  intros H. injection H as <-.
  unfold Rgtb in Hdca, Hpath. apply Rltb_false in Hdca. apply Rltb_true in Hpath.
  match goal with |- context [ntp_Fill ?r] => set (row := r) end.
  assert (Hrow : pair_row tr1 tr2 row).
  { unfold pair_row, row. simpl.
    split; [reflexivity | ]. split; [reflexivity | ]. split; [exact Ev | ].
    split; [exact Hdca | exact Hpath]. }
  intros o Ho. exists row.
  split; [right; left; reflexivity | ]. split; [ | exact Hrow].
  destruct Ho as [<- | [<- | []]]; [right | left]; reflexivity.
Qed.

(** The rows of a pair are rows of two tracks of different charge whose
    second one is selected. *)
Lemma process_pair_rows (tr1 tr2 : SvtxTrack) (dca3dxy1 dca3dz1 : float_nan)
    (has_silicon_1 : Z) (uninit_xy uninit_z : float_nan) (uninit_1 uninit_2 : Vector2d)
    (outs : list Output) :
  process_pair_ tr1 dca3dxy1 dca3dz1 has_silicon_1 tr2 uninit_xy uninit_z
    uninit_1 uninit_2 = Done outs ->
  rows_with (fun row => pair_row tr1 tr2 row /\
                        get_charge tr2 <> get_charge tr1 /\ selected tr2) outs.
Proof.
  unfold process_pair. lazy zeta.
  destruct (_require_mvtx && negb (hasSiliconSeed tr2))%bool eqn:Hs;
    [intros H; injection H as <-; apply rows_with_nil | ].
  destruct (get_charge tr2 =? get_charge tr1)%Z eqn:Hc;
    [intros H; injection H as <-; apply rows_with_nil | ].
  destruct (get_quality tr2 >? _qual_cut) eqn:Hq;
    [intros H; injection H as <-; apply rows_with_nil | ].
  destruct (size_cluster_keys (get_tpc_seed tr2) <? 20)%Z eqn:Hn;
    [intros H; injection H as <-; apply rows_with_nil | ].
  destruct (get_dca svtx_vertex_map_get tr2 uninit_xy uninit_z) as [xy z].
  destruct (float_not xy); [intros H; injection H as <-; apply rows_with_nil | ].
  destruct (fabs_lt xy _track_dcaxy_cut);
    [intros H; injection H as <-; apply rows_with_nil | ].
  destruct (fabs_lt z _track_dcaz_cut);
    [intros H; injection H as <-; apply rows_with_nil | ].
  destruct (findTwoTrackIntersection _ _ _ _ tr1 tr2 uninit_1 uninit_2)
    as [[found intersection_0] intersection_1].
  destruct (negb found); [intros H; injection H as <-; apply rows_with_nil | ].
  destruct (process_intersection_ tr1 tr2 dca3dxy1 dca3dz1 xy z has_silicon_1
              (if hasSiliconSeed tr2 then 1%Z else 0%Z) intersection_0)
    as [out0 | | ] eqn:E0; simpl; try discriminate.
  destruct (process_intersection_ tr1 tr2 dca3dxy1 dca3dz1 xy z has_silicon_1
              (if hasSiliconSeed tr2 then 1%Z else 0%Z) intersection_1)
    as [out1 | | ] eqn:E1; simpl; try discriminate.
  intros H. injection H as <-.
  unfold Rgtb in Hq. apply Rltb_false in Hq. apply Z.ltb_ge in Hn. apply Z.eqb_neq in Hc.
  assert (Hsel : selected tr2).
  { split; [exact Hq | ]. split; [exact Hn | ].
    intros Hr. rewrite Hr in Hs. simpl in Hs.
    destruct (hasSiliconSeed tr2); [reflexivity | discriminate]. }
  apply process_intersection_rows in E0, E1.
  apply rows_with_app;
    (eapply rows_with_weaken; [ | eassumption]);
    intros row Hrow; (split; [exact Hrow | ]); split; assumption.
Qed.

(** A first track that the outer loop goes on with is selected and its
    vertex has tracks. *)
Lemma track1_cuts_selected (tr1 : SvtxTrack) (uninit_xy uninit_z : float_nan)
    (dca3dxy1 dca3dz1 : float_nan) (has_silicon_1 : Z) :
  track1_cuts_ tr1 uninit_xy uninit_z = Done (Some (dca3dxy1, dca3dz1, has_silicon_1)) ->
  selected tr1 /\
  forall vertex, svtx_vertex_map_get (get_vertex_id tr1) = Some vertex ->
                 size_tracks vertex <> 0%nat.
Proof.
  unfold track1_cuts. lazy zeta.
  destruct (svtx_vertex_map_get (get_vertex_id tr1)) as [v | ] eqn:Ev; [ | discriminate].
  destruct (size_tracks v =? 0)%nat eqn:Hv; [discriminate | ].
  destruct (_require_mvtx && negb (hasSiliconSeed tr1))%bool eqn:Hs; [discriminate | ].
  destruct (get_quality tr1 >? _qual_cut) eqn:Hq; [discriminate | ].
  destruct (size_cluster_keys (get_tpc_seed tr1) <? 20)%Z eqn:Hn; [discriminate | ].
  intros _.
  unfold Rgtb in Hq. apply Rltb_false in Hq. apply Z.ltb_ge in Hn.
  apply Nat.eqb_neq in Hv.
  split.
  - split; [exact Hq | ]. split; [exact Hn | ].
    intros Hr. rewrite Hr in Hs. simpl in Hs.
    destruct (hasSiliconSeed tr1); [reflexivity | discriminate].
  - intros vertex E. injection E as <-. exact Hv.
Qed.

(** A first track whose vertex is not in the map stops the event. *)
Lemma track1_cuts_vertex (tr1 : SvtxTrack) (uninit_xy uninit_z : float_nan)
    (cuts : option (float_nan * float_nan * Z)) :
  track1_cuts_ tr1 uninit_xy uninit_z = Done cuts ->
  has_vertex svtx_vertex_map_get tr1.
Proof.
  unfold track1_cuts, has_vertex. lazy zeta.
  destruct (svtx_vertex_map_get (get_vertex_id tr1)) as [v | ]; [ | discriminate].
  intros _. exists v. reflexivity.
Qed.

(** The inner loop: what it adds to the outputs are rows of the first track
    with a track of the rest. *)
Lemma inner_loop_rows (tr1 : SvtxTrack) (dca3dxy1 dca3dz1 : float_nan)
    (has_silicon_1 : Z) (uninit_xy uninit_z : float_nan) (uninit_1 uninit_2 : Vector2d)
    (rest : list SvtxTrack) :
  forall (acc : outcome (list Output)) (outs : list Output),
    fold_left
      (fun acc tr2 =>
         outs <- acc ;;
         o <- process_pair_ tr1 dca3dxy1 dca3dz1 has_silicon_1 tr2
                uninit_xy uninit_z uninit_1 uninit_2 ;;
         Done (outs ++ o))
      rest acc = Done outs ->
    exists before added,
      acc = Done before /\ outs = before ++ added /\
      rows_with (fun row => exists tr2, In tr2 rest /\ pair_row tr1 tr2 row /\
                                        get_charge tr2 <> get_charge tr1 /\
                                        selected tr2) added.
Proof.
  induction rest as [ | tr2 rest IH]; intros acc outs; simpl.
  - intros ->. exists outs, []. split; [reflexivity | ].
    split; [symmetry; apply app_nil_r | apply rows_with_nil].
  - intros H. apply IH in H. destruct H as (mid & added & Hmid & -> & Hadded).
    destruct acc as [before | | ]; simpl in Hmid; try discriminate.
    destruct (process_pair_ tr1 dca3dxy1 dca3dz1 has_silicon_1 tr2 uninit_xy uninit_z
                uninit_1 uninit_2) as [o | | ] eqn:Ep; simpl in Hmid; try discriminate.
    injection Hmid as <-.
    exists before, (o ++ added). split; [reflexivity | ].
    split; [symmetry; apply app_assoc | ].
    apply process_pair_rows in Ep.
    apply rows_with_app.
    + eapply rows_with_weaken; [ | exact Ep].
      intros row Hrow. exists tr2. split; [left; reflexivity | exact Hrow].
    + eapply rows_with_weaken; [ | exact Hadded].
      intros row (tr & Hin & Hrow). exists tr. split; [right; exact Hin | exact Hrow].
Qed.

(** [process_event] emits candidates only: every output of an event is
    an ntuple row, or the histogram entry of a row, of a track of the event
    and a later track of different charge, both selected, with the vertex of
    the first track, a two-track distance within its cut and a path above
    its cut. *)
Theorem process_event_candidates (tracks : list SvtxTrack)
    (uninit_xy uninit_z : float_nan) (uninit_1 uninit_2 : Vector2d)
    (outs : list Output) :
  process_event_ tracks uninit_xy uninit_z uninit_1 uninit_2 = Done outs ->
  rows_with (candidate tracks) outs.
Proof.
  revert outs. induction tracks as [ | tr1 rest IH]; intros outs; simpl.
  - intros H. injection H as <-. apply rows_with_nil.
  - destruct (track1_cuts_ tr1 uninit_xy uninit_z) as [cuts | | ] eqn:E1;
      simpl; try discriminate.
    match goal with
    | |- context [obind ?m _] => destruct m as [out1 | | ] eqn:Einner
    end; simpl; try discriminate.
    destruct (process_event_ rest uninit_xy uninit_z uninit_1 uninit_2)
      as [out_rest | | ] eqn:Erest; simpl; try discriminate.
    intros H. injection H as <-.
    apply rows_with_app.
    + destruct cuts as [[[dca3dxy1 dca3dz1] has_silicon_1] | ].
      * apply track1_cuts_selected in E1. destruct E1 as [Hsel Hsize].
        apply inner_loop_rows in Einner.
        destruct Einner as (before & added & Hb & -> & Hadded).
        injection Hb as <-. simpl.
        eapply rows_with_weaken; [ | exact Hadded].
        intros row (tr2 & Hin & (T1 & T2 & V & D & P) & C & Hsel2).
        unfold event_candidate. rewrite T1, T2.
        split; [simpl; apply in_or_app; left; apply in_map; exact Hin | ].
        split; [exact C | ]. split; [exact Hsel | ]. split; [exact Hsel2 | ].
        split; [exact V | ]. split; [apply Hsize; exact V | ].
        split; assumption.
      * injection Einner as <-. apply rows_with_nil.
    + eapply rows_with_weaken; [ | apply IH; reflexivity].
      intros row (Hin & Hrest). split; [ | exact Hrest].
      simpl. apply in_or_app. right. exact Hin.
Qed.

(** [process_event] reads the vertex of every track of the event without
    testing the pointer: an event that it finishes has the vertex of each
    of its tracks in the vertex map. *)
Theorem process_event_reads_every_vertex (tracks : list SvtxTrack)
    (uninit_xy uninit_z : float_nan) (uninit_1 uninit_2 : Vector2d)
    (outs : list Output) :
  process_event_ tracks uninit_xy uninit_z uninit_1 uninit_2 = Done outs ->
  Forall (has_vertex svtx_vertex_map_get) tracks.
Proof.
  revert outs. induction tracks as [ | tr1 rest IH]; intros outs; simpl.
  - intros _. constructor.
  - destruct (track1_cuts_ tr1 uninit_xy uninit_z) as [cuts | | ] eqn:E1;
      simpl; try discriminate.
    match goal with
    | |- context [obind ?m _] => destruct m as [out1 | | ]
    end; simpl; try discriminate.
    destruct (process_event_ rest uninit_xy uninit_z uninit_1 uninit_2)
      as [out_rest | | ] eqn:Erest; simpl; try discriminate.
    intros _. constructor.
    + eapply track1_cuts_vertex. exact E1.
    + eapply IH. reflexivity.
Qed.

End Event.

(** *** An event with one candidate pair *)

Section OppositePairRun.

Import SecondaryVertexFinder.
Import MissingVertex.

Lemma example_dca_second_track (uninit_xy uninit_z : float_nan) :
  get_dca vertex_map OppositePair.track2 uninit_xy uninit_z = (Num 1, Num 1).
Proof.
  unfold get_dca. lazy zeta. simpl.
  assert (Ephi : atan2 (0 * 0 - 0 * 1) (1 * 1 - 0 * 0) = 0).
  { unfold atan2.
    replace (0 <? 1 * 1 - 0 * 0) with true by (symmetry; apply Rltb_true; lra).
    replace ((0 * 0 - 0 * 1) / (1 * 1 - 0 * 0)) with 0 by lra.
    apply atan_0. }
  rewrite Ephi, cos_0, sin_0.
  f_equal; f_equal; lra.
Qed.

Lemma example_cuts (tr : SvtxTrack) :
  tr = track1 \/ tr = OppositePair.track2 ->
  track1_cuts vertex_map false 10 0.1 0.1 tr NaN NaN = Done (Some (Num 1, Num 1, 0%Z)).
Proof.
  assert (Habs1 : (Rabs 1 <? 0.1) = false)
    by (apply Rltb_false; rewrite Rabs_R1; lra).
  assert (Hq : (1 >? 10) = false) by (apply Rltb_false; lra).
  intros [-> | ->]; unfold track1_cuts; lazy zeta.
  - replace (vertex_map (get_vertex_id track1)) with (Some (mkSvtxVertex 0 0 0 2))
      by reflexivity.
    cbv beta iota.
    replace (size_tracks (mkSvtxVertex 0 0 0 2) =? 0)%nat with false by reflexivity.
    replace (hasSiliconSeed track1) with false by reflexivity.
    replace (get_quality track1) with 1 by reflexivity.
    replace (size_cluster_keys (get_tpc_seed track1) <? 20)%Z with false by reflexivity.
    rewrite example_dca_track1, Hq. cbn [andb negb float_not fabs_lt].
    replace (1 =? 0) with false by (symmetry; apply Reqb_false; lra).
    rewrite Habs1. reflexivity.
  - replace (vertex_map (get_vertex_id OppositePair.track2))
      with (Some (mkSvtxVertex 0 0 0 2)) by reflexivity.
    cbv beta iota.
    replace (size_tracks (mkSvtxVertex 0 0 0 2) =? 0)%nat with false by reflexivity.
    replace (hasSiliconSeed OppositePair.track2) with false by reflexivity.
    replace (get_quality OppositePair.track2) with 1 by reflexivity.
    replace (size_cluster_keys (get_tpc_seed OppositePair.track2) <? 20)%Z
      with false by reflexivity.
    rewrite example_dca_second_track, Hq. cbn [andb negb float_not fabs_lt].
    replace (1 =? 0) with false by (symmetry; apply Reqb_false; lra).
    rewrite Habs1. reflexivity.
Qed.

Lemma example_pair_candidate (dca3dxy1 dca3dz1 dca3dxy2 dca3dz2 : float_nan)
    (has_silicon_1 has_silicon_2 : Z) (y : R) :
  y = 4 \/ y = -4 ->
  exists row,
    process_intersection vertex_map project 40 1 0.1 0.2 0 track1 OppositePair.track2
      dca3dxy1 dca3dz1 dca3dxy2 dca3dz2 has_silicon_1 has_silicon_2 (mkVector2d 3 y)
    = Done [recomass_Fill (row_invariantPt row) (row_invariantMass row); ntp_Fill row].
Proof.
  intros Hy. unfold process_intersection. lazy zeta.
  assert (Er : sqrt (3 * 3 + y * y) = 5).
  { apply sqrt_of_square; [lra | ]. destruct Hy as [-> | ->]; lra. }
  unfold norm2d. simpl v2_0. simpl v2_1. rewrite !Er.
  replace (5 =? 0) with false by (symmetry; apply Reqb_false; lra).
  unfold Rgtb.
  replace (40 <? 5) with false by (symmetry; apply Rltb_false; lra).
  replace (project track1 5) with (Some (mkVector3d 3 (-4) 0, mkVector3d 1 0 0))
    by reflexivity.
  replace (project OppositePair.track2 5)
    with (Some (mkVector3d 3 (-4) 0, mkVector3d 3 4 0)) by reflexivity.
  cbv beta iota. cbn [v3_2].
  replace (1 <? Rabs (0 - 0)) with false
    by (symmetry; apply Rltb_false; rewrite Rabs_right; lra).
  rewrite example_pca.
  replace (0.1 <? Rabs 0) with false
    by (symmetry; apply Rltb_false; rewrite Rabs_R0; lra).
  replace (vertex_map (get_vertex_id track1)) with (Some (mkSvtxVertex 0 0 0 2))
    by reflexivity.
  cbv beta iota. cbn [vertex_x vertex_y vertex_z].
  assert (Ep : norm (sub3d (div3d (add3d (mkVector3d 3 (-4) 0) (mkVector3d 3 (-4) 0)) 2.0)
                       (mkVector3d 0 0 0)) = 5).
  { unfold norm, dot, sub3d, div3d, add3d. simpl. apply sqrt_of_square; lra. }
  rewrite !Ep.
  replace (0.2 <? 5) with true by (symmetry; apply Rltb_true; lra).
  match goal with |- context [ntp_Fill ?r] => exists r end.
  reflexivity.
Qed.

(** The event finishes, with the two candidates of its pair. *)
Lemma example_event :
  exists outs, OppositePair.outputs = Done outs /\ length outs = 4%nat.
Proof.
  unfold OppositePair.outputs, OppositePair.tracks.
  assert (Habs1 : (Rabs 1 <? 0.1) = false)
    by (apply Rltb_false; rewrite Rabs_R1; lra).
  assert (Hq : (1 >? 10) = false) by (apply Rltb_false; lra).
  cbn [process_event].
  rewrite (example_cuts track1 (or_introl eq_refl)).
  rewrite (example_cuts OppositePair.track2 (or_intror eq_refl)).
  cbn [obind fold_left].
  unfold process_pair. lazy zeta.
  replace (hasSiliconSeed OppositePair.track2) with false by reflexivity.
  replace (get_charge OppositePair.track2 =? get_charge track1)%Z with false
    by reflexivity.
  replace (get_quality OppositePair.track2) with 1 by reflexivity.
  replace (size_cluster_keys (get_tpc_seed OppositePair.track2) <? 20)%Z with false
    by reflexivity.
  change (findTwoTrackIntersection clusters circle_fit line 0 track1 OppositePair.track2)
    with (findTwoTrackIntersection clusters circle_fit line 0 track1 track2).
  rewrite example_dca_second_track, example_intersections, Hq.
  cbn [andb negb float_not fabs_lt].
  replace (1 =? 0) with false by (symmetry; apply Reqb_false; lra).
  rewrite Habs1.
  destruct (example_pair_candidate (Num 1) (Num 1) (Num 1) (Num 1) 0 0 (-4)
              (or_intror eq_refl)) as (row0 & E0).
  destruct (example_pair_candidate (Num 1) (Num 1) (Num 1) (Num 1) 0 0 4
              (or_introl eq_refl)) as (row1 & E4).
  rewrite E0. cbn [obind]. rewrite E4. cbn [obind app].
  eexists. split; reflexivity.
Qed.

(** The pair of the event yields its two candidates. *)
Lemma example_pair :
  exists outs,
    pair_outputs vertex_map clusters circle_fit line project 0 false
      10 0.1 0.1 40 1 0.1 0.2 0
      track1 OppositePair.track2 NaN NaN (mkVector2d 0 0) (mkVector2d 0 0) = Done outs /\
    outs <> [].
Proof.
  unfold pair_outputs.
  assert (Habs1 : (Rabs 1 <? 0.1) = false)
    by (apply Rltb_false; rewrite Rabs_R1; lra).
  assert (Hq : (1 >? 10) = false) by (apply Rltb_false; lra).
  rewrite (example_cuts track1 (or_introl eq_refl)).
  cbn [obind].
  unfold process_pair. lazy zeta.
  replace (hasSiliconSeed OppositePair.track2) with false by reflexivity.
  replace (get_charge OppositePair.track2 =? get_charge track1)%Z with false
    by reflexivity.
  replace (get_quality OppositePair.track2) with 1 by reflexivity.
  replace (size_cluster_keys (get_tpc_seed OppositePair.track2) <? 20)%Z with false
    by reflexivity.
  change (findTwoTrackIntersection clusters circle_fit line 0 track1 OppositePair.track2)
    with (findTwoTrackIntersection clusters circle_fit line 0 track1 track2).
  rewrite example_dca_second_track, example_intersections, Hq.
  cbn [andb negb float_not fabs_lt].
  replace (1 =? 0) with false by (symmetry; apply Reqb_false; lra).
  rewrite Habs1.
  destruct (example_pair_candidate (Num 1) (Num 1) (Num 1) (Num 1) 0 0 (-4)
              (or_intror eq_refl)) as (row0 & E0).
  destruct (example_pair_candidate (Num 1) (Num 1) (Num 1) (Num 1) 0 0 4
              (or_introl eq_refl)) as (row1 & E4).
  rewrite E0. cbn [obind]. rewrite E4. cbn [obind app].
  eexists. split; [reflexivity | discriminate].
Qed.

End OppositePairRun.

(** The pair of the event of [OppositePair]: both tracks belong to vertex
    0 and the pair yields candidates. *)
Lemma pair_cuts_with_vertex_witness :
  MissingVertex.vertex_map (SecondaryVertexFinder.get_vertex_id OppositePair.track2)
  <> None /\
  exists outs,
    SecondaryVertexFinder.pair_outputs MissingVertex.vertex_map MissingVertex.clusters
      MissingVertex.circle_fit MissingVertex.line MissingVertex.project 0 false
      10 0.1 0.1 40 1 0.1 0.2 0
      MissingVertex.track1 OppositePair.track2 NaN NaN (mkVector2d 0 0) (mkVector2d 0 0)
    = Done outs /\
    outs <> [] /\
    candidate_cuts MissingVertex.vertex_map 10 0.1 0.1 0.1 0.2
      MissingVertex.track1 OppositePair.track2 outs.
Proof.
  assert (H : MissingVertex.vertex_map
                (SecondaryVertexFinder.get_vertex_id OppositePair.track2) <> None)
    by discriminate.
  split; [exact H | ].
  destruct example_pair as (outs & E & Hne).
  exists outs. split; [exact E | ]. split; [exact Hne | ].
  exact (pair_cuts_with_vertex MissingVertex.vertex_map MissingVertex.clusters
           MissingVertex.circle_fit MissingVertex.line MissingVertex.project 0 false
           10 0.1 0.1 40 1 0.1 0.2 0 MissingVertex.track1 OppositePair.track2 H
           NaN NaN (mkVector2d 0 0) (mkVector2d 0 0) outs E Hne).
Defined.

(** The event of [OppositePair]. *)
Lemma process_event_candidates_witness :
  exists outs,
    OppositePair.outputs = Done outs /\
    rows_with (event_candidate MissingVertex.vertex_map false 10 0.1 0.2
                 OppositePair.tracks) outs.
Proof.
  destruct example_event as (outs & E & _).
  exists outs. split; [exact E | ].
  exact (process_event_candidates MissingVertex.vertex_map MissingVertex.clusters
           MissingVertex.circle_fit MissingVertex.line MissingVertex.project 0 false
           10 0.1 0.1 40 1 0.1 0.2 0 OppositePair.tracks NaN NaN
           (mkVector2d 0 0) (mkVector2d 0 0) outs E).
Defined.

Lemma process_event_reads_every_vertex_witness :
  exists outs,
    OppositePair.outputs = Done outs /\
    Forall (has_vertex MissingVertex.vertex_map) OppositePair.tracks.
Proof.
  destruct example_event as (outs & E & _).
  exists outs. split; [exact E | ].
  exact (process_event_reads_every_vertex MissingVertex.vertex_map MissingVertex.clusters
           MissingVertex.circle_fit MissingVertex.line MissingVertex.project 0 false
           10 0.1 0.1 40 1 0.1 0.2 0 OppositePair.tracks NaN NaN
           (mkVector2d 0 0) (mkVector2d 0 0) outs E).
Defined.

(** *** process_track: what is added to the matrix container and to the tracks *)

Section MatrixEntries.

Import TpcDirectLaserReconstruction.

Variable GetLayerCellGeom : nat -> PHG4TpcCylinderGeom.
Variable get_drift_velocity : R.
Variables m_max_dca m_max_zrange m_pedestal : R.
Variables phibins rbins zbins : Z.
Variable container_get_cell_index : Z -> Z -> Z -> Z.
Variable isnan : R -> bool.

Local Abbreviation hit_loop_ :=
  (hit_loop GetLayerCellGeom get_drift_velocity m_max_dca m_pedestal).
Local Abbreviation process_layer_ :=
  (process_layer GetLayerCellGeom get_drift_velocity m_max_zrange phibins rbins zbins
     container_get_cell_index isnan).
Local Abbreviation process_track_ :=
  (process_track GetLayerCellGeom get_drift_velocity m_max_dca m_max_zrange m_pedestal
     phibins rbins zbins container_get_cell_index isnan).
Local Abbreviation process_event_ :=
  (process_event GetLayerCellGeom get_drift_velocity m_max_dca m_max_zrange m_pedestal
     phibins rbins zbins container_get_cell_index isnan).
Local Abbreviation run_ :=
  (run GetLayerCellGeom get_drift_velocity m_max_dca m_max_zrange m_pedestal
     phibins rbins zbins container_get_cell_index isnan).
Local Abbreviation on_line := (state_on_line GetLayerCellGeom).
Local Abbreviation on_track := (state_on_track GetLayerCellGeom).

(** What a part of a run adds: entries to the matrix container, one for
    each accepted cluster, and states, at least one for each entry. *)
Definition adds (P : SvtxTrackState -> Prop) (reco reco' : Reco) : Prop :=
  exists (entries : list MatrixEntry) (states : list SvtxTrackState),
    m_matrix_container reco' = m_matrix_container reco ++ entries /\
    inserted_states reco' = inserted_states reco ++ states /\
    m_accepted_clusters reco' = (m_accepted_clusters reco + Z.of_nat (length entries))%Z /\
    (length entries <= length states)%nat /\
    Forall entry_well_formed entries /\
    Forall P states.

Lemma adds_refl (P : SvtxTrackState -> Prop) (reco : Reco) : adds P reco reco.
Proof.
  exists [], []. rewrite !app_nil_r. simpl.
  repeat split; try lia; constructor.
Qed.

Lemma adds_trans (P : SvtxTrackState -> Prop) (r1 r2 r3 : Reco) :
  adds P r1 r2 -> adds P r2 r3 -> adds P r1 r3.
Proof.
  intros (e1 & s1 & C1 & I1 & A1 & L1 & F1 & G1) (e2 & s2 & C2 & I2 & A2 & L2 & F2 & G2).
  exists (e1 ++ e2), (s1 ++ s2).
  rewrite C2, C1, I2, I1, A2, A1, !app_assoc, !length_app.
  split; [reflexivity | ]. split; [reflexivity | ]. split; [lia | ]. split; [lia | ].
  split; apply Forall_app; split; assumption.
Qed.

Lemma adds_weaken (P Q : SvtxTrackState -> Prop) (reco reco' : Reco) :
  (forall state, P state -> Q state) -> adds P reco reco' -> adds Q reco reco'.
Proof.
  intros HPQ (e & s & C & I & A & L & F & G).
  exists e, s. repeat split; try assumption.
  eapply Forall_impl; [exact HPQ | exact G].
Qed.

Lemma adds_state (P : SvtxTrackState -> Prop) (reco : Reco) (state : SvtxTrackState) :
  P state ->
  adds P reco
    (mkReco (m_total_hits reco) (m_matched_hits reco) (m_accepted_clusters reco)
       (m_matrix_container reco) (inserted_states reco ++ [state])).
Proof.
  intros HP. exists [], [state]. simpl. rewrite app_nil_r.
  repeat split; try lia; constructor; [exact HP | constructor].
Qed.

(** The matrix of one cluster is [u u^T / erp + v v^T / ez] with
    [u = (1, 0, talpha)] and [v = (0, 1, tbeta)]. *)
Lemma entry_of_cluster (i : Z) (talpha tbeta drp dz erp ez : R) :
  (0 <= i)%Z -> 0 < erp -> 0 < ez ->
  entry_well_formed
    (mkMatrixEntry i
       [1 / erp; 0; talpha / erp;
        0; 1 / ez; tbeta / ez;
        talpha / erp; tbeta / ez; square talpha / erp + square tbeta / ez]
       [drp / erp; dz / ez; talpha * drp / erp + tbeta * dz / ez]).
Proof.
  intros Hi Herp Hez. unfold entry_well_formed. simpl.
  split; [exact Hi | ]. split; [reflexivity | ].
  split; [reflexivity | ]. split; [reflexivity | ]. split; [reflexivity | ].
  split.
  - intros x0 x1 x2. unfold lhs_form, square. simpl.
    replace (x0 * (1 / erp * x0 + 0 * x1 + talpha / erp * x2)
             + x1 * (0 * x0 + 1 / ez * x1 + tbeta / ez * x2)
             + x2 * (talpha / erp * x0 + tbeta / ez * x1
                     + (talpha * talpha / erp + tbeta * tbeta / ez) * x2))
      with ((x0 + talpha * x2) * (x0 + talpha * x2) * / erp
            + (x1 + tbeta * x2) * (x1 + tbeta * x2) * / ez)
      by (unfold Rdiv; ring).
    assert (0 < / erp) by (apply Rinv_0_lt_compat; exact Herp).
    assert (0 < / ez) by (apply Rinv_0_lt_compat; exact Hez).
    pose proof (Rle_0_sqr (x0 + talpha * x2)) as H1. unfold Rsqr in H1.
    pose proof (Rle_0_sqr (x1 + tbeta * x2)) as H2. unfold Rsqr in H2.
    nra.
  - exists drp, dz. unfold lhs_apply. simpl.
    f_equal; [unfold Rdiv; ring | ]. f_equal; [unfold Rdiv; ring | ].
    f_equal. unfold Rdiv; ring.
Qed.

Lemma Mag_vscale (direction : TVector3) (t : R) :
  0 <= t -> Mag (vscale direction t) = t * Mag direction.
Proof.
  intros Ht. unfold Mag.
  replace (Dot (vscale direction t) (vscale direction t))
    with (t * t * Dot direction direction)
    by (unfold Dot, vscale; simpl; ring).
  rewrite sqrt_mult_alt by nra. rewrite sqrt_square by exact Ht. reflexivity.
Qed.

(** The parameter [process_layer] chooses among the two intersections with
    the middle of the layer, when it is not negative, is on the cylinder. *)
Lemma layer_parameter_on_cylinder (origin direction : TVector3) (radius : R) :
  let tupdn := line_circle_intersection origin direction radius in
  let t := if (snd tupdn >? 0) && (snd tupdn <? fst tupdn) then snd tupdn
           else fst tupdn in
  0 <= t -> lci_A direction <> 0 -> 0 <= radius ->
  get_r (vx origin + t * vx direction) (vy origin + t * vy direction) = radius.
Proof.
  rewrite lci_unfold. lazy zeta.
  destruct (lci_delta origin direction radius <? 0) eqn:Hd.
  - simpl fst. simpl snd.
    replace (-1 >? 0) with false by (symmetry; apply Rltb_false; lra).
    simpl. intros H. lra.
  - apply Rltb_false in Hd. simpl fst. simpl snd.
    intros _ HA Hr.
    destruct ((_ >? 0) && _)%bool.
    + apply get_r_on_circle; [ | exact Hr].
      apply on_circle_iff_root. apply quadratic_root_minus; assumption.
    + apply get_r_on_circle; [ | exact Hr].
      apply on_circle_iff_root. apply quadratic_root_plus; assumption.
Qed.

Ltac head_if H :=
  match goal with
  | |- (if ?c then _ else _) = _ -> _ => destruct c eqn:H
  end.

Ltac skipped H :=
  intros H; injection H as <-; apply adds_refl.

(** One layer adds nothing, a state, or a state and an entry. *)
Lemma process_layer_adds (fuel : nat) (origin direction : TVector3)
    (cluspos : list (nat * (R * TVector3))) (layer : nat) (reco reco' : Reco) :
  process_layer_ fuel origin direction cluspos layer reco = Done reco' ->
  adds (on_line origin direction) reco reco'.
Proof.
  unfold process_layer. lazy zeta.
  head_if H1; [skipped H | ].
  head_if H2; [skipped H | ].
  match goal with
  | |- (if ?c <? 0 then _ else _) = _ -> _ => set (t := c)
  end.
  head_if Ht; [skipped H | ].
  apply Rltb_false in Ht.
  head_if Hz; [skipped H | ].
  set (state := mkTrackState (Mag (vscale direction t)) (vadd origin (vscale direction t))
                  direction).
  assert (Hstate : on_line origin direction state).
  { exists layer, t. split; [exact Ht | ]. split; [reflexivity | ].
    split; [reflexivity | ]. split; [apply Mag_vscale; exact Ht | ].
    intros HA Hr. unfold state, vadd, vscale. simpl.
    rewrite (Rmult_comm (vx direction) t), (Rmult_comm (vy direction) t).
    apply (layer_parameter_on_cylinder origin direction
             (get_radius (GetLayerCellGeom layer)) Ht HA Hr). }
  do 6 (head_if Hn; [intros H; injection H as <-; apply adds_state; exact Hstate | ];
        clear Hn).
  match goal with
  | |- context [get_cell_index ?a ?b ?c ?d ?e ?f] =>
      destruct (get_cell_index a b c d e f) as [i | | ]
  end; simpl; try discriminate.
  destruct (i <? 0)%Z eqn:Hi; intros H; injection H as <-.
  - apply adds_state. exact Hstate.
  - apply Z.ltb_ge in Hi.
    match goal with
    | |- context [m_matrix_container _ ++ [?e]] => set (entry := e)
    end.
    exists [entry], [state].
    split; [reflexivity | ]. split; [reflexivity | ].
    split; [reflexivity | ]. split; [apply Nat.le_refl | ].
    split.
    + constructor; [ | constructor]. unfold entry.
      apply entry_of_cluster; [exact Hi | unfold square; lra | unfold square; lra].
    + constructor; [exact Hstate | constructor].
Qed.

Lemma process_track_adds (fuel : nat) (hitsets : list TrkrHitSet) (track : LaserTrack)
    (reco reco' : Reco) :
  process_track_ fuel hitsets track reco = Done reco' ->
  adds (on_track [track]) reco reco'.
Proof.
  unfold process_track. lazy zeta.
  match goal with
  | |- context [hit_loop_ ?f ?o ?d ?h ?s0] =>
      destruct (hit_loop_ f o d h s0) as [s | | ] eqn:Ehits
  end; simpl; try discriminate.
  apply hit_loop_counted in Ehits.
  destruct Ehits as (_ & Acc & Cont & Ins & _). simpl in Acc, Cont, Ins.
  intros Hlayers.
  assert (H : adds (on_line (mkTVector3 (get_x track) (get_y track) (get_z track))
                      (mkTVector3 (get_px track) (get_py track) (get_pz track)))
                (hl_reco s) reco').
  { revert Hlayers. generalize (hl_reco s) as r. intros r. revert r reco'.
    apply (for_each_preserves
             (process_layer_ fuel (mkTVector3 (get_x track) (get_y track) (get_z track))
                (mkTVector3 (get_px track) (get_py track) (get_pz track)) (cluspos_map s))
             (adds (on_line (mkTVector3 (get_x track) (get_y track) (get_z track))
                      (mkTVector3 (get_px track) (get_py track) (get_pz track))))).
    - apply adds_refl.
    - apply adds_trans.
    - intros l r r' _. apply process_layer_adds. }
  destruct H as (e & st & C & I & A & L & F & G).
  exists e, st. rewrite <- Cont, <- Ins, <- Acc.
  repeat split; try assumption.
  eapply Forall_impl; [ | exact G].
  intros state Hs. exists track. split; [left; reflexivity | exact Hs].
Qed.

Lemma process_event_adds (fuel : nat) (event : Event) (reco reco' : Reco) :
  process_event_ fuel event reco = Done reco' ->
  adds (on_track (snd event)) reco reco'.
Proof.
  unfold process_event, process_tracks. revert reco reco'.
  apply (for_each_preserves (process_track_ fuel (fst event))
           (adds (on_track (snd event)))).
  - apply adds_refl.
  - apply adds_trans.
  - intros track r r' Hin H. apply process_track_adds in H.
    eapply adds_weaken; [ | exact H].
    intros state (tr & [<- | []] & Hs). exists track. split; assumption.
Qed.

Lemma run_adds (fuel : nat) (events : list Event) (reco reco' : Reco) :
  run_ fuel events reco = Done reco' ->
  adds (on_track (run_tracks events)) (Init reco) reco'.
Proof.
  unfold run. generalize (Init reco) as reco0. intros reco0. revert reco0 reco'.
  apply (for_each_preserves (process_event_ fuel)
           (adds (on_track (run_tracks events)))).
  - apply adds_refl.
  - apply adds_trans.
  - intros event r r' Hin H. apply process_event_adds in H.
    eapply adds_weaken; [ | exact H].
    intros state (tr & Htr & Hs). exists tr. split; [ | exact Hs].
    unfold run_tracks. apply in_flat_map. exists event. split; assumption.
Qed.

Lemma run_done (events : list Event) (reco : Reco) :
  layers_inside_rings GetLayerCellGeom ->
  exists fuel0 : nat, forall fuel : nat, (fuel0 <= fuel)%nat ->
  exists reco', run_ fuel events reco = Done reco'.
Proof.
  intros Hrings.
  destruct (run_fuel GetLayerCellGeom get_drift_velocity m_max_dca m_max_zrange m_pedestal
              phibins rbins zbins container_get_cell_index isnan events) as [fuel0 H0].
  exists (Nat.max fuel0 1). intros fuel Hfuel.
  pose proof (H0 fuel ltac:(lia) reco) as Hf.
  pose proof (run_defined GetLayerCellGeom get_drift_velocity m_max_dca m_max_zrange
                m_pedestal phibins rbins zbins container_get_cell_index isnan
                Hrings fuel events reco ltac:(lia)) as Hd.
  destruct (run_ fuel events reco) as [reco' | | ].
  - exists reco'. reflexivity.
  - contradiction.
  - contradiction.
Qed.

(** A run, with layers inside the rings of [Locate] and enough fuel for
    the angle loops, ends; what it added to the matrix container are as
    many entries as [m_accepted_clusters] counts, each with a cell of the
    grid, a symmetric matrix whose quadratic form is never negative, and a
    right-hand side that is this matrix applied to the residual. *)
Theorem run_fills_matrix (events : list Event) (reco : Reco) :
  layers_inside_rings GetLayerCellGeom ->
  exists fuel0 : nat, forall fuel : nat, (fuel0 <= fuel)%nat ->
  exists (reco' : Reco) (entries : list MatrixEntry),
    run_ fuel events reco = Done reco' /\
    m_matrix_container reco' = m_matrix_container reco ++ entries /\
    m_accepted_clusters reco' = Z.of_nat (length entries) /\
    Forall entry_well_formed entries.
Proof.
  intros Hrings. destruct (run_done events reco Hrings) as [fuel0 H0].
  exists fuel0. intros fuel Hfuel. destruct (H0 fuel Hfuel) as [reco' Hrun].
  destruct (run_adds _ _ _ _ Hrun) as (e & st & C & I & A & L & F & G).
  exists reco', e. simpl in C, A.
  split; [exact Hrun | ]. split; [exact C | ]. split; [lia | exact F].
Qed.

(** A run, with layers inside the rings and enough fuel, ends; the states
    it inserted are at least as many as the accepted clusters, and each is
    a state of a laser track of the run: on the line of the track at a
    parameter that is not negative, with the direction of the track as
    momentum, the distance from its origin as path length and, for a track
    with a transverse direction, a position on the cylinder of a layer. *)
Theorem run_inserts_states_on_tracks (events : list Event) (reco : Reco) :
  layers_inside_rings GetLayerCellGeom ->
  exists fuel0 : nat, forall fuel : nat, (fuel0 <= fuel)%nat ->
  exists (reco' : Reco) (states : list SvtxTrackState),
    run_ fuel events reco = Done reco' /\
    inserted_states reco' = inserted_states reco ++ states /\
    (m_accepted_clusters reco' <= Z.of_nat (length states))%Z /\
    Forall (on_track (run_tracks events)) states.
Proof.
  intros Hrings. destruct (run_done events reco Hrings) as [fuel0 H0].
  exists fuel0. intros fuel Hfuel. destruct (H0 fuel Hfuel) as [reco' Hrun].
  destruct (run_adds _ _ _ _ Hrun) as (e & st & C & I & A & L & F & G).
  exists reco', st. simpl in I, A.
  split; [exact Hrun | ]. split; [exact I | ]. split; [lia | exact G].
Qed.

End MatrixEntries.

(** The run of [OneLayer]. *)
Lemma run_fills_matrix_witness :
  layers_inside_rings OneLayer.geometry /\
  exists fuel0 : nat, forall fuel : nat, (fuel0 <= fuel)%nat ->
  exists (reco' : TpcDirectLaserReconstruction.Reco)
         (entries : list TpcDirectLaserReconstruction.MatrixEntry),
    OneLayer.run_events fuel = Done reco' /\
    TpcDirectLaserReconstruction.m_matrix_container reco'
    = TpcDirectLaserReconstruction.m_matrix_container OneLayer.reco ++ entries /\
    TpcDirectLaserReconstruction.m_accepted_clusters reco' = Z.of_nat (length entries) /\
    Forall entry_well_formed entries.
Proof.
  assert (H : layers_inside_rings OneLayer.geometry)
    by (intros layer; left; simpl; lra).
  split; [exact H | ].
  exact (run_fills_matrix OneLayer.geometry 0.008 1.5 2 74 36 16 80
           (fun iphi ir iz => (iz + 80 * (ir + 16 * iphi))%Z) (fun _ => false)
           OneLayer.events OneLayer.reco H).
Defined.

Lemma run_inserts_states_on_tracks_witness :
  layers_inside_rings OneLayer.geometry /\
  exists fuel0 : nat, forall fuel : nat, (fuel0 <= fuel)%nat ->
  exists (reco' : TpcDirectLaserReconstruction.Reco)
         (states : list TpcDirectLaserReconstruction.SvtxTrackState),
    OneLayer.run_events fuel = Done reco' /\
    TpcDirectLaserReconstruction.inserted_states reco'
    = TpcDirectLaserReconstruction.inserted_states OneLayer.reco ++ states /\
    (TpcDirectLaserReconstruction.m_accepted_clusters reco'
     <= Z.of_nat (length states))%Z /\
    Forall (state_on_track OneLayer.geometry (run_tracks OneLayer.events)) states.
Proof.
  assert (H : layers_inside_rings OneLayer.geometry)
    by (intros layer; left; simpl; lra).
  split; [exact H | ].
  exact (run_inserts_states_on_tracks OneLayer.geometry 0.008 1.5 2 74 36 16 80
           (fun iphi ir iz => (iz + 80 * (ir + 16 * iphi))%Z) (fun _ => false)
           OneLayer.events OneLayer.reco H).
Defined.

(** *** process_track: the association of a hit *)

Section HitAssociation.

Import TpcDirectLaserReconstruction.

Variable GetLayerCellGeom : nat -> PHG4TpcCylinderGeom.
Variable get_drift_velocity : R.
Variables m_max_dca m_pedestal : R.

Local Abbreviation position := (hit_position GetLayerCellGeom get_drift_velocity).

(** The foot of the perpendicular from a point to a line is the nearest
    point of the line. *)
Lemma foot_is_nearest (origin direction point : TVector3) :
  Dot direction direction <> 0 ->
  let oc := mkTVector3 (vx point - vx origin) (vy point - vy origin)
              (vz point - vz origin) in
  distance_to_line origin direction point
    (Mag (vsub oc (vscale direction (Dot direction oc / square (Mag direction))))).
Proof.
  intros Hd oc.
  assert (Hdd : 0 <= Dot direction direction)
    by (unfold Dot; pose proof (sum_squares_nonneg (vx direction) (vy direction)); nra).
  assert (Hm : square (Mag direction) = Dot direction direction)
    by (unfold square, Mag; apply sqrt_sqrt; exact Hdd).
  rewrite Hm. set (t0 := Dot direction oc / Dot direction direction).
  assert (Ht0 : t0 * Dot direction direction = Dot direction oc)
    by (unfold t0; field; exact Hd).
  assert (E : forall t, vsub point (vadd origin (vscale direction t))
                        = vsub oc (vscale direction t)).
  { intros t. unfold vsub, vadd, vscale, oc. simpl. f_equal; ring. }
  split.
  - exists t0. rewrite E. reflexivity.
  - intros t. rewrite E. unfold Mag. apply sqrt_le_1_alt.
    replace (Dot (vsub oc (vscale direction t)) (vsub oc (vscale direction t)))
      with (Dot (vsub oc (vscale direction t0)) (vsub oc (vscale direction t0))
            + (t - t0) * (t - t0) * Dot direction direction
            + 2 * (t0 - t) * (Dot direction oc - t0 * Dot direction direction))
      by (unfold Dot, vsub, vscale; simpl; ring).
    rewrite Ht0. pose proof (Rle_0_sqr (t - t0)) as Hsq. unfold Rsqr in Hsq.
    assert (0 <= (t - t0) * (t - t0) * Dot direction direction)
      by (apply Rmult_le_pos; assumption).
    lra.
Qed.

(** For a laser track with a direction, [process_track] associates a hit
    exactly when the distance of its position to the line of the track is
    at most [m_max_dca]. *)
Theorem process_hit_associates_by_distance (fuel : nat) (origin direction : TVector3)
    (side : Z) (layer : nat) (hit : TrkrHit) (s : HitLoop) :
  Dot direction direction <> 0 ->
  associates_by_distance GetLayerCellGeom get_drift_velocity m_max_dca m_pedestal
    fuel origin direction side layer hit s.
Proof.
  intros Hd. unfold associates_by_distance, process_hit. lazy zeta.
  fold (position side layer hit).
  match goal with
  | |- context [if ?d >? m_max_dca then _ else _] => set (dist := d)
  end.
  exists dist. split; [apply foot_is_nearest; exact Hd | ].
  split.
  - intros Hfar. unfold Rgtb.
    replace (m_max_dca <? dist) with true by (symmetry; apply Rltb_true; lra).
    reflexivity.
  - intros Hnear s'. unfold Rgtb at 1.
    replace (m_max_dca <? dist) with false by (symmetry; apply Rltb_false; lra).
    destruct (wrap_phi fuel _) as [phi2 | | ]; simpl; try discriminate.
    match goal with
    | |- context [obind ?m _] => destruct m as [arr | | ]
    end; simpl; try discriminate.
    intros H. injection H as <-. simpl.
    repeat split; reflexivity.
Qed.

End HitAssociation.

(** The hit and the track of [OneLayer], with no hit seen before. *)
Lemma process_hit_associates_by_distance_witness :
  Dot (mkTVector3 1 0 0) (mkTVector3 1 0 0) <> 0 /\
  associates_by_distance OneLayer.geometry 0.008 1.5 74 1
    (mkTVector3 0 0 0) (mkTVector3 1 0 0) 0 7
    (TpcDirectLaserReconstruction.mkTrkrHit 0 0 100)
    (TpcDirectLaserReconstruction.mkHitLoop OneLayer.reco (repeat 0%Z 72) [] []).
Proof.
  assert (H : Dot (mkTVector3 1 0 0) (mkTVector3 1 0 0) <> 0)
    by (unfold Dot; simpl; lra).
  split; [exact H | ].
  exact (process_hit_associates_by_distance OneLayer.geometry 0.008 1.5 74 1
           (mkTVector3 0 0 0) (mkTVector3 1 0 0) 0 7
           (TpcDirectLaserReconstruction.mkTrkrHit 0 0 100)
           (TpcDirectLaserReconstruction.mkHitLoop OneLayer.reco (repeat 0%Z 72) [] [])
           H).
Defined.

(** *** Locate: the module of a point *)

Section LocateModule.

Import TpcDirectLaserReconstruction.

Ltac decide_comparisons :=
  repeat match goal with
  | |- context [?a <? ?b] =>
      first [ replace (a <? b) with true by (symmetry; apply Rltb_true; lra)
            | replace (a <? b) with false by (symmetry; apply Rltb_false; lra) ];
      cbn [andb]
  end.

Lemma Locate_r_id (r : R) (j : nat) :
  (j < 3)%nat -> in_ring j r ->
  first_match
    (fun r_iter => (r >? nth r_iter r_bins 0) && (r <? nth (r_iter + 1) r_bins 0))
    (fun r_iter => (Z.of_nat r_iter + 1)%Z) (seq 0 3) 0%Z
  = (Z.of_nat j + 1)%Z.
Proof.
  intros Hj Hr. unfold in_ring in Hr.
  do 3 (destruct j as [ | j]; [simpl in Hr; unfold r_bins, Rgtb; simpl;
                               decide_comparisons; reflexivity | ]).
  lia.
Qed.

Lemma Locate_angle_id (phi : R) (k : nat) :
  (k < 12)%nat -> in_sector k phi ->
  first_match
    (fun ang_iter =>
       (phi >? nth ang_iter Angle_Bins 0) && (phi <? nth (ang_iter + 1) Angle_Bins 0))
    (fun ang_iter => Z.of_nat ang_iter) (seq 0 12) 0%Z
  = Z.of_nat k.
Proof.
  intros Hk Hphi. pose proof PI_RGT_0 as Hpi.
  destruct k as [ | k].
  - unfold Angle_Bins, Rgtb. simpl.
    destruct Hphi as [Hphi | Hphi]; decide_comparisons; reflexivity.
  - do 11 (destruct k as [ | k]; [simpl in Hphi; unfold Angle_Bins, Rgtb; simpl;
                                  decide_comparisons; reflexivity | ]).
    lia.
Qed.

(** [Locate] names the module of a point inside a ring and a sector as the
    labels of the source do: modules 1 to 36 on the side of [z >= 0] and 37
    to 72 on the other, three for each sector, one for each ring. *)
Theorem Locate_names_module (r phi z : R) (j k : nat) :
  (j < 3)%nat -> (k < 12)%nat -> in_ring j r -> in_sector k phi ->
  Locate r phi z
  = (36 * (if Rltb z 0 then 1 else 0) + 3 * Z.of_nat k + (Z.of_nat j + 1))%Z.
Proof.
  intros Hj Hk Hr Hphi. unfold Locate. cbv zeta.
  rewrite (Locate_r_id r j Hj Hr), (Locate_angle_id phi k Hk Hphi). reflexivity.
Qed.

End LocateModule.

(** The middle of the second ring in the sector around [PI / 2], on the
    side of negative [z]: module 47. *)
Lemma Locate_names_module_witness :
  (1 < 3)%nat /\ (3 < 12)%nat /\ in_ring 1 54 /\ in_sector 3 (PI / 2) /\
  TpcDirectLaserReconstruction.Locate 54 (PI / 2) (-1) = 47%Z.
Proof.
  assert (Hj : (1 < 3)%nat) by lia.
  assert (Hk : (3 < 12)%nat) by lia.
  assert (Hr : in_ring 1 54) by (unfold in_ring; simpl; lra).
  assert (Hphi : in_sector 3 (PI / 2))
    by (unfold in_sector; simpl; pose proof PI_RGT_0; lra).
  split; [exact Hj | ]. split; [exact Hk | ]. split; [exact Hr | ]. split; [exact Hphi | ].
  rewrite (Locate_names_module 54 (PI / 2) (-1) 1 3 Hj Hk Hr Hphi).
  replace (Rltb (-1) 0) with true by (symmetry; apply Rltb_true; lra).
  reflexivity.
Defined.

(** *** findTwoTrackPCA *)

Section TwoTrackPCAProperties.

Import SecondaryVertexFinder.

Variable getTrackletClusters : TrackSeed -> list (Vector3d * nat).
Variable circle_fit_by_taubin : list Vector3d -> R * R * R.
Variable line_fit : list Vector3d -> R * R.
Variable Verbosity : Z.
Variable get_p : SvtxTrack -> R.
Variable propagateTrack : SvtxTrack -> Vector3d -> option Vector3d.

Local Abbreviation fitClusters_ :=
  (fitClusters getTrackletClusters circle_fit_by_taubin line_fit Verbosity).
Local Abbreviation findTwoTrackPCA_ :=
  (findTwoTrackPCA getTrackletClusters circle_fit_by_taubin line_fit Verbosity get_p
     propagateTrack).

(** [circle_circle_intersection] pushes no coordinate, two or four. *)
Lemma cci_pushes (r0 x0 y0 r1 x1 y1 : R) :
  (exists x y, circle_circle_intersection r0 x0 y0 r1 x1 y1 [] = (true, [x; y])) \/
  (exists xa ya xb yb,
     circle_circle_intersection r0 x0 y0 r1 x1 y1 [] = (true, [xa; ya; xb; yb])) \/
  circle_circle_intersection r0 x0 y0 r1 x1 y1 [] = (false, []).
Proof.
  unfold circle_circle_intersection. lazy zeta.
  match goal with |- context [if ?c then _ else _] => destruct c end;
    [right; right; reflexivity | ].
  match goal with |- context [if ?c then _ else _] => destruct c end.
  - match goal with |- context [if ?c then _ else _] => destruct c end.
    + left. do 2 eexists. reflexivity.
    + right; right; reflexivity.
  - right; left. do 4 eexists. reflexivity.
Qed.

(** [findTwoTrackPCA] reads four coordinates of the intersections whatever
    their number: its behaviour is undefined exactly when both fits give
    parameters and [circle_circle_intersection] succeeds with the single
    point of the near-tangency case. *)
Theorem findTwoTrackPCA_reads_four_coordinates (track1 track2 : SvtxTrack)
    (PCA1 PCA2 : Vector3d) :
  let fit1 := fitClusters_ (get_tpc_seed track1) in
  let fit2 := fitClusters_ (get_tpc_seed track2) in
  let circles :=
    circle_circle_intersection (nth 0 fit1 0) (nth 1 fit1 0) (nth 2 fit1 0)
      (nth 0 fit2 0) (nth 1 fit2 0) (nth 2 fit2 0) [] in
  (findTwoTrackPCA_ track1 track2 PCA1 PCA2 = Undefined <->
   fit1 <> [] /\ fit2 <> [] /\ exists x y, circles = (true, [x; y])) /\
  (fit1 = [] \/ fit2 = [] \/ fst circles = false ->
   findTwoTrackPCA_ track1 track2 PCA1 PCA2 = Done (999, PCA1, PCA2, track1, track2)).
Proof.
  lazy zeta. unfold findTwoTrackPCA. lazy zeta.
  destruct (fitClusters_ (get_tpc_seed track1)) as [ | f1 l1] eqn:E1.
  { cbn [length Nat.eqb]. split.
    - split; [discriminate | intros (H & _); contradiction].
    - intros _. f_equal. f_equal. f_equal. f_equal. f_equal. lra. }
  destruct (fitClusters_ (get_tpc_seed track2)) as [ | f2 l2] eqn:E2.
  { cbn [length Nat.eqb]. split.
    - split; [discriminate | intros (_ & H & _); contradiction].
    - intros _. f_equal. f_equal. f_equal. f_equal. f_equal. lra. }
  cbn [length Nat.eqb].
  destruct (cci_pushes (nth 0 (f1 :: l1) 0) (nth 1 (f1 :: l1) 0) (nth 2 (f1 :: l1) 0)
              (nth 0 (f2 :: l2) 0) (nth 1 (f2 :: l2) 0) (nth 2 (f2 :: l2) 0))
    as [(x & y & E) | [(xa & ya & xb & yb & E) | E]]; rewrite E.
  - split.
    + split; [intros _ | reflexivity].
      split; [discriminate | ]. split; [discriminate | ]. exists x, y. reflexivity.
    + intros [H | [H | H]]; discriminate.
  - split.
    + split.
      * cbn [negb vector_at nth_error obind].
        destruct (value (dcaTwoLines _ _ _ _ _ _)) as [[dca P1] P2]. discriminate.
      * intros (_ & _ & x & y & H). discriminate.
    + intros [H | [H | H]]; discriminate.
  - split.
    + split; [discriminate | intros (_ & _ & x & y & H); discriminate].
    + intros _. cbn [negb]. f_equal. f_equal. f_equal. f_equal. f_equal. lra.
Qed.

End TwoTrackPCAProperties.
